(** * ALPSCore alea: covariance accumulator, sum-reduction and level lookup

    A shallow embedding of the covariance engine of the ALPSCore [alea]
    library ([cov_data], [cov_acc], [cov_result] of covariance.cpp), of the
    input adapters of computed.hpp, of the MPI reducer of mpi.hpp and of the
    level lookup declared in autocorr.hpp, followed by the properties the
    specification states about them.

    Numbers.  The element type [double] is modelled by exact rationals
    extended with one absorbing non-finite value, which stands for the IEEE
    results of a division by zero and everything computed from them.  Sample
    counts are [size_t]: integers with wrap-around modulo 2^64. *)

From Stdlib Require Import ZArith QArith Qcanon Field Lia.
From Stdlib Require Import Ascii.
From stdpp Require Import base numbers list.

Local Open Scope Z_scope.

(** ** Scalars *)

(** [double] under exact arithmetic: a rational, or a non-finite value
    (an infinity or a NaN). *)
Inductive real : Type :=
| Finite (q : Qc)
| NonFinite.

#[global] Instance real_eq_dec : EqDecision real.
Proof. solve_decision. Defined.

Definition is_finite (x : real) : bool :=
  match x with Finite _ => true | NonFinite => false end.

Definition lift2 (f : Qc → Qc → Qc) (x y : real) : real :=
  match x, y with
  | Finite a, Finite b => Finite (f a b)
  | _, _ => NonFinite
  end.

Definition radd : real → real → real := lift2 Qcplus.
Definition rsub : real → real → real := lift2 Qcminus.
Definition rmul : real → real → real := lift2 Qcmult.

(** Division of an element by a count converted to the element type.  A zero
    divisor gives a non-finite value, as [x / 0.0] does. *)
Definition rdiv (x : real) (c : Qc) : real :=
  match x with
  | Finite a => if decide (c = 0%Qc) then NonFinite else Finite (a / c)
  | NonFinite => NonFinite
  end.

(** Product of a count converted to the element type and an element. *)
Definition rscale (c : Qc) (x : real) : real := rmul (Finite c) x.

Definition rzero : real := Finite 0%Qc.

(** [size_t]: 64 bits, unsigned, arithmetic modulo 2^64. *)
Definition size_t_modulus : Z := 2 ^ 64.
Definition size_t_wrap (z : Z) : Z := z mod size_t_modulus.
Definition size_t_add (a b : Z) : Z := size_t_wrap (a + b).
Definition size_t_sub (a b : Z) : Z := size_t_wrap (a - b).
Definition is_size_t (z : Z) : Prop := 0 ≤ z < size_t_modulus.

(** Conversion of a count to the element type. *)
Definition of_size_t (n : Z) : Qc := Qc_of_Z n.

(** ** Columns and matrices (Eigen) *)

(** [column<T>] is a list of coefficients, a square matrix the list of its
    rows.  The Eigen operations used by the code are coefficient-wise. *)
Abbreviation column := (list real).
Abbreviation matrix := (list (list real)).

Definition vfill (x : real) (v : column) : column := const x <$> v.
Definition vadd (v w : column) : column := zip_with radd v w.
Definition vdiv (v : column) (c : Qc) : column := (λ x, rdiv x c) <$> v.
Definition vscale (c : Qc) (v : column) : column := rscale c <$> v.

Definition mfill (x : real) (m : matrix) : matrix := vfill x <$> m.
Definition madd (m k : matrix) : matrix := zip_with vadd m k.
Definition msub (m k : matrix) : matrix := zip_with (zip_with rsub) m k.
Definition mdiv (m : matrix) (c : Qc) : matrix := (λ r, vdiv r c) <$> m.
Definition mscale (c : Qc) (m : matrix) : matrix := vscale c <$> m.

(** Coefficient [(i, j)] of a matrix. *)
Definition coeff (m : matrix) (i j : nat) : option real :=
  m !! i ≫= λ r, r !! j.

(** Modelled from the spec: [internal::outer] of alps/alea/internal/outer.hpp,
    which is not among the sources; for the real-valued strategy the
    contribution of two vectors to the covariance is their outer product
    [a ⊗ b], with coefficient [(i, j)] equal to [a_i * b_j]. *)
Definition outer (a b : column) : matrix := (λ x, rmul x <$> b) <$> a.

(** ** [cov_data]: the running sums *)

Module cov_data.

Record t : Type := mk {
  data_ : column;
  data2_ : matrix;
  count_ : Z
}.

Definition size (d : t) : nat := length (data_ d).

Definition reset (d : t) : t :=
  {| data_ := vfill rzero (data_ d);
     data2_ := mfill rzero (data2_ d);
     count_ := 0 |}.

(** The object before the body of the constructor runs: [data_(size)] and
    [data2_(size, size)] are allocated and their coefficients not
    initialised, and [count_] has no initialiser.  [junk] and [junk_count]
    are what the memory happens to hold. *)
Definition allocate (size : nat) (junk : real) (junk_count : Z) : t :=
  {| data_ := replicate size junk;
     data2_ := replicate size (replicate size junk);
     count_ := junk_count |}.

(** [cov_data(size)]: the allocation, then [reset()].  The memory is taken
    to hold non-finite coefficients and the largest count; [reset()]
    overwrites all of it. *)
Definition new (size : nat) : t :=
  reset (allocate size NonFinite (size_t_modulus - 1)).

Definition convert_to_mean (d : t) : t :=
  let data1 := vdiv (data_ d) (of_size_t (count_ d)) in
  let data2a :=
    msub (data2_ d) (mscale (of_size_t (count_ d)) (outer data1 data1)) in
  let data2b := mdiv data2a (of_size_t (size_t_sub (count_ d) 1)) in
  {| data_ := data1; data2_ := data2b; count_ := count_ d |}.

Definition convert_to_sum (d : t) : t :=
  let data2a := mscale (of_size_t (size_t_sub (count_ d) 1)) (data2_ d) in
  let data2b :=
    madd data2a (mscale (of_size_t (count_ d)) (outer (data_ d) (data_ d))) in
  let data1 := vscale (of_size_t (count_ d)) (data_ d) in
  {| data_ := data1; data2_ := data2b; count_ := count_ d |}.

(** The shape the constructor establishes: [data2_] is square of the
    dimension of [data_], and the count is a [size_t]. *)
Definition wf (d : t) : Prop :=
  length (data2_ d) = length (data_ d)
  ∧ Forall (λ r, length r = length (data_ d)) (data2_ d)
  ∧ is_size_t (count_ d).

End cov_data.

(** ** Exceptions and outcomes *)

(** The exceptions the code throws, and [out_of_range] for the level lookup.
    Their declarations (alps/alea/core.hpp) are not among the sources; only
    their identity matters here.  [eigen_assertion] is no exception: it
    stands for the assertion by which Eigen refuses an operation on vectors
    of different dimensions, which ends the program. *)
Inductive exn : Type :=
| finalized_accumulator
| size_mismatch
| out_of_range
| eigen_assertion.

(** The outcome of a method on an object of state [S]: it returns [ret] and
    leaves the state [st], or throws [e] and leaves the state [st] that the
    object has at the point of the [throw]. *)
Inductive outcome (S A : Type) : Type :=
| Ok (st : S) (ret : A)
| Throw (e : exn) (st : S).
Arguments Ok {S A} st ret.
Arguments Throw {S A} e st.

Definition bind {S A B} (m : outcome S A) (f : S → A → outcome S B) : outcome S B :=
  match m with
  | Ok s a => f s a
  | Throw e s => Throw e s
  end.

Notation "m >>> f" := (bind m f) (at level 61, left associativity).

(** Objects with a [valid()] member. *)
Class HasValid (Obj : Type) := valid : Obj → bool.

(** [internal::check_valid] of internal/util.hpp. *)
Definition check_valid {Obj : Type} `{!HasValid Obj} (acc : Obj) : outcome Obj unit :=
  if negb (valid acc) then Throw finalized_accumulator acc else Ok acc tt.

(** ** [computed<T>]: the input adapters of computed.hpp *)

Module computed.

(** The adapters of computed.hpp.  An [eigen_adapter] wraps an Eigen
    expression that is a vector at compile time, a column or a row; the two
    cases have a constructor each: [eigen_adapter] for a column, whose
    [rows()] is its [size()], and [eigen_row_adapter] for a row, whose
    [rows()] is one.  A [computed_cmember] holds the size it reports and the
    adder of its parent, a [const] member function that is handed the
    sink. *)
Inductive t : Type :=
| value_adapter (in_ : real)
| vector_adapter (in_ : list real)
| eigen_adapter (in_ : column)
| eigen_row_adapter (in_ : list real)
| computed_cmember (size_ : nat) (adder_ : column → outcome column unit).

Definition size (c : t) : nat :=
  match c with
  | value_adapter _ => 1%nat
  | vector_adapter in_ => length in_
  | eigen_adapter in_ => length in_
  | eigen_row_adapter in_ => length in_
  | computed_cmember size_ _ => size_
  end.

(** [in_.rows()] of the Eigen adapters. *)
Definition rows (column_vector : bool) (in_ : list real) : nat :=
  if column_vector then length in_ else 1%nat.

(** The size [add_to] compares [out.size()] with, when it makes the
    comparison: [computed_cmember::add_to] makes none. *)
Definition checked_size (c : t) : option nat :=
  match c with
  | value_adapter _ => Some 1%nat
  | vector_adapter in_ => Some (length in_)
  | eigen_adapter in_ => Some (rows true in_)
  | eigen_row_adapter in_ => Some (rows false in_)
  | computed_cmember _ _ => None
  end.

(** The adapters that stand for a column of [size()] coefficients: a
    scalar, a [std::vector], an Eigen column vector. *)
Definition column_like (c : t) : bool :=
  match c with
  | value_adapter _ | vector_adapter _ | eigen_adapter _ => true
  | eigen_row_adapter _ | computed_cmember _ _ => false
  end.

(** The coefficients an adapter holds; a [computed_cmember] holds none, its
    adder supplies them. *)
Definition values (c : t) : list real :=
  match c with
  | value_adapter in_ => [in_]
  | vector_adapter in_ => in_
  | eigen_adapter in_ => in_
  | eigen_row_adapter in_ => in_
  | computed_cmember _ _ => []
  end.

(** [out.data()[i] += x] *)
Definition add_at (i : nat) (x : real) (out : column) : column :=
  alter (λ y, radd y x) i out.

(** The loop of [vector_adapter::add_to], [i] running over the indices of
    [in_]. *)
Definition add_loop (in_ : list real) (out : column) : column :=
  foldl (λ o i, match in_ !! i with Some x => add_at i x o | None => o end)
        out (seq 0 (length in_)).

(** [out_map += in_] of [eigen_adapter::add_to], [out_map] being the column
    of the [out.size()] coefficients of [out].  What Eigen does is not in
    the sources: it adds a vector of the same number of coefficients, a row
    being transposed, and for another number its assertion on the dimensions
    fails; a build without assertions leaves that case undefined, and the
    model follows the build with them.  After [add_to]'s test a column
    always has the number of coefficients of [out]. *)
Definition add_eigen (in_ : list real) (out : column) : outcome column unit :=
  if decide (length in_ = length out) then Ok (vadd out in_) tt
  else Throw eigen_assertion out.

(** A sink is a pointer and a size: whatever is written through it, the
    buffer keeps its size.  [written] is what a writer leaves. *)
Definition write_back (out written : column) : column :=
  take (length out) (written ++ drop (length written) out).

Definition add_to (c : t) (out : column) : outcome column unit :=
  match c with
  | value_adapter in_ =>
      if decide (length out ≠ 1%nat) then Throw size_mismatch out
      else Ok (add_at 0 in_ out) tt
  | vector_adapter in_ =>
      if decide (length out ≠ length in_) then Throw size_mismatch out
      else Ok (add_loop in_ out) tt
  | eigen_adapter in_ =>
      if decide (length out ≠ rows true in_) then Throw size_mismatch out
      else add_eigen in_ out
  | eigen_row_adapter in_ =>
      if decide (length out ≠ rows false in_) then Throw size_mismatch out
      else add_eigen in_ out
  | computed_cmember _ adder_ =>
      (* (parent_.*adder_)(out) *)
      match adder_ out with
      | Ok written r => Ok (write_back out written) r
      | Throw e written => Throw e (write_back out written)
      end
  end.

End computed.

(** ** [bundle]: the partial sum of the current batch *)

(** The class [bundle] (alps/alea/bundle.hpp) is not among the sources; the
    code uses its members [sum()], [count()], [size()], [is_full()] and
    [reset()]. *)
Module bundle.

(** Modelled from the spec: the bundle buffer of bundle.hpp, the partial sum
    of the raw samples of the batch under way, with their number and the
    batch size aimed at. *)
Record t : Type := mk {
  sum_ : column;
  target_ : Z;
  count_ : Z
}.

(** Modelled from the spec: [bundle::reset] of bundle.hpp empties the
    buffer, zero sum and no sample, and keeps the batch size. *)
Definition reset (b : t) : t :=
  {| sum_ := vfill rzero (sum_ b); target_ := target_ b; count_ := 0 |}.

(** Modelled from the spec: the constructor [bundle(size, target)] of
    bundle.hpp gives an empty buffer of [size] coefficients. *)
Definition new (size : nat) (target : Z) : t :=
  reset {| sum_ := replicate size rzero; target_ := target; count_ := 0 |}.

(** Modelled from the spec: [bundle::is_full] of bundle.hpp; the bundle is
    complete once the number of samples reaches the batch size. *)
Definition is_full (b : t) : bool := bool_decide (target_ b ≤ count_ b).

(** Modelled from the spec: [bundle::size] of bundle.hpp, the number of
    coefficients of the sum. *)
Definition size (b : t) : nat := length (sum_ b).

End bundle.

(** ** [cov_result] *)

Module cov_result.

(** [store_] is a [std::unique_ptr<cov_data>]: either null or the sole
    owner of its data, hence an optional value. *)
Record t : Type := mk { store_ : option cov_data.t }.

(** Modelled from the spec: the default constructor of covariance.hpp, which
    is not among the sources, leaves [store_] null; [finalize_to] resets the
    store of its argument in any case. *)
Definition default : t := {| store_ := None |}.

(** Modelled from the spec: [cov_result(const cov_data &)] of covariance.hpp;
    the result owns a copy of the data. *)
Definition of_data (d : cov_data.t) : t := {| store_ := Some d |}.

(** Modelled from the spec: [valid()] of covariance.hpp; a result is valid
    until its storage is released. *)
#[global] Instance has_valid : HasValid t := λ r, bool_decide (is_Some (store_ r)).

End cov_result.

(** ** [cov_acc] *)

Module cov_acc.

(** [store_] is a [std::unique_ptr<cov_data>], [uplevel_] a pointer to the
    accumulator of the next coarser level, or null.  The chain of levels
    is modelled as owned by the finest one: a sample forwarded upwards
    returns the updated coarser accumulator. *)
#[local] Unset Elimination Schemes.
Inductive t : Type :=
| mk (store_ : option cov_data.t) (current_ : bundle.t) (uplevel_ : option t).
#[local] Set Elimination Schemes.

Definition store_ (a : t) : option cov_data.t := let 'mk s _ _ := a in s.
Definition current_ (a : t) : bundle.t := let 'mk _ c _ := a in c.
Definition uplevel_ (a : t) : option t := let 'mk _ _ u := a in u.

(** [cov_acc(size, bundle_size)] *)
Definition new (size : nat) (bundle_size : Z) : t :=
  mk (Some (cov_data.new size)) (bundle.new size bundle_size) None.

(** Modelled from the spec: [valid()] of covariance.hpp, which is not among
    the sources; the accumulator is valid while it owns its storage. *)
#[global] Instance has_valid : HasValid t := λ a, bool_decide (is_Some (store_ a)).

(** Modelled from the spec: [size()] of covariance.hpp.  The size is fixed
    at construction and [reset()] reads it when the store is null, so it is
    the size of the bundle. *)
Definition size (a : t) : nat := bundle.size (current_ a).

(** Modelled from the spec: [count()] of covariance.hpp, the count of the
    store; there is none when the store is null. *)
Definition count (a : t) : option Z := cov_data.count_ <$> store_ a.

(** [reset()]: no check of validity; a null store is replaced by a new
    one. *)
Definition reset (a : t) : t :=
  (* current_.reset() *)
  let a1 := mk (store_ a) (bundle.reset (current_ a)) (uplevel_ a) in
  if valid a1 then
    mk (cov_data.reset <$> store_ a1) (current_ a1) (uplevel_ a1)
  else
    mk (Some (cov_data.new (size a1))) (current_ a1) (uplevel_ a1).

(** The body of [add_bundle]; [forward] is [operator<<] of the next level,
    which receives the mean of the completed bundle through an
    [eigen_adapter]. *)
Definition add_bundle_with (forward : t → computed.t → outcome t unit)
    (a : t) : outcome t unit :=
  let cur := current_ a in
  (* current_.sum() /= current_.count() *)
  let sum1 := vdiv (bundle.sum_ cur) (of_size_t (bundle.count_ cur)) in
  let cur1 := {| bundle.sum_ := sum1;
                 bundle.target_ := bundle.target_ cur;
                 bundle.count_ := bundle.count_ cur |} in
  (* store_->data() += sum; store_->data2() += outer(sum, sum);
     store_->count() += 1 *)
  let add_batch (d : cov_data.t) :=
    {| cov_data.data_ := vadd (cov_data.data_ d) sum1;
       cov_data.data2_ := madd (cov_data.data2_ d) (outer sum1 sum1);
       cov_data.count_ := size_t_add (cov_data.count_ d) 1 |} in
  let store1 := add_batch <$> store_ a in
  (* the batch mean goes to uplevel_ when there is one; then
     current_.reset(), which an exception from the uplevel skips *)
  match uplevel_ a with
  | None => Ok (mk store1 (bundle.reset cur1) None) tt
  | Some up =>
      match forward up (computed.eigen_adapter sum1) with
      | Ok up1 _ => Ok (mk store1 (bundle.reset cur1) (Some up1)) tt
      | Throw e up1 => Throw e (mk store1 cur1 (Some up1))
      end
  end.

(** [operator<<(const computed<T> &)] *)
Fixpoint shl (a : t) (source : computed.t) {struct a} : outcome t unit :=
  match check_valid a with
  | Throw e s => Throw e s
  | Ok _ _ =>
    (* source.add_to(sink(current_.sum().data(), current_.size())) *)
    match computed.add_to source (bundle.sum_ (current_ a)) with
    | Throw e sum1 =>
      Throw e (mk (store_ a)
                 {| bundle.sum_ := sum1;
                    bundle.target_ := bundle.target_ (current_ a);
                    bundle.count_ := bundle.count_ (current_ a) |}
                 (uplevel_ a))
    | Ok sum1 _ =>
      (* ++current_.count() *)
      let cur1 := {| bundle.sum_ := sum1;
                     bundle.target_ := bundle.target_ (current_ a);
                     bundle.count_ := size_t_add (bundle.count_ (current_ a)) 1 |} in
      let a1 := mk (store_ a) cur1 (uplevel_ a) in
      if bundle.is_full (current_ a1) then add_bundle_with shl a1
      else Ok a1 tt
    end
  end.

Definition add_bundle : t → outcome t unit := add_bundle_with shl.

(** [result() const]: the result is built from a copy of the store and
    converted; the state returned is that of the accumulator. *)
Definition result (a : t) : outcome t cov_result.t :=
  check_valid a >>> λ a _,
  (* cov_result result( *store_ ) *)
  let result := {| cov_result.store_ := store_ a |} in
  (* result.store_->convert_to_mean() *)
  let result :=
    {| cov_result.store_ := cov_data.convert_to_mean <$> cov_result.store_ result |} in
  Ok a result.

(** [finalize_to(result)]: the state is the accumulator and the result
    passed by reference. *)
Definition finalize_to (a : t) (result : cov_result.t)
    : outcome (t * cov_result.t) unit :=
  match check_valid a with
  | Throw e s => Throw e (s, result)
  | Ok _ _ =>
    (* result.store_.reset() *)
    let result0 := {| cov_result.store_ := None |} in
    (* result.store_.swap(store_) *)
    let result1 := {| cov_result.store_ := store_ a |} in
    let a1 := mk (cov_result.store_ result0) (current_ a) (uplevel_ a) in
    (* result.store_->convert_to_mean() *)
    let result2 :=
      {| cov_result.store_ := cov_data.convert_to_mean <$> cov_result.store_ result1 |} in
    Ok (a1, result2) tt
  end.

Definition finalize (a : t) : outcome t cov_result.t :=
  let result := cov_result.default in
  match finalize_to a result with
  | Ok (a, result) _ => Ok a result
  | Throw e (a, _) => Throw e a
  end.

End cov_acc.

(** ** The MPI reducer and the reduction of results *)

(** Modelled from the spec: [reducer_setup] of core.hpp, which is not among
    the sources; [get_setup] fills it with the rank, the number of ranks and
    whether this rank holds the result. *)
Record reducer_setup : Type := {
  pos : nat;
  count : nat;
  have_result : bool
}.

Module mpi_reducer.

(** The reducer of one process: its rank in the communicator, the size of
    the communicator and the root. *)
Record t : Type := mk {
  comm_rank : nat;
  comm_size : nat;
  root_ : nat
}.

Definition am_root (r : t) : bool := bool_decide (comm_rank r = root_ r).

Definition get_setup (r : t) : reducer_setup :=
  {| pos := comm_rank r; count := comm_size r; have_result := am_root r |}.

(** [MPI_SUM] over the send buffers of all ranks, coefficient by
    coefficient. *)
Definition mpi_sum {T} (add : T → T → T) (bufs : list (list T)) : list T :=
  match bufs with
  | [] => []
  | b :: bs => foldl (zip_with add) b bs
  end.

(** [inplace_reduce] as the collective it is: [bufs] holds the buffer
    [data] of every rank, in rank order, and all ranks make the call.  Each
    rank returns at once on empty data; otherwise [MPI_Reduce] leaves the
    sum in the buffer of the root and the other buffers as they were.  The
    buffers have the same length on all ranks, as MPI demands. *)
Definition reduce_buffer {T} (add : T → T → T) (size root : nat)
    (bufs : list (list T)) (rank : nat) (data : list T) : list T :=
  if decide (length data = 0%nat) then data
  else if am_root (mk rank size root) then mpi_sum add bufs
  else data.

Definition inplace_reduce {T} (add : T → T → T) (size root : nat)
    (bufs : list (list T)) : list (list T) :=
  imap (reduce_buffer add size root bufs) bufs.

(** [commit() const { }] *)
Definition commit {W : Type} (w : W) : W := w.

End mpi_reducer.

Module reduction.

Import cov_data.

Definition set_data (d : cov_data.t) (x : column) : cov_data.t :=
  {| data_ := x; data2_ := data2_ d; count_ := count_ d |}.
Definition set_data2 (d : cov_data.t) (x : matrix) : cov_data.t :=
  {| data_ := data_ d; data2_ := x; count_ := count_ d |}.
Definition set_count (d : cov_data.t) (x : list Z) : cov_data.t :=
  {| data_ := data_ d; data2_ := data2_ d; count_ := default (count_ d) (head x) |}.

(** The [pre_commit] block of [cov_result::reduce], run by all ranks: each
    converts its store to sums, then the three buffers are reduced one
    after the other.  The matrix buffer is reduced row by row, and the
    count as a buffer of one [size_t]. *)
Definition pre_commit_phase (root : nat) (ds : list cov_data.t) : list cov_data.t :=
  let size := length ds in
  let ds := convert_to_sum <$> ds in
  let ds := zip_with set_data ds
              (mpi_reducer.inplace_reduce radd size root (data_ <$> ds)) in
  let ds := zip_with set_data2 ds
              (mpi_reducer.inplace_reduce vadd size root (data2_ <$> ds)) in
  let ds := zip_with set_count ds
              (mpi_reducer.inplace_reduce size_t_add size root ((λ d, [count_ d]) <$> ds)) in
  ds.

(** The [post_commit] block: the rank that has the result converts the
    sums to mean form, the others free their store. *)
Definition post_commit_phase (root : nat) (ds : list cov_data.t) : list cov_result.t :=
  imap (λ rank d,
          let setup := mpi_reducer.get_setup (mpi_reducer.mk rank (length ds) root) in
          if have_result setup
          then {| cov_result.store_ := Some (convert_to_mean d) |}
          else {| cov_result.store_ := None |}) ds.

(** What has become of the call of one rank: it has returned, it has thrown,
    or it is inside [MPI_Reduce], a collective that the ranks which threw
    never enter and that therefore does not complete as MPI specifies.  Each
    carries the result the rank holds. *)
Inductive rank_outcome : Type :=
| rank_returned (r : cov_result.t)
| rank_threw (e : exn) (r : cov_result.t)
| rank_in_collective (r : cov_result.t).

Definition rank_result (o : rank_outcome) : cov_result.t :=
  match o with
  | rank_returned r | rank_threw _ r | rank_in_collective r => r
  end.

(** [cov_result::reduce] on one rank of a world in which the result of some
    rank is invalid.  Every rank checks its own result and nothing else: an
    invalid one throws; a valid one goes on, converts its store to sums and
    enters the first collective when [pre_commit] is set, and runs the
    [post_commit] block on the store it has otherwise. *)
Definition reduce_alone (root nranks : nat) (pre_commit post_commit : bool)
    (rank : nat) (r : cov_result.t) : rank_outcome :=
  match cov_result.store_ r with
  | None => rank_threw finalized_accumulator r
  | Some d =>
      if pre_commit
      then rank_in_collective {| cov_result.store_ := Some (convert_to_sum d) |}
      else if post_commit then
        let setup := mpi_reducer.get_setup (mpi_reducer.mk rank nranks root) in
        if have_result setup
        then rank_returned {| cov_result.store_ := Some (convert_to_mean d) |}
        else rank_returned {| cov_result.store_ := None |}
      else rank_returned r
  end.

(** [cov_result::reduce(r, pre_commit, post_commit)] with an
    [mpi_reducer], called by all ranks of the communicator; the world is the
    list of their results in rank order.  When all results are valid every
    rank returns; [Throw] says that some rank threw, and gives the results
    the ranks are left with. *)
Definition reduce (root : nat) (pre_commit post_commit : bool)
    (w : list cov_result.t) : outcome (list cov_result.t) unit :=
  if negb (forallb valid w)
  then Throw finalized_accumulator
         (imap (λ rank r,
                  rank_result (reduce_alone root (length w) pre_commit post_commit rank r))
               w)
  else
    let ds := omap cov_result.store_ w in
    let ds := if pre_commit then pre_commit_phase root ds else ds in
    let ds := if pre_commit && post_commit then mpi_reducer.commit ds else ds in
    let w := if post_commit then post_commit_phase root ds
             else cov_result.of_data <$> ds in
    Ok w tt.


End reduction.

(** ** [autocorr_result]: the levels of the binning analysis *)

Module autocorr_result.

(** Modelled from the spec: [var_result] (alps/alea/variance.hpp) is not
    among the sources; the result of a level holds its sample count, its
    mean and its bias-corrected variance. *)
Record level_result_type : Type := {
  level_count : Z;
  level_mean : column;
  level_var : column
}.

Record t : Type := mk { level_ : list level_result_type }.

Definition default_min_samples : Z := 256.

#[global] Instance has_valid : HasValid t := λ r, negb (bool_decide (level_ r = [])).

Definition nlevel (r : t) : nat := length (level_ r).

Definition level (r : t) (i : nat) : option level_result_type := level_ r !! i.

(** The levels [i - 1], [i - 2], ..., [0] in turn. *)
Fixpoint scan_down (r : t) (min_samples : Z) (i : nat) : exn + nat :=
  match i with
  | O => inl out_of_range
  | S i' =>
      match level r i' with
      | Some l =>
          if decide (min_samples ≤ level_count l) then inr i'
          else scan_down r min_samples i'
      | None => scan_down r min_samples i'
      end
  end.

(** Modelled from the spec: [find_level] is declared in autocorr.hpp and
    defined in autocorr.cpp, which is not among the sources.  A linear
    scan of the sample counts from the coarsest level down to the finest,
    which returns the first level with at least [min_samples] samples and
    fails with [out_of_range] when there is none. *)
Definition find_level (r : t) (min_samples : Z) : exn + nat :=
  scan_down r min_samples (nlevel r).

(** Modelled from the spec: [tau()] and [stderror()] (autocorr.cpp) choose
    their level with the default threshold. *)
Definition default_level (r : t) : exn + nat := find_level r default_min_samples.

(** Level [i] exists and holds at least [min_samples] samples. *)
Definition qualifies (r : t) (min_samples : Z) (i : nat) : Prop :=
  ∃ l, level r i = Some l ∧ min_samples ≤ level_count l.

End autocorr_result.

(** ** Sample states *)

Module examples.

Definition q (z : Z) : real := Finite (Qc_of_Z z).

Definition state_of {S A} (o : outcome S A) : S :=
  match o with Ok s _ => s | Throw _ s => s end.

(** A scalar accumulator with bundles of one sample; the same after the
    sample 5, and after the samples 5 and 7. *)
Definition acc_empty : cov_acc.t := cov_acc.new 1 1.
Definition acc_one : cov_acc.t :=
  state_of (cov_acc.shl acc_empty (computed.value_adapter (q 5))).
Definition acc_two : cov_acc.t :=
  state_of (cov_acc.shl acc_one (computed.value_adapter (q 7))).

(** The sums of the samples 5 and 7. *)
Definition sums : cov_data.t :=
  {| cov_data.data_ := [q 12]; cov_data.data2_ := [[q 74]]; cov_data.count_ := 2 |}.

(** Two stores in mean form, of two and of three samples. *)
Definition local_a : cov_data.t :=
  {| cov_data.data_ := [q 6]; cov_data.data2_ := [[q 2]]; cov_data.count_ := 2 |}.
Definition local_b : cov_data.t :=
  {| cov_data.data_ := [q 1]; cov_data.data2_ := [[q 1]]; cov_data.count_ := 3 |}.

(** An accumulator that has lost its store. *)
Definition acc_finalized : cov_acc.t := cov_acc.mk None (bundle.new 1 1) None.

(** Levels with 4 and 2 samples. *)
Definition two_levels : autocorr_result.t :=
  autocorr_result.mk
    [ {| autocorr_result.level_count := 4;
         autocorr_result.level_mean := [q 4];
         autocorr_result.level_var := [q 20] |};
      {| autocorr_result.level_count := 2;
         autocorr_result.level_mean := [q 4];
         autocorr_result.level_var := [q 8] |} ].

End examples.

(** ** Loops of callers, and the shape an accumulator keeps *)

(** The shape the constructor of [cov_acc] establishes: the store, when
    there is one, has the shape [cov_data] gives it and the size of the
    bundle. *)
Definition cov_acc_shaped (a : cov_acc.t) : Prop :=
  ∀ d, cov_acc.store_ a = Some d →
    cov_data.wf d ∧ cov_data.size d = cov_acc.size a.

(** The loop [for (x : xs) acc << x] of a caller; an exception ends it. *)
Fixpoint feed (a : cov_acc.t) (xs : list computed.t) : outcome cov_acc.t unit :=
  match xs with
  | [] => Ok a tt
  | x :: xs => cov_acc.shl a x >>> λ a1 _, feed a1 xs
  end.

(** Sums of columns and of matrices, from given initial sums. *)
Definition vsum (init : list real) (vs : list (list real)) : list real :=
  foldl vadd init vs.
Definition msum (init : list (list real)) (ms : list (list (list real)))
    : list (list real) :=
  foldl madd init ms.

(** A square matrix of dimension [n]. *)
Definition square (n : nat) (m : list (list real)) : Prop :=
  length m = n ∧ Forall (λ r, length r = n) m.

(** The store a stream of samples leaves behind with bundles of one. *)
Definition stream_sums (n : nat) (xs : list computed.t) : cov_data.t :=
  {| cov_data.data_ := vsum (replicate n rzero) (computed.values <$> xs);
     cov_data.data2_ :=
       msum (replicate n (replicate n rzero))
         ((λ x, outer (computed.values x) (computed.values x)) <$> xs);
     cov_data.count_ := Z.of_nat (length xs) |}.

(** The coefficient-wise sum of the stores of all ranks, counts in [size_t]. *)
Definition sum_stores (ds : list cov_data.t) : cov_data.t :=
  {| cov_data.data_ := mpi_reducer.mpi_sum radd (cov_data.data_ <$> ds);
     cov_data.data2_ := mpi_reducer.mpi_sum vadd (cov_data.data2_ <$> ds);
     cov_data.count_ := size_t_wrap (foldr Z.add 0 (cov_data.count_ <$> ds)) |}.

(** ** Path segments and paths of the HDF5 archive (hdf5.hpp) *)

#[global] Instance ascii_eq_dec : EqDecision ascii := ascii_dec.

Module hdf5.

(** The exceptions the string functions let escape. *)
Inductive error : Type :=
| std_out_of_range
| bad_lexical_cast.

(** The result of a loop run with a bound on its iterations. *)
Inductive run (A : Type) : Type :=
| Done (a : A)
| Raise (e : error)
| OutOfFuel.
Arguments Done {A} a.
Arguments Raise {A} e.
Arguments OutOfFuel {A}.

(** [std::string::npos] *)
Definition npos : Z := size_t_modulus - 1.

(** [r.find_first_of(c, pos)]: the first position from [pos] on that holds
    [c], or [npos]. *)
Definition find_first_of (r : list ascii) (c : ascii) (pos : Z) : Z :=
  match list_find (λ x, x = c) (drop (Z.to_nat pos) r) with
  | Some (i, _) => pos + Z.of_nat i
  | None => npos
  end.

(** [r.find_last_of(c)]: the last position that holds [c], or [npos]. *)
Definition find_last_of (r : list ascii) (c : ascii) : Z :=
  match list_find (λ x, x = c) (reverse r) with
  | Some (i, _) => Z.of_nat (length r) - 1 - Z.of_nat i
  | None => npos
  end.

(** [r.substr(pos, n)]: throws [std::out_of_range] when [pos > size()],
    else the [min(n, size() - pos)] characters from [pos] on. *)
Definition substr (r : list ascii) (pos n : Z) : option (list ascii) :=
  if decide (Z.of_nat (length r) < pos) then None
  else Some (take (Z.to_nat (Z.min n (Z.of_nat (length r) - pos)))
                  (drop (Z.to_nat pos) r)).

(** The value of a [char] as an [int], and [static_cast<char>] of an
    [int]. *)
Definition int_of_char (c : ascii) : Z := Z.of_N (N_of_ascii c).
Definition char_of_int (z : Z) : ascii := ascii_of_N (Z.to_N (z mod 256)).

Section archive.

(** [boost::lexical_cast<std::string, int>] and [boost::lexical_cast<int>],
    the latter with [None] for [bad_lexical_cast]. *)
Variable lexical_cast_string : Z → list ascii.
Variable lexical_cast_int : list ascii → option Z.

(** The body of the inner loop of [encode_segment]. *)
Definition encode_step (c : ascii) (r : list ascii) (pos : Z) : option (list ascii) :=
  substr r 0 pos ≫= λ before,
  substr r (size_t_add pos 1) npos ≫= λ after,
  Some (before ++ ["&"; "#"]%char ++ lexical_cast_string (int_of_char c)
               ++ [";"]%char ++ after).

(** The inner loop of [encode_segment], entered with [pos] the first
    position found. *)
Fixpoint encode_loop (fuel : nat) (c : ascii) (r : list ascii) (pos : Z)
    : run (list ascii) :=
  if decide (pos < npos) then
    match fuel with
    | O => OutOfFuel
    | S fuel =>
        match encode_step c r pos with
        | None => Raise std_out_of_range
        | Some r1 => encode_loop fuel c r1 (find_first_of r1 c (size_t_add pos 1))
        end
    end
  else Done r.

(** The loop over [chars]. *)
Fixpoint encode_chars (fuel : nat) (chars : list ascii) (r : list ascii)
    : run (list ascii) :=
  match chars with
  | [] => Done r
  | c :: chars =>
      match encode_loop fuel c r (find_first_of r c 0) with
      | Done r1 => encode_chars fuel chars r1
      | Raise e => Raise e
      | OutOfFuel => OutOfFuel
      end
  end.

(** [archive::encode_segment]; every inner loop may run [fuel] times. *)
Definition encode_segment (fuel : nat) (s : list ascii) : run (list ascii) :=
  encode_chars fuel ["&"; "/"]%char s.

(** The body of the loop of [decode_segment]. *)
Definition decode_step (r : list ascii) (pos : Z) : error + list ascii :=
  let semi := find_first_of r ";"%char pos in
  match substr r 0 pos with
  | None => inl std_out_of_range
  | Some before =>
    match substr r (size_t_add pos 2) (size_t_sub (size_t_sub semi pos) 2) with
    | None => inl std_out_of_range
    | Some digits =>
      match lexical_cast_int digits with
      | None => inl bad_lexical_cast
      | Some code =>
        match substr r (size_t_add semi 1) npos with
        | None => inl std_out_of_range
        | Some after => inr (before ++ [char_of_int code] ++ after)
        end
      end
    end
  end.

Fixpoint decode_loop (fuel : nat) (r : list ascii) (pos : Z) : run (list ascii) :=
  if decide (pos < npos) then
    match fuel with
    | O => OutOfFuel
    | S fuel =>
        match decode_step r pos with
        | inl e => Raise e
        | inr r1 => decode_loop fuel r1 (find_first_of r1 "&"%char (size_t_add pos 1))
        end
    end
  else Done r.

(** [archive::decode_segment]; the loop may run [fuel] times. *)
Definition decode_segment (fuel : nat) (s : list ascii) : run (list ascii) :=
  decode_loop fuel s (find_first_of s "&"%char 0).

End archive.

(** The separator both return statements of [complete_path] put between the
    two parts: [(s.size() == 1 || !rest.size() ? "" : "/")]. *)
Definition separator (s rest : list ascii) : list ascii :=
  if bool_decide (length s = 1%nat) || bool_decide (length rest = 0%nat)
  then [] else ["/"]%char.

Definition dotdot : list ascii := ["."; "."]%char.

(** The loop of [complete_path]: [s.size() && p.substr(i, 2) == ".."] is
    tested, then the last component of [s] is cut off and [i] moves on by
    three.  It ends with the values of [s] and [i]. *)
Fixpoint complete_path_loop (fuel : nat) (p s : list ascii) (i : Z)
    : run (list ascii * Z) :=
  if bool_decide (length s = 0%nat) then Done (s, i)
  else
    match substr p i 2 with
    | None => Raise std_out_of_range
    | Some two =>
        if bool_decide (two = dotdot) then
          match fuel with
          | O => OutOfFuel
          | S fuel =>
              match substr s 0 (find_last_of s "/"%char) with
              | None => Raise std_out_of_range
              | Some s1 => complete_path_loop fuel p s1 (size_t_add i 3)
              end
          end
        else Done (s, i)
    end.

(** [archive::complete_path] with [_context] as an argument. *)
Definition complete_path (fuel : nat) (_context p : list ascii) : run (list ascii) :=
  if bool_decide (head p = Some "/"%char) then Done p
  else if bool_decide (length p < 2)%nat
          || negb (bool_decide (substr p 0 2 = Some dotdot))
  then Done (_context ++ separator _context p ++ p)
  else
    match complete_path_loop fuel p _context 0 with
    | Done (s, i) =>
        match substr p i npos with
        | None => Raise std_out_of_range
        | Some rest => Done (s ++ separator s rest ++ rest)
        end
    | Raise e => Raise e
    | OutOfFuel => OutOfFuel
    end.

(** The text one pass of [encode_segment] puts in place of [c], and the
    pass on one character. *)
Definition escape (str : Z → list ascii) (c : ascii) : list ascii :=
  ["&"; "#"]%char ++ str (int_of_char c) ++ [";"]%char.
Definition replace_char (c : ascii) (by_ : list ascii) (x : ascii) : list ascii :=
  if decide (x = c) then by_ else [x].

(** A context made of components: [/a/b/c]. *)
Definition path_of (segments : list (list ascii)) : list ascii :=
  concat ((λ name, "/"%char :: name) <$> segments).

(** [k] times [../]. *)
Definition up (k : nat) : list ascii :=
  concat (replicate k ["."; "."; "/"]%char).

(** *** The elements of an array given by a pointer and its extents *)

(** Conversion to [int] of a value that does not fit wraps around. *)
Definition int_wrap (z : Z) : Z := (z + 2 ^ 31) mod 2 ^ 32 - 2 ^ 31.

(** [std::accumulate(first, last, 1, std::multiplies<std::size_t>())]: the
    initial value [1] is an [int], so the accumulator is one; each product is
    computed in [std::size_t] and converted back. *)
Definition accumulate_int (l : list Z) : Z :=
  foldl (λ acc x, int_wrap (size_t_wrap (size_t_wrap acc * x))) 1 l.

(** The position of the element with indices [start] in an array of extents
    [size], as the loop over [start] computes it; [i] is the index of the
    head of [start]. *)
Fixpoint position_from (size : list Z) (i : nat) (start : list Z) (pos : Z) : Z :=
  match start with
  | [] => pos
  | s :: start =>
      position_from size (S i) start
        (size_t_add pos
           (size_t_wrap (s * size_t_wrap (accumulate_int (drop (S i) size)))))
  end.
Definition position (size start : list Z) : Z := position_from size 0 start 0.

(** [for (pos = last; ++start[pos] == size[pos] && pos; --pos);] from the
    value [pos] on; it ends with [start] and [pos]. *)
Fixpoint carry (size start : list Z) (pos : nat) : list Z * nat :=
  let start := <[pos := size_t_add (start !!! pos) 1]> start in
  if bool_decide (start !!! pos = size !!! pos) && bool_decide (pos ≠ 0%nat) then
    match pos with
    | S pos' => carry size start pos'
    | O => (start, pos)
    end
  else (start, pos).

(** [for (; pos <= last; ++pos) start[pos] = 0;] *)
Definition clear_from (start : list Z) (pos last : nat) : list Z :=
  foldl (λ st j, <[j := 0]> st) start (seq pos (S last - pos)).

(** The step of the loops of [serialize] for an array given by a pointer
    and its extents: the indices [start] move on to the next element. *)
Definition advance (size start : list Z) : list Z :=
  let last := (length start - 1)%nat in
  if bool_decide (size_t_add (start !!! last) 1 = size !!! last)
     && bool_decide (last ≠ 0%nat)
  then let '(start, pos) := carry size start last in clear_from start (S pos) last
  else <[last := size_t_add (start !!! last) 1]> start.

(** The [do ... while (start[0] < size[0])] loop of [serialize]: the
    elements it hands to [call_serialize], each with the indices that make
    its path and with its position in the array. *)
Fixpoint serialize_loop (fuel : nat) (size start : list Z)
    : option (list (list Z * Z)) :=
  match fuel with
  | O => None
  | S fuel =>
      let pos := position size start in
      let start' := advance size start in
      if bool_decide (start' !!! 0%nat < size !!! 0%nat)
      then ((start, pos) ::.) <$> serialize_loop fuel size start'
      else Some [(start, pos)]
  end.

Definition serialize_elements (fuel : nat) (size : list Z)
    : option (list (list Z * Z)) :=
  serialize_loop fuel size (replicate (length size) 0).

(** The product of the extents, the indices within the extents, and the
    row-major position of an element. *)
Definition product (l : list Z) : Z := foldr Z.mul 1 l.
Definition in_extents (size start : list Z) : Prop :=
  Forall2 (λ d s, 0 ≤ s < d) size start.
Fixpoint row_major (size start : list Z) : Z :=
  match size, start with
  | _ :: size, s :: start => s * product size + row_major size start
  | _, _ => 0
  end.

(** What [encode_segment] writes for a character. *)
Definition amp_escape : list ascii := ["&"; "#"; "3"; "8"; ";"]%char.
Definition slash_escape : list ascii := ["&"; "#"; "4"; "7"; ";"]%char.
Definition encode_char (c : ascii) : list ascii :=
  if decide (c = "&"%char) then amp_escape
  else if decide (c = "/"%char) then slash_escape
  else [c].

End hdf5.

(** ** Further sample states and texts *)

Module further_examples.

(** The samples 5 and 7, and the result of an accumulator that was fed
    them. *)
Definition samples : list computed.t :=
  [computed.value_adapter (examples.q 5); computed.value_adapter (examples.q 7)].
Definition stream_result : cov_result.t :=
  match feed (cov_acc.new 1 1) samples >>> λ a _, cov_acc.result a with
  | Ok _ r => r
  | Throw _ _ => {| cov_result.store_ := None |}
  end.

(** An accumulator whose next level has been finalized. *)
Definition acc_blocked : cov_acc.t :=
  cov_acc.mk (Some (cov_data.new 1)) (bundle.new 1 1) (Some examples.acc_finalized).

(** A decimal printer and reader to stand for the lexical casts. *)
Definition digit_char (d : Z) : ascii := ascii_of_N (Z.to_N (48 + d)).

Fixpoint decimal_digits (fuel : nat) (z : Z) (acc : list ascii) : list ascii :=
  match fuel with
  | O => acc
  | S fuel =>
      let acc := digit_char (z mod 10) :: acc in
      if decide (z / 10 = 0) then acc else decimal_digits fuel (z / 10) acc
  end.

Definition decimal_string (z : Z) : list ascii :=
  if decide (z < 0) then "-"%char :: decimal_digits 10 (- z) []
  else decimal_digits 10 z [].

Definition digit_value (c : ascii) : option Z :=
  let n := hdf5.int_of_char c in
  if decide (48 ≤ n ≤ 57) then Some (n - 48) else None.

Definition decimal_int (l : list ascii) : option Z :=
  match l with
  | [] => None
  | _ => foldl (λ acc c, acc ≫= λ a, digit_value c ≫= λ d, Some (10 * a + d))
               (Some 0) l
  end.

(** The segment [a/b&c] and the plain segment [data]. *)
Definition segment : list ascii := ["a"; "/"; "b"; "&"; "c"]%char.
Definition plain : list ascii := ["d"; "a"; "t"; "a"]%char.

(** The components of the context [/simulation/results], and a relative
    path [mean]. *)
Definition components : list (list ascii) :=
  [ ["s"; "i"; "m"; "u"; "l"; "a"; "t"; "i"; "o"; "n"]%char;
    ["r"; "e"; "s"; "u"; "l"; "t"; "s"]%char ].
Definition mean : list ascii := ["m"; "e"; "a"; "n"]%char.

End further_examples.

(** ** Scalar lemmas *)

Lemma of_size_t_nonzero n : n ≠ 0 → of_size_t n ≠ 0%Qc.
Proof.
  intros Hn Heq. apply Hn.
  apply (f_equal this) in Heq. cbn in Heq.
  unfold inject_Z in Heq. by inversion Heq.
Qed.

Lemma size_t_sub_small a b : 0 ≤ b ≤ a → a < size_t_modulus → size_t_sub a b = a - b.
Proof. intros. unfold size_t_sub, size_t_wrap. apply Z.mod_small. lia. Qed.

Lemma of_size_t_pred n : of_size_t (n - 1) = (of_size_t n - 1)%Qc.
Proof. unfold of_size_t. by rewrite Z2Qc_inj_sub, Z2Qc_inj_1. Qed.

Lemma rdiv_finite a c : c ≠ 0%Qc → rdiv (Finite a) c = Finite (a / c).
Proof. intros Hc. unfold rdiv. by destruct (decide _). Qed.

Lemma rdiv_zero x : rdiv x 0%Qc = NonFinite.
Proof. by destruct x. Qed.

Lemma rdiv_is_finite x c : c ≠ 0%Qc → is_finite (rdiv x c) = is_finite x.
Proof. intros Hc. destruct x; [|done]. by rewrite rdiv_finite. Qed.

Lemma rsub_radd_cancel q o c :
  c ≠ 0%Qc → is_finite o = true → radd (rscale c (rdiv (rsub q o) c)) o = q.
Proof.
  intros Hc Ho. destruct o as [b|]; [|done]. destruct q as [a|]; [|done].
  unfold rsub. cbn [lift2]. rewrite rdiv_finite by done. cbn. f_equal. by field.
Qed.

(** ** Shapes and coefficients *)

Lemma length_vfill x v : length (vfill x v) = length v.
Proof. apply length_fmap. Qed.

Lemma length_vdiv v c : length (vdiv v c) = length v.
Proof. apply length_fmap. Qed.

Lemma length_outer a b : length (outer a b) = length a.
Proof. apply length_fmap. Qed.

Lemma outer_rows a b : Forall (λ r, length r = length b) (outer a b).
Proof. unfold outer. apply Forall_fmap, Forall_true. intros x. cbn. apply length_fmap. Qed.

Lemma coeff_fmap (f : real → real) (m : list (list real)) i j :
  coeff (fmap (M:=list) f <$> m) i j = f <$> coeff m i j.
Proof.
  unfold coeff. rewrite list_lookup_fmap.
  destruct (m !! i) as [r|]; [|done]. cbn. apply list_lookup_fmap.
Qed.

Lemma coeff_zip_with (f : real → real → real) (m k : list (list real)) i j :
  coeff (zip_with (zip_with f) m k) i j
  = coeff m i j ≫= λ x, coeff k i j ≫= λ y, Some (f x y).
Proof.
  unfold coeff. rewrite lookup_zip_with.
  destruct (m !! i) as [r|]; [|done]. cbn.
  destruct (k !! i) as [r'|]; cbn.
  - apply lookup_zip_with.
  - by destruct (r !! j).
Qed.

Lemma coeff_outer a b i j :
  coeff (outer a b) i j = a !! i ≫= λ x, b !! j ≫= λ y, Some (rmul x y).
Proof.
  unfold coeff, outer. rewrite list_lookup_fmap.
  destruct (a !! i) as [x|]; [|done]. cbn. rewrite list_lookup_fmap.
  by destruct (b !! j).
Qed.

Lemma zip_with_rows {A} (f : A → A → A) (m k : list (list A)) n :
  Forall (λ r, length r = n) m → Forall (λ r, length r = n) k →
  Forall (λ r, length r = n) (zip_with (zip_with f) m k).
Proof.
  intros Hm Hk. apply Forall_lookup. intros i r Hr.
  apply lookup_zip_with_Some in Hr as (x & y & -> & Hx & Hy).
  rewrite length_zip_with.
  rewrite (Forall_lookup_1 _ _ _ _ Hm Hx), (Forall_lookup_1 _ _ _ _ Hk Hy). lia.
Qed.

Lemma fmap_rows {A} (f : A → A) (m : list (list A)) n :
  Forall (λ r, length r = n) m → Forall (λ r, length r = n) (fmap (M:=list) f <$> m).
Proof.
  intros Hm. apply Forall_fmap. eapply Forall_impl; [done|].
  intros r Hr. cbn. by rewrite length_fmap.
Qed.

Lemma convert_to_mean_wf d : cov_data.wf d → cov_data.wf (cov_data.convert_to_mean d).
Proof.
  intros (Hlen & Hrows & Hc). unfold cov_data.wf, cov_data.convert_to_mean. cbn.
  rewrite length_vdiv. split_and!; [| |done].
  - unfold mdiv, msub, mscale. rewrite length_fmap, length_zip_with, length_fmap,
      length_outer, length_vdiv. lia.
  - apply (fmap_rows (λ x, rdiv x _)). apply zip_with_rows; [done|].
    apply (fmap_rows (rscale _)). rewrite <-(length_vdiv _ (of_size_t (cov_data.count_ d))).
    apply outer_rows.
Qed.

Lemma row_roundtrip c (r o : list real) :
  c ≠ 0%Qc → length r = length o → Forall (λ x, is_finite x = true) o →
  vadd (vscale c (vdiv (zip_with rsub r o) c)) o = r.
Proof.
  intros Hc. revert o. induction r as [|x r IH]; intros [|y o] Hlen Ho; try done.
  inversion Ho; subst. cbn in *. f_equal.
  - by apply rsub_radd_cancel.
  - apply IH; [lia|done].
Qed.

Lemma matrix_roundtrip c (m k : list (list real)) :
  c ≠ 0%Qc →
  Forall2 (λ r o, length r = length o ∧ Forall (λ x, is_finite x = true) o) m k →
  madd (mscale c (mdiv (msub m k) c)) k = m.
Proof.
  intros Hc. induction 1 as [|r o m k [Hlen Ho] _ IH]; [done|].
  cbn. f_equal; [|done]. by apply row_roundtrip.
Qed.

Lemma column_roundtrip c (v : list real) : c ≠ 0%Qc → vscale c (vdiv v c) = v.
Proof.
  intros Hc. unfold vscale, vdiv. rewrite <-list_fmap_compose.
  rewrite <-(list_fmap_id v) at 2. apply list_fmap_ext. intros _ x _. cbn.
  destruct x as [a|]; [|done]. rewrite rdiv_finite by done. cbn. f_equal. by field.
Qed.

Lemma scaled_outer_finite c (a : list real) (m : list (list real)) :
  Forall (λ x, is_finite x = true) a →
  length m = length a → Forall (λ r, length r = length a) m →
  Forall2 (λ r o, length r = length o ∧ Forall (λ x, is_finite x = true) o)
          m (mscale c (outer a a)).
Proof.
  intros Ha Hlen Hrows. apply Forall2_same_length_lookup_2.
  - unfold mscale. by rewrite length_fmap, length_outer.
  - intros i r o Hr Ho. unfold mscale, outer in Ho.
    rewrite !list_lookup_fmap in Ho.
    destruct (a !! i) as [x|] eqn:Hx; [|done]. cbn in Ho. injection Ho as <-.
    split.
    + unfold vscale. rewrite !length_fmap. by eapply Forall_lookup_1 in Hrows.
    + unfold vscale. rewrite <-list_fmap_compose. apply Forall_fmap.
      eapply Forall_impl; [exact Ha|]. intros y Hy. cbn.
      eapply Forall_lookup_1 in Ha; [|done]. by destruct x, y.
Qed.

Lemma count_divisors n :
  is_size_t n → 1 < n →
  of_size_t n ≠ 0%Qc
  ∧ of_size_t (size_t_sub n 1) = (of_size_t n - 1)%Qc
  ∧ (of_size_t n - 1)%Qc ≠ 0%Qc.
Proof.
  intros [_ Hn] H1. split; [apply of_size_t_nonzero; lia|].
  rewrite size_t_sub_small by lia. rewrite <-of_size_t_pred.
  split; [done|]. apply of_size_t_nonzero. lia.
Qed.

Lemma wf_coeff_bounds d i j q :
  cov_data.wf d → coeff (cov_data.data2_ d) i j = Some q →
  (i < length (cov_data.data_ d))%nat ∧ (j < length (cov_data.data_ d))%nat.
Proof.
  intros (Hlen & Hrows & _) Hq. unfold coeff in Hq.
  destruct (cov_data.data2_ d !! i) as [r|] eqn:Hr; [|done]. cbn in Hq.
  split.
  - rewrite <-Hlen. by eapply lookup_lt_Some.
  - rewrite <-(Forall_lookup_1 _ _ _ _ Hrows Hr). by eapply lookup_lt_Some.
Qed.

(** ** The conversions between sums and mean form *)

(** C1.  When the count exceeds one, [convert_to_mean] leaves in [data_] the
    sums divided by the count and in [data2_] the bias-corrected covariance
    [(sum of outer products - count * mean ⊗ mean) / (count - 1)], coefficient
    by coefficient; both divisors are non-zero, and on finite sums the result
    is the rational the formula denotes. *)
Theorem convert_to_mean_welford (d : cov_data.t) :
  cov_data.wf d → 1 < cov_data.count_ d →
  let m := cov_data.convert_to_mean d in
  let c := of_size_t (cov_data.count_ d) in
  c ≠ 0%Qc ∧ (c - 1)%Qc ≠ 0%Qc
  ∧ cov_data.count_ m = cov_data.count_ d
  ∧ cov_data.wf m
  ∧ (∀ i s, cov_data.data_ d !! i = Some s →
       cov_data.data_ m !! i = Some (rdiv s c))
  ∧ (∀ i j q, coeff (cov_data.data2_ d) i j = Some q →
       ∃ mi mj, cov_data.data_ m !! i = Some mi ∧ cov_data.data_ m !! j = Some mj
         ∧ coeff (cov_data.data2_ m) i j
           = Some (rdiv (rsub q (rscale c (rmul mi mj))) (c - 1)))
  ∧ (∀ i j si sj q,
       cov_data.data_ d !! i = Some (Finite si) →
       cov_data.data_ d !! j = Some (Finite sj) →
       coeff (cov_data.data2_ d) i j = Some (Finite q) →
       cov_data.data_ m !! i = Some (Finite (si / c))
       ∧ cov_data.data_ m !! j = Some (Finite (sj / c))
       ∧ coeff (cov_data.data2_ m) i j
         = Some (Finite ((q - c * (si / c * (sj / c))) / (c - 1)))).
Proof.
  intros Hwf H1 m c.
  destruct (count_divisors (cov_data.count_ d)) as (Hc & Hsub & Hc1);
    [apply Hwf|done|].
  assert (Hdata : ∀ i s, cov_data.data_ d !! i = Some s →
            cov_data.data_ m !! i = Some (rdiv s c)).
  { intros i s Hs. subst m. cbn. unfold vdiv. by rewrite list_lookup_fmap, Hs. }
  assert (Hcoeff : ∀ i j q mi mj, coeff (cov_data.data2_ d) i j = Some q →
            cov_data.data_ m !! i = Some mi → cov_data.data_ m !! j = Some mj →
            coeff (cov_data.data2_ m) i j
            = Some (rdiv (rsub q (rscale c (rmul mi mj))) (c - 1))).
  { intros i j q mi mj Hq Hi Hj. subst m. cbn in *.
    unfold mdiv, vdiv at 1, msub, mscale, vscale.
    rewrite (coeff_fmap (λ x, rdiv x _)), coeff_zip_with, Hq. cbn.
    rewrite coeff_fmap, coeff_outer, Hi. cbn. rewrite Hj. cbn.
    by rewrite Hsub. }
  split_and!; try done.
  - by apply convert_to_mean_wf.
  - intros i j q Hq.
    destruct (wf_coeff_bounds d i j q Hwf Hq) as [Hi Hj].
    apply lookup_lt_is_Some in Hi as [si Hsi], Hj as [sj Hsj].
    exists (rdiv si c), (rdiv sj c). split_and!; eauto.
  - intros i j si sj q Hsi Hsj Hq.
    pose proof (Hdata _ _ Hsi) as Hmi. pose proof (Hdata _ _ Hsj) as Hmj.
    rewrite rdiv_finite in Hmi, Hmj by done. split_and!; [done..|].
    rewrite (Hcoeff _ _ _ _ _ Hq Hmi Hmj).
    unfold rscale, rmul, rsub. cbn [lift2]. by rewrite rdiv_finite.
Qed.

(** C2.  When the count exceeds one and the sums are finite numbers,
    [convert_to_sum] undoes [convert_to_mean]: the store is again exactly the
    one in sum form, count included. *)
Theorem convert_to_sum_to_mean_roundtrip (d : cov_data.t) :
  cov_data.wf d → 1 < cov_data.count_ d →
  Forall (λ x, is_finite x = true) (cov_data.data_ d) →
  cov_data.convert_to_sum (cov_data.convert_to_mean d) = d.
Proof.
  intros Hwf H1 Hfin.
  destruct (count_divisors (cov_data.count_ d)) as (Hc & Hsub & Hc1);
    [apply Hwf|done|].
  destruct Hwf as (Hlen & Hrows & _). destruct d as [v m n]. cbn in *.
  unfold cov_data.convert_to_sum, cov_data.convert_to_mean. cbn.
  rewrite Hsub. f_equal.
  - by apply column_roundtrip.
  - apply matrix_roundtrip; [done|]. apply scaled_outer_finite.
    + unfold vdiv. apply Forall_fmap. eapply Forall_impl; [exact Hfin|].
      intros x Hx. cbn. by rewrite rdiv_is_finite.
    + by rewrite length_fmap.
    + by rewrite length_fmap.
Qed.

(** ** Validity *)

Ltac simpl_fields :=
  cbn [cov_acc.store_ cov_acc.current_ cov_acc.uplevel_
       bundle.sum_ bundle.target_ bundle.count_
       cov_data.data_ cov_data.data2_ cov_data.count_
       cov_result.store_ fmap option_fmap option_map].

Lemma check_valid_false {Obj : Type} `{!HasValid Obj} (acc : Obj) :
  valid acc = false → check_valid acc = Throw finalized_accumulator acc.
Proof. intros H. unfold check_valid. by rewrite H. Qed.

Lemma check_valid_true {Obj : Type} `{!HasValid Obj} (acc : Obj) :
  valid acc = true → check_valid acc = Ok acc tt.
Proof. intros H. unfold check_valid. by rewrite H. Qed.

Lemma cov_acc_valid_store a :
  valid a = true ↔ ∃ d, cov_acc.store_ a = Some d.
Proof.
  unfold valid, cov_acc.has_valid. rewrite bool_decide_eq_true. done.
Qed.

Lemma cov_acc_invalid_store a :
  valid a = false ↔ cov_acc.store_ a = None.
Proof.
  unfold valid, cov_acc.has_valid. rewrite bool_decide_eq_false.
  rewrite <-eq_None_not_Some. done.
Qed.

Lemma shl_invalid a source :
  valid a = false → cov_acc.shl a source = Throw finalized_accumulator a.
Proof. intros H. destruct a. cbn. by rewrite (check_valid_false _ H). Qed.

Lemma result_invalid a :
  valid a = false → cov_acc.result a = Throw finalized_accumulator a.
Proof. intros H. unfold cov_acc.result. by rewrite (check_valid_false _ H). Qed.

Lemma finalize_to_invalid a res :
  valid a = false → cov_acc.finalize_to a res = Throw finalized_accumulator (a, res).
Proof. intros H. unfold cov_acc.finalize_to. by rewrite (check_valid_false _ H). Qed.

Lemma finalize_invalid a :
  valid a = false → cov_acc.finalize a = Throw finalized_accumulator a.
Proof. intros H. unfold cov_acc.finalize. by rewrite (finalize_to_invalid _ _ H). Qed.

Lemma result_valid a d :
  cov_acc.store_ a = Some d →
  cov_acc.result a
  = Ok a {| cov_result.store_ := Some (cov_data.convert_to_mean d) |}.
Proof.
  intros Hd. unfold cov_acc.result.
  rewrite check_valid_true by (apply cov_acc_valid_store; eauto).
  cbn. by rewrite Hd.
Qed.

Lemma finalize_valid a d :
  cov_acc.store_ a = Some d →
  cov_acc.finalize a
  = Ok (cov_acc.mk None (cov_acc.current_ a) (cov_acc.uplevel_ a))
       {| cov_result.store_ := Some (cov_data.convert_to_mean d) |}.
Proof.
  intros Hd. unfold cov_acc.finalize, cov_acc.finalize_to.
  rewrite check_valid_true by (apply cov_acc_valid_store; eauto).
  cbn. by rewrite Hd.
Qed.

(** ** Extraction of the variance *)

(** C3, amended.  [result()] and [finalize()] are guarded by validity alone:
    on a valid accumulator both return, whatever the count, the store
    converted by [convert_to_mean], whose divisions are executed as they
    stand.  With a count of zero every coefficient of the mean is the
    non-finite quotient by zero, with a count of one every coefficient of the
    covariance is; only with a larger count are both divisors different from
    zero. *)
Theorem variance_extraction_unguarded (a : cov_acc.t) (d : cov_data.t) :
  cov_acc.store_ a = Some d →
  let m := cov_data.convert_to_mean d in
  cov_acc.result a = Ok a {| cov_result.store_ := Some m |}
  ∧ cov_acc.finalize a
    = Ok (cov_acc.mk None (cov_acc.current_ a) (cov_acc.uplevel_ a))
         {| cov_result.store_ := Some m |}
  ∧ (cov_data.count_ d = 0 →
       of_size_t (cov_data.count_ d) = 0%Qc
       ∧ Forall (λ x, x = NonFinite) (cov_data.data_ m))
  ∧ (cov_data.count_ d = 1 →
       of_size_t (size_t_sub (cov_data.count_ d) 1) = 0%Qc
       ∧ Forall (Forall (λ x, x = NonFinite)) (cov_data.data2_ m))
  ∧ (1 < cov_data.count_ d → is_size_t (cov_data.count_ d) →
       of_size_t (cov_data.count_ d) ≠ 0%Qc
       ∧ of_size_t (size_t_sub (cov_data.count_ d) 1) ≠ 0%Qc).
Proof.
  intros Hd m. split_and!.
  - by apply result_valid.
  - by apply finalize_valid.
  - intros H0. rewrite H0. split; [apply Z2Qc_inj_0|]. subst m. cbn. rewrite H0.
    unfold vdiv. apply Forall_fmap, Forall_true. intros x. cbn.
    unfold of_size_t. rewrite Z2Qc_inj_0. apply rdiv_zero.
  - intros H1. rewrite H1.
    assert (of_size_t (size_t_sub 1 1) = 0%Qc) as Hz by apply Z2Qc_inj_0.
    split; [done|]. subst m. cbn. rewrite H1, Hz.
    unfold mdiv, vdiv. apply Forall_fmap, Forall_true. intros r. cbn.
    apply Forall_fmap, Forall_true. intros x. cbn. apply rdiv_zero.
  - intros H1 Hsz.
    destruct (count_divisors _ Hsz H1) as (Hc & Hsub & Hc1).
    split; [done|]. by rewrite Hsub.
Qed.

(** ** After [finalize()] *)

(** C6.  Once [finalize()] has returned, the covariance accumulator is
    invalid, and [operator<<], [result()], [finalize()] and [finalize_to()]
    all throw [finalized_accumulator] and leave it as it is. *)
Theorem finalized_accumulator_rejects (a a' : cov_acc.t) (r : cov_result.t) :
  cov_acc.finalize a = Ok a' r →
  valid a' = false
  ∧ check_valid a' = Throw finalized_accumulator a'
  ∧ (∀ source, cov_acc.shl a' source = Throw finalized_accumulator a')
  ∧ cov_acc.result a' = Throw finalized_accumulator a'
  ∧ cov_acc.finalize a' = Throw finalized_accumulator a'
  ∧ (∀ res, cov_acc.finalize_to a' res = Throw finalized_accumulator (a', res)).
Proof.
  intros Hfin.
  assert (valid a' = false) as Hinv.
  { destruct (valid a) eqn:Hv.
    - apply cov_acc_valid_store in Hv as [d Hd].
      rewrite (finalize_valid _ _ Hd) in Hfin. injection Hfin as <- _.
      by apply cov_acc_invalid_store.
    - by rewrite (finalize_invalid _ Hv) in Hfin. }
  split_and!; [done|..].
  - by apply check_valid_false.
  - intros source. by apply shl_invalid.
  - by apply result_invalid.
  - by apply finalize_invalid.
  - intros res. by apply finalize_to_invalid.
Qed.

(** ** [result()] is a snapshot *)

(** C9.  On a valid accumulator [result()] returns the store converted to
    mean form and leaves the accumulator as it was, store, pending bundle
    and validity included; a sample added afterwards has the effect it would
    have had without the call. *)
Theorem result_is_snapshot (a : cov_acc.t) :
  valid a = true →
  ∃ r, cov_acc.result a = Ok a r
    ∧ cov_result.store_ r = cov_data.convert_to_mean <$> cov_acc.store_ a
    ∧ valid r = true
    ∧ (∀ source,
         (cov_acc.result a >>> λ a1 _, cov_acc.shl a1 source) = cov_acc.shl a source)
    ∧ (cov_acc.result a >>> λ a1 _, cov_acc.result a1) = cov_acc.result a.
Proof.
  intros Hv. apply cov_acc_valid_store in Hv as [d Hd].
  eexists. split; [by apply result_valid|].
  rewrite (result_valid _ _ Hd), Hd. cbn. split_and!; try done.
  by rewrite (result_valid _ _ Hd).
Qed.

(** ** [reset()] *)

(** The constructor leaves zeros whatever the memory held: they are the
    work of [reset()]. *)
Lemma reset_allocate_zero n junk junk_count :
  cov_data.reset (cov_data.allocate n junk junk_count)
  = {| cov_data.data_ := replicate n rzero;
       cov_data.data2_ := replicate n (replicate n rzero);
       cov_data.count_ := 0 |}.
Proof.
  unfold cov_data.reset, cov_data.allocate, mfill, vfill. cbn.
  by rewrite !fmap_replicate.
Qed.

Lemma cov_data_new_zero n :
  cov_data.new n
  = {| cov_data.data_ := replicate n rzero;
       cov_data.data2_ := replicate n (replicate n rzero);
       cov_data.count_ := 0 |}.
Proof. apply reset_allocate_zero. Qed.

(** C10.  [reset()] of an invalid accumulator does not throw: it gives the
    accumulator a new store of its size, filled with zeros and with count
    zero, and an empty bundle; the accumulator is valid again.  The zeros
    are those [cov_data::reset] writes over the memory the constructor of
    the store allocates, whatever that memory held. *)
Theorem reset_revives_finalized (a : cov_acc.t) :
  valid a = false →
  let a' := cov_acc.reset a in
  let n := cov_acc.size a in
  valid a' = true
  ∧ cov_acc.size a' = n
  ∧ cov_acc.count a' = Some 0
  ∧ cov_acc.store_ a'
    = Some {| cov_data.data_ := replicate n rzero;
              cov_data.data2_ := replicate n (replicate n rzero);
              cov_data.count_ := 0 |}
  ∧ (∀ junk junk_count,
       cov_acc.store_ a'
       = Some (cov_data.reset (cov_data.allocate n junk junk_count)))
  ∧ cov_acc.current_ a'
    = {| bundle.sum_ := replicate n rzero;
         bundle.target_ := bundle.target_ (cov_acc.current_ a);
         bundle.count_ := 0 |}
  ∧ cov_acc.uplevel_ a' = cov_acc.uplevel_ a.
Proof.
  intros Hinv a' n.
  assert (Ha' : a' = cov_acc.mk (Some (cov_data.new n))
                       (bundle.reset (cov_acc.current_ a)) (cov_acc.uplevel_ a)).
  { subst a'. unfold cov_acc.reset.
    apply cov_acc_invalid_store in Hinv.
    replace (valid _) with false.
    - cbn. unfold cov_acc.size, bundle.size. cbn. by rewrite length_vfill.
    - symmetry. by apply cov_acc_invalid_store. }
  rewrite Ha'. cbn. split_and!; try done.
  - unfold cov_acc.size, bundle.size. cbn. by rewrite ?length_vfill, ?length_fmap.
  - by rewrite cov_data_new_zero.
  - intros junk junk_count. by rewrite cov_data_new_zero, reset_allocate_zero.
  - unfold bundle.reset. f_equal. unfold vfill.
    apply list_eq. intros i. rewrite list_lookup_fmap.
    destruct (decide (i < n)%nat) as [Hi|Hi].
    + rewrite lookup_replicate_2 by done.
      unfold n, cov_acc.size, bundle.size in Hi.
      by apply lookup_lt_is_Some in Hi as [x ->].
    + rewrite (proj1 (lookup_replicate_None _ _ _)) by lia.
      unfold n, cov_acc.size, bundle.size in Hi.
      by rewrite lookup_ge_None_2 by lia.
Qed.

(** ** Adding a sample *)

Lemma add_loop_lookup (in_ out : list real) (n j : nat) :
  (n ≤ length in_)%nat →
  foldl (λ o i, match in_ !! i with
                | Some x => computed.add_at i x o
                | None => o
                end) out (seq 0 n) !! j
  = if decide (j < n)%nat
    then out !! j ≫= λ y, in_ !! j ≫= λ x, Some (radd y x)
    else out !! j.
Proof.
  induction n as [|n IH]; intros Hn; [done|].
  rewrite seq_S, foldl_app. cbn [foldl Nat.add].
  apply lookup_lt_is_Some_2 in Hn as Hx. destruct Hx as [x Hx]. rewrite Hx.
  unfold computed.add_at at 1. destruct (decide (j = n)) as [->|Hne].
  - rewrite list_lookup_alter_eq, IH by lia.
    rewrite decide_False by lia. rewrite decide_True by lia.
    rewrite Hx. by destruct (out !! n).
  - rewrite list_lookup_alter_ne by done. rewrite IH by lia.
    destruct (decide (j < n)%nat).
    + by rewrite decide_True by lia.
    + by rewrite decide_False by lia.
Qed.

Lemma add_loop_vadd (in_ out : list real) :
  length out = length in_ → computed.add_loop in_ out = vadd out in_.
Proof.
  intros Hlen. apply list_eq. intros j. unfold computed.add_loop, vadd.
  rewrite add_loop_lookup by done. rewrite lookup_zip_with.
  destruct (decide (j < length in_)%nat) as [|Hj]; [done|].
  rewrite (lookup_ge_None_2 out) by lia. done.
Qed.

Lemma add_to_spec (source : computed.t) (out : list real) :
  computed.column_like source = true →
  computed.add_to source out
  = if decide (length out = computed.size source)
    then Ok (vadd out (computed.values source)) tt
    else Throw size_mismatch out.
Proof.
  intros Hcol. destruct source as [x|v|v|v|n f]; try done; cbn.
  - destruct (decide (length out ≠ 1%nat)) as [Hne|He].
    + by rewrite decide_False.
    + apply dec_stable in He. rewrite decide_True by done.
      destruct out as [|y [|??]]; done.
  - destruct (decide (length out ≠ length v)) as [Hne|He].
    + by rewrite decide_False.
    + apply dec_stable in He. rewrite decide_True by done.
      by rewrite add_loop_vadd.
  - destruct (decide (length out ≠ length v)) as [Hne|He].
    + by rewrite decide_False.
    + apply dec_stable in He. rewrite decide_True by done.
      unfold computed.add_eigen. by rewrite decide_True.
Qed.

Lemma length_write_back (out written : list real) :
  length (computed.write_back out written) = length out.
Proof.
  unfold computed.write_back. rewrite length_take, length_app, length_drop. lia.
Qed.

(** Whatever the adapter, [add_to] leaves a buffer of the size it found. *)
Lemma add_to_length (source : computed.t) (out : list real) :
  match computed.add_to source out with
  | Ok out' _ => length out' = length out
  | Throw _ out' => length out' = length out
  end.
Proof.
  destruct source as [x|v|v|v|n f]; cbn.
  - destruct (decide _); [done|]. unfold computed.add_at. by rewrite length_alter.
  - destruct (decide _) as [|He]; [done|]. apply dec_stable in He.
    rewrite add_loop_vadd by done. unfold vadd. rewrite length_zip_with. lia.
  - destruct (decide _) as [|He]; [done|]. unfold computed.add_eigen.
    destruct (decide _); [|done]. unfold vadd. rewrite length_zip_with. lia.
  - destruct (decide _) as [|He]; [done|]. unfold computed.add_eigen.
    destruct (decide _); [|done]. unfold vadd. rewrite length_zip_with. lia.
  - destruct (f out); apply length_write_back.
Qed.

(** The only throw of an adapter that checks a size and passes the check is
    Eigen's; [size_mismatch] is thrown before anything is written. *)
Lemma add_to_size_mismatch (source : computed.t) (out : list real) (k : nat) :
  computed.checked_size source = Some k →
  (length out ≠ k → computed.add_to source out = Throw size_mismatch out)
  ∧ (length out = k → ∀ s, computed.add_to source out ≠ Throw size_mismatch s).
Proof.
  intros Hk. destruct source as [x|v|v|v|n f]; cbn in Hk; try done;
    injection Hk as <-; cbn; split; intros Hlen.
  all: try (by rewrite decide_True by done).
  all: intros s; rewrite decide_False by (intros ?; done); try done.
  all: unfold computed.add_eigen; by destruct (decide _).
Qed.

Lemma cov_acc_eta (a : cov_acc.t) :
  cov_acc.mk (cov_acc.store_ a)
    {| bundle.sum_ := bundle.sum_ (cov_acc.current_ a);
       bundle.target_ := bundle.target_ (cov_acc.current_ a);
       bundle.count_ := bundle.count_ (cov_acc.current_ a) |}
    (cov_acc.uplevel_ a) = a.
Proof. by destruct a as [s [] u]. Qed.

Lemma shl_unfold (a : cov_acc.t) (source : computed.t) :
  cov_acc.shl a source
  = match check_valid a with
    | Throw e s => Throw e s
    | Ok _ _ =>
      match computed.add_to source (bundle.sum_ (cov_acc.current_ a)) with
      | Throw e sum1 =>
        Throw e (cov_acc.mk (cov_acc.store_ a)
                   {| bundle.sum_ := sum1;
                      bundle.target_ := bundle.target_ (cov_acc.current_ a);
                      bundle.count_ := bundle.count_ (cov_acc.current_ a) |}
                   (cov_acc.uplevel_ a))
      | Ok sum1 _ =>
        let a1 :=
          cov_acc.mk (cov_acc.store_ a)
            {| bundle.sum_ := sum1;
               bundle.target_ := bundle.target_ (cov_acc.current_ a);
               bundle.count_ := size_t_add (bundle.count_ (cov_acc.current_ a)) 1 |}
            (cov_acc.uplevel_ a) in
        if bundle.is_full (cov_acc.current_ a1) then cov_acc.add_bundle a1
        else Ok a1 tt
      end
    end.
Proof. by destruct a. Qed.

Lemma vadd_zero_l (v : list real) n :
  length v = n → vadd (replicate n rzero) v = v.
Proof.
  intros <-. induction v as [|x v IH]; [done|]. cbn. f_equal; [|done].
  destruct x; [|done]. cbn. f_equal. by ring.
Qed.

Lemma vdiv_one (v : list real) : vdiv v (of_size_t 1) = v.
Proof.
  unfold vdiv. rewrite <-(list_fmap_id v) at 2. apply list_fmap_ext.
  intros _ x _. unfold of_size_t. rewrite Z2Qc_inj_1.
  destruct x as [q|]; [|done]. rewrite rdiv_finite by done. cbn. f_equal. by field.
Qed.

Lemma vfill_replicate x (v : list real) : vfill x v = replicate (length v) x.
Proof. induction v as [|y v IH]; [done|]. cbn. by f_equal. Qed.




(** ** Level lookup *)

Section find_level.

Import autocorr_result.

Variable r : autocorr_result.t.
Variable min_samples : Z.

Local Abbreviation qualifies := (autocorr_result.qualifies r min_samples).

Lemma scan_down_found n i :
  scan_down r min_samples n = inr i ↔
    (i < n)%nat ∧ qualifies i ∧ ∀ j, (i < j < n)%nat → ¬ qualifies j.
Proof.
  induction n as [|n IH]; cbn.
  - split; [done|]. intros [? _]. lia.
  - destruct (level r n) as [l|] eqn:Hl.
    + destruct (decide (min_samples ≤ level_count l)) as [Hge|Hlt].
      * split.
        -- intros [= <-]. split_and!; [lia|by exists l|]. intros j ?. lia.
        -- intros (Hi & Hq & Hnone).
           destruct (decide (i = n)) as [->|Hne]; [done|].
           destruct (Hnone n); [lia|by exists l].
      * rewrite IH. split.
        -- intros (Hi & Hq & Hnone). split_and!; [lia|done|].
           intros j Hj. destruct (decide (j = n)) as [->|Hne].
           ++ intros (l' & Hl' & Hge). rewrite Hl in Hl'. by injection Hl' as <-.
           ++ apply Hnone. lia.
        -- intros (Hi & Hq & Hnone).
           assert (i ≠ n).
           { intros ->. destruct Hq as (l' & Hl' & Hge). rewrite Hl in Hl'.
             by injection Hl' as <-. }
           split_and!; [lia|done|]. intros j Hj. apply Hnone. lia.
    + rewrite IH. split.
      * intros (Hi & Hq & Hnone). split_and!; [lia|done|].
        intros j Hj. destruct (decide (j = n)) as [->|Hne].
        -- intros (l' & Hl' & _). by rewrite Hl in Hl'.
        -- apply Hnone. lia.
      * intros (Hi & Hq & Hnone).
        assert (i ≠ n).
        { intros ->. destruct Hq as (l' & Hl' & _). by rewrite Hl in Hl'. }
        split_and!; [lia|done|]. intros j Hj. apply Hnone. lia.
Qed.

Lemma scan_down_error n e :
  scan_down r min_samples n = inl e ↔
    e = out_of_range ∧ ∀ j, (j < n)%nat → ¬ qualifies j.
Proof.
  induction n as [|n IH]; cbn.
  - split; [intros [= <-]; split; [done|lia]|by intros [-> _]].
  - destruct (level r n) as [l|] eqn:Hl.
    + destruct (decide (min_samples ≤ level_count l)) as [Hge|Hlt].
      * split; [done|]. intros [_ Hnone]. destruct (Hnone n); [lia|by exists l].
      * rewrite IH. split; intros [-> Hnone]; (split; [done|]).
        -- intros j Hj. destruct (decide (j = n)) as [->|Hne]; [|apply Hnone; lia].
           intros (l' & Hl' & Hge). rewrite Hl in Hl'. by injection Hl' as <-.
        -- intros j Hj. apply Hnone. lia.
    + rewrite IH. split; intros [-> Hnone]; (split; [done|]).
      * intros j Hj. destruct (decide (j = n)) as [->|Hne]; [|apply Hnone; lia].
        intros (l' & Hl' & _). by rewrite Hl in Hl'.
      * intros j Hj. apply Hnone. lia.
Qed.

Lemma qualifies_lt_nlevel i : qualifies i → (i < nlevel r)%nat.
Proof. intros (l & Hl & _). by eapply lookup_lt_Some. Qed.

End find_level.

(** C8.  [find_level(min_samples)] returns the index of the coarsest level
    that holds at least [min_samples] samples: that level qualifies and no
    coarser one does.  It fails exactly when no level qualifies, and then
    with [out_of_range].  The threshold [tau()] and [stderror()] use by
    default is 256. *)
Theorem find_level_coarsest (r : autocorr_result.t) (min_samples : Z) :
  (∀ i, autocorr_result.find_level r min_samples = inr i ↔
     autocorr_result.qualifies r min_samples i
     ∧ ∀ j, (i < j)%nat → ¬ autocorr_result.qualifies r min_samples j)
  ∧ (autocorr_result.find_level r min_samples = inl out_of_range ↔
     ∀ j, ¬ autocorr_result.qualifies r min_samples j)
  ∧ (∀ e, autocorr_result.find_level r min_samples = inl e → e = out_of_range)
  ∧ autocorr_result.default_min_samples = 256
  ∧ autocorr_result.default_level r = autocorr_result.find_level r 256.
Proof.
  unfold autocorr_result.find_level. split_and!.
  - intros i. rewrite scan_down_found. split.
    + intros (_ & Hq & Hnone). split; [done|]. intros j Hj Hqj.
      apply (Hnone j); [|done]. split; [done|]. by eapply qualifies_lt_nlevel.
    + intros (Hq & Hnone). split_and!; [by eapply qualifies_lt_nlevel|done|].
      intros j [Hj _]. by apply Hnone.
  - rewrite scan_down_error. split.
    + intros [_ Hnone] j Hq. apply (Hnone j); [|done]. by eapply qualifies_lt_nlevel.
    + intros Hnone. split; [done|]. intros j _. apply Hnone.
  - intros e He. by apply scan_down_error in He as [-> _].
  - done.
  - done.
Qed.

(** ** The reduction *)

Lemma fmap_zip_with_preserved {A B C} (g : A → C) (f : A → B → A) l k :
  (∀ x y, g (f x y) = g x) → length l = length k →
  g <$> zip_with f l k = g <$> l.
Proof.
  intros Hg. revert k. induction l as [|x l IH]; intros [|y k] Hlen; try done.
  cbn in *. f_equal; [done|]. apply IH. lia.
Qed.

Lemma length_inplace_reduce {T} (add : T → T → T) size root bufs :
  length (mpi_reducer.inplace_reduce add size root bufs) = length bufs.
Proof. apply length_imap. Qed.

Lemma lookup_inplace_reduce {T} (add : T → T → T) size root bufs i :
  mpi_reducer.inplace_reduce add size root bufs !! i
  = mpi_reducer.reduce_buffer add size root bufs i <$> bufs !! i.
Proof. apply list_lookup_imap. Qed.

Lemma reduce_buffer_root {T} (add : T → T → T) size root bufs data :
  length data ≠ 0%nat →
  mpi_reducer.reduce_buffer add size root bufs root data = mpi_reducer.mpi_sum add bufs.
Proof.
  intros Hne. unfold mpi_reducer.reduce_buffer, mpi_reducer.am_root. cbn.
  rewrite decide_False by done. by rewrite bool_decide_eq_true_2.
Qed.

Lemma reduce_buffer_other {T} (add : T → T → T) size root bufs rank data :
  rank ≠ root →
  mpi_reducer.reduce_buffer add size root bufs rank data = data.
Proof.
  intros Hne. unfold mpi_reducer.reduce_buffer, mpi_reducer.am_root. cbn.
  destruct (decide _); [done|]. by rewrite bool_decide_eq_false_2.
Qed.

Lemma pre_commit_phase_lookup root ds i d :
  ds !! i = Some d →
  let S := cov_data.convert_to_sum <$> ds in
  let s := cov_data.convert_to_sum d in
  let n := length ds in
  reduction.pre_commit_phase root ds !! i
  = Some
      {| cov_data.data_ :=
           mpi_reducer.reduce_buffer radd n root (cov_data.data_ <$> S) i
             (cov_data.data_ s);
         cov_data.data2_ :=
           mpi_reducer.reduce_buffer vadd n root (cov_data.data2_ <$> S) i
             (cov_data.data2_ s);
         cov_data.count_ :=
           default (cov_data.count_ s)
             (head (mpi_reducer.reduce_buffer size_t_add n root
                      ((λ e, [cov_data.count_ e]) <$> S) i [cov_data.count_ s])) |}.
Proof.
  intros Hd S s n. unfold reduction.pre_commit_phase. fold S n.
  set (A := zip_with reduction.set_data S _).
  assert (HlenA : length A = length S).
  { unfold A. rewrite length_zip_with, length_inplace_reduce, length_fmap. lia. }
  assert (HA2 : cov_data.data2_ <$> A = cov_data.data2_ <$> S).
  { unfold A. apply fmap_zip_with_preserved; [done|].
    by rewrite length_inplace_reduce, length_fmap. }
  assert (HAc : (λ e, [cov_data.count_ e]) <$> A = (λ e, [cov_data.count_ e]) <$> S).
  { unfold A. apply fmap_zip_with_preserved; [done|].
    by rewrite length_inplace_reduce, length_fmap. }
  rewrite HA2.
  set (B := zip_with reduction.set_data2 A _).
  assert (HBc : (λ e, [cov_data.count_ e]) <$> B = (λ e, [cov_data.count_ e]) <$> S).
  { unfold B. rewrite <-HAc. apply fmap_zip_with_preserved; [done|].
    by rewrite length_inplace_reduce, length_fmap. }
  rewrite HBc.
  assert (HS : S !! i = Some s).
  { unfold S. by rewrite list_lookup_fmap, Hd. }
  assert (HAi : A !! i = Some (reduction.set_data s
            (mpi_reducer.reduce_buffer radd n root (cov_data.data_ <$> S) i
               (cov_data.data_ s)))).
  { unfold A. rewrite lookup_zip_with, HS. cbn.
    by rewrite lookup_inplace_reduce, list_lookup_fmap, HS. }
  assert (HBi : B !! i = Some (reduction.set_data2
            (reduction.set_data s
               (mpi_reducer.reduce_buffer radd n root (cov_data.data_ <$> S) i
                  (cov_data.data_ s)))
            (mpi_reducer.reduce_buffer vadd n root (cov_data.data2_ <$> S) i
               (cov_data.data2_ s)))).
  { unfold B. rewrite lookup_zip_with, HAi. cbn.
    by rewrite lookup_inplace_reduce, list_lookup_fmap, HS. }
  rewrite lookup_zip_with, HBi. cbn.
  by rewrite lookup_inplace_reduce, list_lookup_fmap, HS.
Qed.

Lemma length_pre_commit_phase root ds :
  length (reduction.pre_commit_phase root ds) = length ds.
Proof.
  unfold reduction.pre_commit_phase.
  rewrite !length_zip_with, !length_inplace_reduce, !length_fmap,
    !length_zip_with, !length_inplace_reduce, !length_fmap,
    !length_zip_with, !length_inplace_reduce, !length_fmap. lia.
Qed.

Lemma foldl_count_buffers (l : list Z) (x : Z) :
  foldl (zip_with size_t_add) [x] ((λ c, [c]) <$> l)
  = [match l with
     | [] => x
     | _ => size_t_wrap (x + foldr Z.add 0 l)
     end].
Proof.
  revert x. induction l as [|c l IH]; intros x; [done|].
  cbn [fmap list_fmap foldl zip_with]. rewrite IH. f_equal.
  destruct l as [|c' l]; cbn [foldr].
  - unfold size_t_add. by rewrite Z.add_0_r.
  - unfold size_t_add, size_t_wrap. rewrite Zplus_mod_idemp_l. f_equal. lia.
Qed.

Lemma mpi_sum_counts (cs : list Z) c0 :
  head cs = Some c0 → is_size_t c0 →
  mpi_reducer.mpi_sum size_t_add ((λ c, [c]) <$> cs)
  = [size_t_wrap (foldr Z.add 0 cs)].
Proof.
  destruct cs as [|c l]; [done|]. intros [= ->] Hc.
  cbn [fmap list_fmap mpi_reducer.mpi_sum]. rewrite foldl_count_buffers. f_equal.
  destruct l; cbn [foldr]; [|done].
  unfold size_t_wrap. rewrite Z.add_0_r. symmetry. by apply Z.mod_small.
Qed.

Lemma count_buffers_of_sums (ds : list cov_data.t) :
  (λ e, [cov_data.count_ e]) <$> (cov_data.convert_to_sum <$> ds)
  = (λ c, [c]) <$> (cov_data.count_ <$> ds).
Proof. rewrite <-!list_fmap_compose. by apply list_fmap_ext. Qed.

Lemma length_convert_to_sum_data2 d :
  cov_data.wf d →
  length (cov_data.data2_ (cov_data.convert_to_sum d)) = length (cov_data.data_ d).
Proof.
  intros (Hlen & _). cbn. unfold madd, mscale.
  rewrite length_zip_with, !length_fmap, length_outer. lia.
Qed.

(** C5, amended.  With the MPI reducer the pre-commit block of [reduce]
    converts every store to sums and each [reduce] call at once leaves the
    sum over all ranks in the buffer of the root: after the block, and before
    [commit], the root holds the global sums of means, outer products and
    counts, and every other rank its local sums.  [commit] changes nothing. *)
Theorem pre_commit_reduces_at_once (root : nat) (ds : list cov_data.t) (d : cov_data.t) :
  Forall cov_data.wf ds → ds !! root = Some d → (0 < cov_data.size d)%nat →
  let S := cov_data.convert_to_sum <$> ds in
  let ds' := reduction.pre_commit_phase root ds in
  ds' !! root
  = Some {| cov_data.data_ := mpi_reducer.mpi_sum radd (cov_data.data_ <$> S);
            cov_data.data2_ := mpi_reducer.mpi_sum vadd (cov_data.data2_ <$> S);
            cov_data.count_ := size_t_wrap (foldr Z.add 0 (cov_data.count_ <$> ds)) |}
  ∧ (∀ i e, i ≠ root → ds !! i = Some e →
       ds' !! i = Some (cov_data.convert_to_sum e))
  ∧ mpi_reducer.commit ds' = ds'
  ∧ reduction.reduce root true false (cov_result.of_data <$> ds)
    = Ok (cov_result.of_data <$> ds') tt.
Proof.
  intros Hwf Hd Hsize S ds'. split_and!.
  - subst ds'. rewrite (pre_commit_phase_lookup _ _ _ _ Hd). fold S.
    pose proof (Forall_lookup_1 _ _ _ _ Hwf Hd) as Hwfd.
    rewrite !reduce_buffer_root.
    + unfold S. rewrite count_buffers_of_sums.
      destruct ds as [|d0 ds0]; [done|].
      rewrite (mpi_sum_counts _ (cov_data.count_ d0)); [done|done|].
      apply (Forall_lookup_1 _ _ 0%nat d0) in Hwf; [apply Hwf|done].
    + done.
    + rewrite length_convert_to_sum_data2 by done. unfold cov_data.size in Hsize. lia.
    + cbn. unfold vscale. rewrite length_fmap. unfold cov_data.size in Hsize. lia.
  - intros i e Hne He. subst ds'. rewrite (pre_commit_phase_lookup _ _ _ _ He).
    rewrite !reduce_buffer_other by done. by destruct e.
  - done.
  - unfold reduction.reduce.
    assert (forallb valid (cov_result.of_data <$> ds) = true) as ->.
    { clear. induction ds as [|e l IH]; [done|]. cbn. by rewrite IH. }
    assert (omap cov_result.store_ (cov_result.of_data <$> ds) = ds) as ->.
    { clear. induction ds as [|e l IH]; [done|]. cbn. by rewrite IH. }
    done.
Qed.

Lemma rscale_succ j x :
  radd (rscale (of_size_t j) x) x = rscale (of_size_t (j + 1)) x.
Proof.
  destruct x as [q|]; [|done]. cbn. f_equal.
  unfold of_size_t. rewrite Z2Qc_inj_add, Z2Qc_inj_1. by ring.
Qed.

Lemma vscale_succ j (v : list real) :
  zip_with radd (vscale (of_size_t j) v) v = vscale (of_size_t (j + 1)) v.
Proof.
  induction v as [|x v IH]; [done|]. cbn [vscale fmap list_fmap zip_with].
  f_equal; [apply rscale_succ|apply IH].
Qed.

Lemma vscale_one (v : list real) : vscale (of_size_t 1) v = v.
Proof.
  unfold vscale. rewrite <-(list_fmap_id v) at 2. apply list_fmap_ext.
  intros _ x _. destruct x as [q|]; [|done]. cbn. f_equal.
  unfold of_size_t. rewrite Z2Qc_inj_1. by ring.
Qed.

Lemma foldl_radd_replicate (k : nat) j (v : list real) :
  foldl (zip_with radd) (vscale (of_size_t j) v) (replicate k v)
  = vscale (of_size_t (j + Z.of_nat k)) v.
Proof.
  revert j. induction k as [|k IH]; intros j.
  - cbn. by rewrite Z.add_0_r.
  - cbn [replicate foldl]. rewrite vscale_succ, IH. do 2 f_equal. lia.
Qed.

Lemma mpi_sum_replicate (k : nat) (v : list real) :
  (0 < k)%nat →
  mpi_reducer.mpi_sum radd (replicate k v) = vscale (of_size_t (Z.of_nat k)) v.
Proof.
  destruct k as [|k]; [lia|]. intros _. cbn [replicate mpi_reducer.mpi_sum].
  rewrite <-(vscale_one v) at 1. rewrite foldl_radd_replicate. do 2 f_equal. lia.
Qed.

Lemma vdiv_vscale_vscale k c (v : list real) :
  k ≠ 0 → c ≠ 0 →
  vdiv (vscale (of_size_t k) (vscale (of_size_t c) v)) (of_size_t (k * c)) = v.
Proof.
  intros Hk Hc. unfold vdiv, vscale. rewrite <-!list_fmap_compose.
  rewrite <-(list_fmap_id v) at 2. apply list_fmap_ext. intros _ x _.
  unfold compose, id. destruct x as [q|]; [|done]. unfold rscale, rmul. cbn [lift2].
  apply of_size_t_nonzero in Hk as Hk', Hc as Hc'.
  assert (of_size_t (k * c) ≠ 0%Qc) as Hkc by (apply of_size_t_nonzero; lia).
  rewrite rdiv_finite by done. f_equal.
  unfold of_size_t in *. rewrite Z2Qc_inj_mul. by field.
Qed.

Lemma sum_replicate_counts (k : nat) d :
  foldr Z.add 0 (cov_data.count_ <$> replicate k d) = Z.of_nat k * cov_data.count_ d.
Proof.
  induction k as [|k IH]; [done|]. cbn [replicate fmap list_fmap foldr].
  rewrite IH. lia.
Qed.

Lemma forallb_valid_replicate (k : nat) d :
  forallb valid (replicate k (cov_result.of_data d)) = true.
Proof. induction k as [|k IH]; [done|]. cbn. by rewrite IH. Qed.

Lemma omap_store_replicate (k : nat) d :
  omap cov_result.store_ (replicate k (cov_result.of_data d)) = replicate k d.
Proof. induction k as [|k IH]; [done|]. cbn. by rewrite IH. Qed.

Lemma post_commit_phase_lookup root ds i :
  reduction.post_commit_phase root ds !! i
  = (λ d, if bool_decide (i = root)
          then {| cov_result.store_ := Some (cov_data.convert_to_mean d) |}
          else {| cov_result.store_ := None |}) <$> ds !! i.
Proof. unfold reduction.post_commit_phase. by rewrite list_lookup_imap. Qed.

(** C4.  Let [k] ranks hold the same result, of positive count, and reduce
    it with the three phases in one call.  Then the call returns on all
    ranks; the result of the root is valid, its count is [k] times the local
    count and its mean is the local mean; the result of every other rank has
    lost its store and is invalid.  The global count is assumed to fit a
    [size_t]. *)
Theorem reduce_identical_results (k root : nat) (d : cov_data.t) :
  (root < k)%nat → 0 < cov_data.count_ d →
  Z.of_nat k * cov_data.count_ d < size_t_modulus →
  ∃ w' g,
    reduction.reduce root true true (replicate k (cov_result.of_data d)) = Ok w' tt
    ∧ length w' = k
    ∧ w' !! root = Some (cov_result.of_data g)
    ∧ valid (cov_result.of_data g) = true
    ∧ cov_data.count_ g = Z.of_nat k * cov_data.count_ d
    ∧ cov_data.data_ g = cov_data.data_ d
    ∧ (∀ i r, i ≠ root → w' !! i = Some r →
         cov_result.store_ r = None ∧ valid r = false).
Proof.
  intros Hroot Hc Hfit.
  set (c := cov_data.count_ d) in *.
  assert (is_size_t c) as Hsz by (unfold is_size_t; nia).
  set (ds := replicate k d).
  set (ds' := reduction.pre_commit_phase root ds).
  assert (Hd : ds !! root = Some d) by by apply lookup_replicate_2.
  assert (Hlen : length ds = k) by apply length_replicate.
  assert (HS : cov_data.convert_to_sum <$> ds = replicate k (cov_data.convert_to_sum d))
    by apply fmap_replicate.
  pose proof (pre_commit_phase_lookup root ds root d Hd) as Hroot'.
  cbv zeta in Hroot'. fold ds' in Hroot'. rewrite Hlen in Hroot'.
  rewrite (reduce_buffer_root size_t_add) in Hroot' by done.
  rewrite count_buffers_of_sums in Hroot'.
  rewrite (mpi_sum_counts _ c) in Hroot'; [|by destruct k; [lia|]|done].
  unfold ds in Hroot', HS. rewrite sum_replicate_counts in Hroot'. fold c in Hroot'.
  cbn [head default] in Hroot'.
  assert (size_t_wrap (Z.of_nat k * c) = Z.of_nat k * c) as Hwrap
    by (apply Z.mod_small; unfold is_size_t in Hsz; nia).
  rewrite Hwrap in Hroot'.
  eexists (reduction.post_commit_phase root ds'), _.
  split_and!.
  - unfold reduction.reduce.
    rewrite forallb_valid_replicate, omap_store_replicate. done.
  - unfold reduction.post_commit_phase. rewrite length_imap.
    unfold ds'. by rewrite length_pre_commit_phase.
  - rewrite post_commit_phase_lookup, Hroot'. cbn [fmap option_fmap option_map].
    rewrite bool_decide_eq_true_2 by done. done.
  - done.
  - done.
  - cbn [cov_data.convert_to_mean cov_data.data_ cov_data.count_].
    unfold mpi_reducer.reduce_buffer.
    destruct (decide (length (cov_data.data_ (cov_data.convert_to_sum d)) = 0%nat))
      as [Hz|Hnz].
    + cbn in Hz. unfold vscale in Hz. rewrite length_fmap in Hz.
      apply nil_length_inv in Hz. cbn. by rewrite Hz.
    + unfold mpi_reducer.am_root. cbn [mpi_reducer.comm_rank mpi_reducer.root_].
      rewrite bool_decide_eq_true_2 by done.
      rewrite HS, fmap_replicate, mpi_sum_replicate by lia.
      cbn [cov_data.convert_to_sum cov_data.data_]. fold c.
      apply vdiv_vscale_vscale; lia.
  - intros i r Hne Hr. rewrite post_commit_phase_lookup in Hr.
    destruct (ds' !! i) as [e|]; [|done]. cbn in Hr.
    rewrite bool_decide_eq_false_2 in Hr by done. by injection Hr as <-.
Qed.

(** ** The statements at sample states *)

Ltac solve_wf :=
  split_and!; [reflexivity|repeat constructor|split; [discriminate|reflexivity]].

Lemma convert_to_mean_welford_witness :
  cov_data.wf examples.sums ∧ 1 < cov_data.count_ examples.sums
  ∧ let c := of_size_t 2 in
    coeff (cov_data.data2_ (cov_data.convert_to_mean examples.sums)) 0 0
    = Some (Finite ((Qc_of_Z 74 - c * (Qc_of_Z 12 / c * (Qc_of_Z 12 / c))) / (c - 1))).
Proof.
  assert (cov_data.wf examples.sums) as Hwf by solve_wf.
  assert (1 < cov_data.count_ examples.sums) as Hc by reflexivity.
  split_and!; [exact Hwf|exact Hc|].
  destruct (convert_to_mean_welford examples.sums Hwf Hc)
    as (_ & _ & _ & _ & _ & _ & H).
  exact (proj2 (proj2 (H 0%nat 0%nat _ _ _ eq_refl eq_refl eq_refl))).
Defined.

Lemma convert_to_sum_to_mean_roundtrip_witness :
  cov_data.wf examples.sums ∧ 1 < cov_data.count_ examples.sums
  ∧ Forall (λ x, is_finite x = true) (cov_data.data_ examples.sums)
  ∧ cov_data.convert_to_sum (cov_data.convert_to_mean examples.sums) = examples.sums.
Proof.
  assert (cov_data.wf examples.sums) as Hwf by solve_wf.
  assert (1 < cov_data.count_ examples.sums) as Hc by reflexivity.
  assert (Forall (λ x, is_finite x = true) (cov_data.data_ examples.sums)) as Hf
    by (repeat constructor).
  split_and!; [exact Hwf|exact Hc|exact Hf|].
  exact (convert_to_sum_to_mean_roundtrip examples.sums Hwf Hc Hf).
Defined.

(** C3 as stated fails: the accumulator that has received one sample is valid
    and has count one, and both [result()] and [finalize()] return on it,
    with the quotient by zero as covariance; the empty accumulator has count
    zero and [result()] returns on it, with the quotient by zero as mean. *)
Lemma variance_extraction_not_guarded :
  cov_acc.shl examples.acc_empty (computed.value_adapter (examples.q 5))
  = Ok examples.acc_one tt
  ∧ valid examples.acc_one = true
  ∧ cov_acc.count examples.acc_one = Some 1
  ∧ of_size_t (size_t_sub 1 1) = 0%Qc
  ∧ (∃ r, cov_acc.result examples.acc_one = Ok examples.acc_one r
       ∧ cov_data.data2_ <$> cov_result.store_ r = Some [[NonFinite]])
  ∧ (∃ a r, cov_acc.finalize examples.acc_one = Ok a r
       ∧ cov_data.data2_ <$> cov_result.store_ r = Some [[NonFinite]])
  ∧ valid examples.acc_empty = true
  ∧ cov_acc.count examples.acc_empty = Some 0
  ∧ (∃ r, cov_acc.result examples.acc_empty = Ok examples.acc_empty r
       ∧ cov_data.data_ <$> cov_result.store_ r = Some [NonFinite]).
Proof.
  split_and!; try reflexivity.
  - apply Z2Qc_inj_0.
  - eexists. split; [reflexivity|]. by vm_compute.
  - eexists _, _. split; [reflexivity|]. by vm_compute.
  - eexists. split; [reflexivity|]. by vm_compute.
Qed.

Lemma variance_extraction_unguarded_witness :
  (∃ d, cov_acc.store_ examples.acc_one = Some d
     ∧ cov_acc.result examples.acc_one
       = Ok examples.acc_one
            {| cov_result.store_ := Some (cov_data.convert_to_mean d) |}).
Proof.
  eexists. split; [reflexivity|].
  exact (proj1 (variance_extraction_unguarded examples.acc_one _ eq_refl)).
Defined.

Lemma reduce_identical_results_witness :
  (0 < 3)%nat ∧ 0 < cov_data.count_ examples.local_a
  ∧ Z.of_nat 3 * cov_data.count_ examples.local_a < size_t_modulus
  ∧ ∃ w' g,
      reduction.reduce 0 true true (replicate 3 (cov_result.of_data examples.local_a))
      = Ok w' tt
      ∧ w' !! 0%nat = Some (cov_result.of_data g)
      ∧ cov_data.count_ g = 6
      ∧ cov_data.data_ g = [examples.q 6].
Proof.
  assert (0 < 3)%nat as H1 by lia.
  assert (0 < cov_data.count_ examples.local_a) as H2 by reflexivity.
  assert (Z.of_nat 3 * cov_data.count_ examples.local_a < size_t_modulus) as H3
    by reflexivity.
  split_and!; [exact H1|exact H2|exact H3|].
  destruct (reduce_identical_results 3 0 examples.local_a H1 H2 H3)
    as (w' & g & Hred & _ & Hroot & _ & Hcount & Hmean & _).
  exists w', g. split_and!; [exact Hred|exact Hroot|exact Hcount|exact Hmean].
Defined.

(** C5 as stated fails: two ranks hold results of two and of three samples.
    After the pre-commit block alone, with no call of [commit], the root
    holds the count five, the sum over the ranks, where the local sums have
    count two; and [commit] leaves the world as it finds it. *)
Lemma pre_commit_already_sums :
  let ds := [examples.local_a; examples.local_b] in
  cov_data.count_ <$> (cov_data.convert_to_sum <$> ds) = [2; 3]
  ∧ cov_data.count_ <$> reduction.pre_commit_phase 0 ds = [5; 3]
  ∧ reduction.pre_commit_phase 0 ds ≠ cov_data.convert_to_sum <$> ds
  ∧ (∃ w, reduction.reduce 0 true false (cov_result.of_data <$> ds) = Ok w tt
       ∧ (λ r, cov_data.count_ <$> cov_result.store_ r) <$> w = [Some 5; Some 3])
  ∧ mpi_reducer.commit (reduction.pre_commit_phase 0 ds)
    = reduction.pre_commit_phase 0 ds.
Proof.
  intros ds. split_and!; try reflexivity.
  - intros Heq. apply (f_equal (fmap cov_data.count_)) in Heq. by vm_compute in Heq.
  - eexists. split; [reflexivity|]. by vm_compute.
Qed.

Lemma pre_commit_reduces_at_once_witness :
  let ds := [examples.local_a; examples.local_b] in
  Forall cov_data.wf ds ∧ ds !! 0%nat = Some examples.local_a
  ∧ (0 < cov_data.size examples.local_a)%nat
  ∧ cov_data.count_ <$> reduction.pre_commit_phase 0 ds !! 0%nat
    = Some (size_t_wrap (2 + (3 + 0)))
  ∧ reduction.pre_commit_phase 0 ds !! 1%nat
    = Some (cov_data.convert_to_sum examples.local_b).
Proof.
  intros ds.
  assert (Forall cov_data.wf ds) as H1
    by (constructor; [solve_wf|constructor; [solve_wf|constructor]]).
  assert (ds !! 0%nat = Some examples.local_a) as H2 by reflexivity.
  assert (0 < cov_data.size examples.local_a)%nat as H3 by (cbn; lia).
  split_and!; [exact H1|exact H2|exact H3|..].
  - destruct (pre_commit_reduces_at_once 0 ds examples.local_a H1 H2 H3)
      as (Hroot & _). by rewrite Hroot.
  - destruct (pre_commit_reduces_at_once 0 ds examples.local_a H1 H2 H3)
      as (_ & Hother & _). by apply Hother.
Defined.

Lemma finalized_accumulator_rejects_witness :
  ∃ a' r,
    cov_acc.finalize examples.acc_two = Ok a' r
    ∧ valid a' = false
    ∧ cov_acc.shl a' (computed.value_adapter (examples.q 1))
      = Throw finalized_accumulator a'
    ∧ cov_acc.result a' = Throw finalized_accumulator a'
    ∧ cov_acc.finalize a' = Throw finalized_accumulator a'.
Proof.
  eexists _, _.
  assert (cov_acc.finalize examples.acc_two = Ok _ _) as Hfin by reflexivity.
  split; [exact Hfin|].
  destruct (finalized_accumulator_rejects _ _ _ Hfin)
    as (Hinv & _ & Hshl & Hres & Hfin' & _).
  split_and!; [exact Hinv|apply Hshl|exact Hres|exact Hfin'].
Defined.



Lemma result_is_snapshot_witness :
  valid examples.acc_two = true
  ∧ ∃ r, cov_acc.result examples.acc_two = Ok examples.acc_two r
      ∧ valid r = true.
Proof.
  assert (valid examples.acc_two = true) as Hv by reflexivity.
  split; [exact Hv|].
  destruct (result_is_snapshot examples.acc_two Hv) as (r & Hr & _ & Hvr & _).
  exists r. split; [exact Hr|exact Hvr].
Defined.

Lemma reset_revives_finalized_witness :
  valid examples.acc_finalized = false
  ∧ valid (cov_acc.reset examples.acc_finalized) = true
  ∧ cov_acc.count (cov_acc.reset examples.acc_finalized) = Some 0
  ∧ cov_acc.size (cov_acc.reset examples.acc_finalized) = 1%nat.
Proof.
  assert (valid examples.acc_finalized = false) as Hinv by reflexivity.
  split; [exact Hinv|].
  destruct (reset_revives_finalized examples.acc_finalized Hinv)
    as (Hv & Hsz & Hc & _).
  split_and!; [exact Hv|exact Hc|exact Hsz].
Defined.

(** The scenario of the specification: with 4 samples at level 0 and 2 at
    level 1, [find_level(2)] is level 1, and the default threshold finds no
    level. *)
Example find_level_two_levels :
  autocorr_result.find_level examples.two_levels 2 = inr 1%nat
  ∧ autocorr_result.find_level examples.two_levels 3 = inr 0%nat
  ∧ autocorr_result.default_level examples.two_levels = inl out_of_range.
Proof. by split_and!. Qed.

(** * Further properties of the covariance engine *)

Ltac simpl_fields_in H :=
  cbn [cov_acc.store_ cov_acc.current_ cov_acc.uplevel_
       bundle.sum_ bundle.target_ bundle.count_
       cov_data.data_ cov_data.data2_ cov_data.count_
       cov_result.store_ fmap option_fmap option_map] in H.

(** ** The conversions, continued *)

Lemma radd_rsub_cancel x o c :
  c ≠ 0%Qc → is_finite o = true → rdiv (rsub (radd (rscale c x) o) o) c = x.
Proof.
  intros Hc Ho. destruct o as [b|]; [|done]. destruct x as [a|]; [|done].
  unfold rscale, rmul, radd, rsub. cbn [lift2]. rewrite rdiv_finite by done.
  f_equal. by field.
Qed.

Lemma row_roundtrip_back c (r o : list real) :
  c ≠ 0%Qc → length r = length o → Forall (λ x, is_finite x = true) o →
  vdiv (zip_with rsub (vadd (vscale c r) o) o) c = r.
Proof.
  intros Hc. revert o. induction r as [|x r IH]; intros [|y o] Hlen Ho; try done.
  inversion Ho; subst. cbn [vscale vadd vdiv fmap list_fmap zip_with].
  f_equal.
  - by apply radd_rsub_cancel.
  - apply IH; [by injection Hlen|done].
Qed.

Lemma matrix_roundtrip_back c (m k : list (list real)) :
  c ≠ 0%Qc →
  Forall2 (λ r o, length r = length o ∧ Forall (λ x, is_finite x = true) o) m k →
  mdiv (msub (madd (mscale c m) k) k) c = m.
Proof.
  intros Hc. induction 1 as [|r o m k [Hlen Ho] _ IH]; [done|].
  cbn [mscale madd msub mdiv fmap list_fmap zip_with]. f_equal; [|exact IH].
  by apply row_roundtrip_back.
Qed.

Lemma column_roundtrip_back c (v : list real) : c ≠ 0%Qc → vdiv (vscale c v) c = v.
Proof.
  intros Hc. unfold vscale, vdiv. rewrite <-list_fmap_compose.
  rewrite <-(list_fmap_id v) at 2. apply list_fmap_ext. intros _ x _.
  unfold compose, id. destruct x as [a|]; [|done].
  unfold rscale, rmul. cbn [lift2]. rewrite rdiv_finite by done. f_equal. by field.
Qed.

Lemma length_vscale c v : length (vscale c v) = length v.
Proof. apply length_fmap. Qed.

Lemma convert_to_sum_wf d : cov_data.wf d → cov_data.wf (cov_data.convert_to_sum d).
Proof.
  intros (Hlen & Hrows & Hc). unfold cov_data.wf, cov_data.convert_to_sum.
  simpl_fields. rewrite !length_vscale. split_and!; [| |done].
  - unfold madd, mscale. rewrite length_zip_with, !length_fmap, length_outer. lia.
  - apply (zip_with_rows radd).
    + by apply (fmap_rows (rscale _)).
    + apply (fmap_rows (rscale _)). apply outer_rows.
Qed.

(** X1.  The store a result hands to [reduce] comes back unchanged when no other
    rank contributes: converting a store in mean form to sums and back gives
    the store again, for a count above one and finite means. *)
Theorem convert_to_mean_to_sum_roundtrip (d : cov_data.t) :
  cov_data.wf d → 1 < cov_data.count_ d →
  Forall (λ x, is_finite x = true) (cov_data.data_ d) →
  cov_data.convert_to_mean (cov_data.convert_to_sum d) = d.
Proof.
  intros Hwf H1 Hfin.
  destruct (count_divisors (cov_data.count_ d)) as (Hc & Hsub & Hc1);
    [apply Hwf|done|].
  destruct Hwf as (Hlen & Hrows & _). destruct d as [v m n].
  unfold cov_data.convert_to_sum, cov_data.convert_to_mean. simpl_fields.
  cbn [cov_data.data_ cov_data.data2_ cov_data.count_] in *.
  rewrite Hsub, column_roundtrip_back by done. f_equal.
  apply matrix_roundtrip_back; [done|]. by apply scaled_outer_finite.
Qed.

(** X2.  Both conversions and [reset] keep the shape of the store and its count:
    a square matrix of the dimension of the sums stays one. *)
Theorem conversions_keep_shape (d : cov_data.t) :
  cov_data.wf d →
  cov_data.wf (cov_data.convert_to_mean d)
  ∧ cov_data.wf (cov_data.convert_to_sum d)
  ∧ cov_data.wf (cov_data.reset d)
  ∧ cov_data.size (cov_data.convert_to_mean d) = cov_data.size d
  ∧ cov_data.size (cov_data.convert_to_sum d) = cov_data.size d
  ∧ cov_data.size (cov_data.reset d) = cov_data.size d
  ∧ cov_data.count_ (cov_data.convert_to_mean d) = cov_data.count_ d
  ∧ cov_data.count_ (cov_data.convert_to_sum d) = cov_data.count_ d.
Proof.
  intros Hwf. split_and!; try done.
  - by apply convert_to_mean_wf.
  - by apply convert_to_sum_wf.
  - destruct Hwf as (Hlen & Hrows & _).
    unfold cov_data.wf, cov_data.reset. simpl_fields.
    unfold mfill. rewrite length_vfill, length_fmap. split_and!; [done| |done].
    apply Forall_fmap. eapply Forall_impl; [exact Hrows|].
    intros r Hr. cbn. by rewrite length_vfill.
  - unfold cov_data.size. cbn. by rewrite length_vdiv.
  - unfold cov_data.size. cbn. unfold vscale. by rewrite length_fmap.
  - unfold cov_data.size. cbn. by rewrite length_vfill.
Qed.

(** ** The adapters, continued *)

Lemma length_values source :
  computed.column_like source = true →
  length (computed.values source) = computed.size source.
Proof. by destruct source. Qed.

(** X3.  [add_to] of a scalar, a [std::vector] or an Eigen column vector
    either adds the sample coefficient by coefficient to a buffer of its own
    size, the length of the buffer being kept, or throws [size_mismatch] and
    leaves the buffer as it was; it does the first exactly when the sizes
    agree.  In general [add_to] throws [size_mismatch] exactly when the size
    of the buffer is not the size it compares with, which for an Eigen row
    vector is one, its number of rows; [computed_cmember::add_to] compares
    nothing and does not depend on the size reported.  Whatever the adapter,
    the buffer keeps its size. *)
Theorem add_to_adds_coefficients (source : computed.t) (out : list real) :
  (computed.column_like source = true →
     computed.checked_size source = Some (computed.size source)
     ∧ (length out = computed.size source →
        ∃ out', computed.add_to source out = Ok out' tt
          ∧ length out' = length out
          ∧ ∀ i y, out !! i = Some y →
              ∃ x, computed.values source !! i = Some x
                 ∧ out' !! i = Some (radd y x))
     ∧ (length out ≠ computed.size source →
        computed.add_to source out = Throw size_mismatch out)
     ∧ (∀ out' r, computed.add_to source out = Ok out' r →
        length out = computed.size source)
     ∧ (∀ e s, computed.add_to source out = Throw e s → e = size_mismatch ∧ s = out))
  ∧ (∀ k, computed.checked_size source = Some k →
       (length out ≠ k → computed.add_to source out = Throw size_mismatch out)
       ∧ (length out = k → ∀ s, computed.add_to source out ≠ Throw size_mismatch s))
  ∧ (∀ in_, source = computed.eigen_row_adapter in_ →
       computed.checked_size source = Some 1%nat)
  ∧ (∀ n adder, source = computed.computed_cmember n adder →
       computed.checked_size source = None
       ∧ ∀ m, computed.add_to source out
              = computed.add_to (computed.computed_cmember m adder) out)
  ∧ match computed.add_to source out with
    | Ok out' _ | Throw _ out' => length out' = length out
    end.
Proof.
  split_and!.
  - intros Hcol. rewrite add_to_spec by done. split_and!.
    + by destruct source.
    + intros Hlen. rewrite decide_True by done. eexists. split; [done|].
      unfold vadd. rewrite length_zip_with, length_values by done. split; [lia|].
      intros i y Hy.
      assert (i < length (computed.values source))%nat as Hi.
      { rewrite length_values, <-Hlen by done. by eapply lookup_lt_Some. }
      apply lookup_lt_is_Some in Hi as [x Hx]. exists x. split; [done|].
      by rewrite lookup_zip_with, Hy, Hx.
    + intros Hne. by rewrite decide_False.
    + intros out' r. by destruct (decide _).
    + intros e s. destruct (decide _); [done|]. by intros [= <- <-].
  - intros k Hk. by apply add_to_size_mismatch.
  - by intros in_ ->.
  - by intros n adder ->.
  - pose proof (add_to_length source out) as H.
    by destruct (computed.add_to source out).
Qed.

(** ** What [operator<<] keeps *)

Lemma shl_valid_eq (a : cov_acc.t) (source : computed.t) :
  valid a = true → computed.column_like source = true →
  let cur := cov_acc.current_ a in
  let cur1 := {| bundle.sum_ := vadd (bundle.sum_ cur) (computed.values source);
                 bundle.target_ := bundle.target_ cur;
                 bundle.count_ := size_t_add (bundle.count_ cur) 1 |} in
  let a1 := cov_acc.mk (cov_acc.store_ a) cur1 (cov_acc.uplevel_ a) in
  cov_acc.shl a source
  = if decide (cov_acc.size a = computed.size source)
    then if bundle.is_full cur1 then cov_acc.add_bundle a1 else Ok a1 tt
    else Throw size_mismatch a.
Proof.
  intros Hv Hcol cur cur1 a1.
  rewrite shl_unfold, (check_valid_true _ Hv), add_to_spec by done.
  unfold cov_acc.size, bundle.size. destruct (decide _); [done|].
  by rewrite cov_acc_eta.
Qed.

(** [operator<<] on a valid accumulator, whatever the adapter: the bundle the
    adapter leaves has the size of the accumulator. *)
Lemma shl_valid_cases (a : cov_acc.t) (source : computed.t) :
  valid a = true →
  ∃ sum1, length sum1 = cov_acc.size a
    ∧ ((∃ e, cov_acc.shl a source
             = Throw e (cov_acc.mk (cov_acc.store_ a)
                          {| bundle.sum_ := sum1;
                             bundle.target_ := bundle.target_ (cov_acc.current_ a);
                             bundle.count_ := bundle.count_ (cov_acc.current_ a) |}
                          (cov_acc.uplevel_ a)))
       ∨ let cur1 :=
           {| bundle.sum_ := sum1;
              bundle.target_ := bundle.target_ (cov_acc.current_ a);
              bundle.count_ := size_t_add (bundle.count_ (cov_acc.current_ a)) 1 |} in
         let a1 := cov_acc.mk (cov_acc.store_ a) cur1 (cov_acc.uplevel_ a) in
         cov_acc.shl a source
         = if bundle.is_full cur1 then cov_acc.add_bundle a1 else Ok a1 tt).
Proof.
  intros Hv. rewrite shl_unfold, (check_valid_true _ Hv).
  pose proof (add_to_length source (bundle.sum_ (cov_acc.current_ a))) as Hlen.
  destruct (computed.add_to source _) as [sum1 []|e sum1];
    exists sum1; (split; [exact Hlen|]).
  - by right.
  - left. by exists e.
Qed.

(** The store and the bundle [add_bundle] leaves, whatever the next level
    does with the mean it is handed. *)
Lemma add_bundle_top (a : cov_acc.t) :
  let cur := cov_acc.current_ a in
  let mean := vdiv (bundle.sum_ cur) (of_size_t (bundle.count_ cur)) in
  let cur1 := {| bundle.sum_ := mean;
                 bundle.target_ := bundle.target_ cur;
                 bundle.count_ := bundle.count_ cur |} in
  let store1 :=
    (λ d, {| cov_data.data_ := vadd (cov_data.data_ d) mean;
             cov_data.data2_ := madd (cov_data.data2_ d) (outer mean mean);
             cov_data.count_ := size_t_add (cov_data.count_ d) 1 |})
      <$> cov_acc.store_ a in
  ∃ up, (is_Some up ↔ is_Some (cov_acc.uplevel_ a))
    ∧ (cov_acc.add_bundle a = Ok (cov_acc.mk store1 (bundle.reset cur1) up) tt
       ∨ ∃ e, cov_acc.add_bundle a = Throw e (cov_acc.mk store1 cur1 up)).
Proof.
  intros cur mean cur1 store1.
  unfold cov_acc.add_bundle, cov_acc.add_bundle_with. fold cur mean cur1 store1.
  destruct (cov_acc.uplevel_ a) as [up|].
  - destruct (cov_acc.shl up _) as [up1 []|e up1].
    + exists (Some up1). split; [done|]. by left.
    + exists (Some up1). split; [done|]. right. by exists e.
  - exists None. split; [done|]. by left.
Qed.

(** X4.  Whether [operator<<] returns or throws, it leaves an accumulator of the
    same size and the same validity, and a store of the constructor's shape
    keeps that shape. *)
Theorem shl_keeps_size_and_shape (a a' : cov_acc.t) (source : computed.t) :
  (cov_acc.shl a source = Ok a' tt ∨ ∃ e, cov_acc.shl a source = Throw e a') →
  cov_acc.size a' = cov_acc.size a
  ∧ valid a' = valid a
  ∧ (cov_acc_shaped a → cov_acc_shaped a').
Proof.
  intros Hout.
  destruct (valid a) eqn:Hv; cycle 1.
  { rewrite (shl_invalid _ _ Hv) in Hout.
    destruct Hout as [|[e [= _ <-]]]; [done|]. by rewrite Hv. }
  destruct (shl_valid_cases a source Hv) as (sum1 & Hlen1 & Hcases).
  set (cur1 := {| bundle.sum_ := sum1;
                  bundle.target_ := bundle.target_ (cov_acc.current_ a);
                  bundle.count_ := size_t_add (bundle.count_ (cov_acc.current_ a)) 1 |})
    in Hcases.
  cbv zeta in Hcases.
  set (a1 := cov_acc.mk (cov_acc.store_ a) cur1 (cov_acc.uplevel_ a)) in Hcases.
  assert (Hgoal : ∀ store1 curx up,
            length (bundle.sum_ curx) = cov_acc.size a →
            (store1 = cov_acc.store_ a
             ∨ store1 =
               (λ d, {| cov_data.data_ :=
                          vadd (cov_data.data_ d)
                            (vdiv (bundle.sum_ cur1) (of_size_t (bundle.count_ cur1)));
                        cov_data.data2_ :=
                          madd (cov_data.data2_ d)
                            (outer (vdiv (bundle.sum_ cur1) (of_size_t (bundle.count_ cur1)))
                                   (vdiv (bundle.sum_ cur1) (of_size_t (bundle.count_ cur1))));
                        cov_data.count_ := size_t_add (cov_data.count_ d) 1 |})
                 <$> cov_acc.store_ a) →
            cov_acc.size (cov_acc.mk store1 curx up) = cov_acc.size a
            ∧ valid (cov_acc.mk store1 curx up) = true
            ∧ (cov_acc_shaped a → cov_acc_shaped (cov_acc.mk store1 curx up))).
  { intros store1 curx up Hlen Hstore. split_and!.
    - done.
    - apply cov_acc_valid_store in Hv as [d Hd].
      apply cov_acc_valid_store. simpl_fields.
      destruct Hstore as [->| ->]; rewrite Hd; eauto.
    - intros Hsh d'. simpl_fields. unfold cov_acc.size, bundle.size. simpl_fields.
      rewrite Hlen. destruct Hstore as [->| ->]; [apply Hsh|].
      destruct (cov_acc.store_ a) as [d|] eqn:Hd; [|done]. intros [= <-].
      destruct (Hsh d Hd) as ((Hl & Hrows & Hc) & Hszd).
      unfold cov_data.size in Hszd.
      set (mean := vdiv _ _).
      assert (length mean = cov_acc.size a) as Hm
        by (unfold mean; by rewrite length_vdiv).
      unfold cov_data.wf, cov_data.size. simpl_fields.
      unfold vadd at 1 2 3. rewrite !length_zip_with, Hm, Hszd.
      split_and!.
      + unfold madd. rewrite length_zip_with, length_outer, Hl, Hm, Hszd. lia.
      + rewrite Nat.min_id. apply (zip_with_rows radd).
        * by rewrite <-Hszd.
        * rewrite <-Hm. apply outer_rows.
      + unfold size_t_add, size_t_wrap, is_size_t.
        apply Z.mod_pos_bound. done.
      + lia. }
  destruct Hcases as [[e0 Hthrow]|Hshl].
  { rewrite Hthrow in Hout. destruct Hout as [|[e [= _ <-]]]; [done|].
    apply Hgoal; [done|by left]. }
  cbv zeta in Hshl. rewrite Hshl in Hout. clear Hshl.
  destruct (bundle.is_full cur1).
  - destruct (add_bundle_top a1) as (up & _ & Hcases). cbv zeta in Hcases.
    change (cov_acc.current_ a1) with cur1 in Hcases.
    change (cov_acc.store_ a1) with (cov_acc.store_ a) in Hcases.
    destruct Hcases as [Hok|[e He]].
    + match type of Hok with
      | _ = Ok ?X _ =>
          assert (a' = X) as -> by (destruct Hout as [Hout|[? Hout]]; congruence)
      end.
      apply Hgoal; [|by right].
      unfold bundle.reset. simpl_fields. by rewrite length_vfill, length_vdiv.
    + match type of He with
      | _ = Throw _ ?X =>
          assert (a' = X) as -> by (destruct Hout as [Hout|[? Hout]]; congruence)
      end.
      apply Hgoal; [|by right].
      simpl_fields. by rewrite length_vdiv.
  - assert (a' = a1) as -> by (destruct Hout as [Hout|[? Hout]]; congruence).
    apply Hgoal; [done|by left].
Qed.

(** X5.  When the batch size is at least one, [operator<<] never returns with a
    complete bundle pending: the bundle it leaves holds fewer samples than
    the batch size. *)
Theorem shl_leaves_bundle_open (a a' : cov_acc.t) (source : computed.t) :
  1 ≤ bundle.target_ (cov_acc.current_ a) →
  cov_acc.shl a source = Ok a' tt →
  bundle.is_full (cov_acc.current_ a') = false
  ∧ 0 ≤ bundle.count_ (cov_acc.current_ a') < bundle.target_ (cov_acc.current_ a')
  ∧ bundle.target_ (cov_acc.current_ a') = bundle.target_ (cov_acc.current_ a).
Proof.
  intros Ht Hout.
  destruct (valid a) eqn:Hv; [|by rewrite (shl_invalid _ _ Hv) in Hout].
  destruct (shl_valid_cases a source Hv) as (sum1 & _ & [[e0 Hthrow]|Hshl]);
    [by rewrite Hthrow in Hout|].
  cbv zeta in Hshl. rewrite Hshl in Hout. clear Hshl.
  set (cur1 := {| bundle.sum_ := sum1 |}) in Hout.
  set (a1 := cov_acc.mk _ cur1 _) in Hout.
  destruct (bundle.is_full cur1) eqn:Hfull.
  - destruct (add_bundle_top a1) as (up & _ & [Hok|[e He]]); [|congruence].
    rewrite Hok in Hout. injection Hout as <-.
    unfold bundle.is_full, bundle.reset. simpl_fields.
    rewrite bool_decide_eq_false. lia.
  - injection Hout as <-. change (cov_acc.current_ a1) with cur1.
    split; [done|].
    unfold bundle.is_full in Hfull. apply bool_decide_eq_false in Hfull.
    unfold cur1 in *. simpl_fields. simpl_fields_in Hfull.
    unfold size_t_add, size_t_wrap in *.
    pose proof (Z.mod_pos_bound (bundle.count_ (cov_acc.current_ a) + 1)
                  size_t_modulus eq_refl). lia.
Qed.

(** X6.  No sample is lost or counted twice: with the bundle open before the
    call, [operator<<] raises by one the number of samples the accumulator
    accounts for, the completed bundles times the batch size plus the
    samples of the pending bundle. *)
Theorem shl_counts_one_sample (a a' : cov_acc.t) (source : computed.t) (d : cov_data.t) :
  cov_acc.store_ a = Some d →
  let target := bundle.target_ (cov_acc.current_ a) in
  let pending := bundle.count_ (cov_acc.current_ a) in
  0 ≤ pending < target → target < size_t_modulus →
  0 ≤ cov_data.count_ d → cov_data.count_ d + 1 < size_t_modulus →
  cov_acc.shl a source = Ok a' tt →
  ∃ d', cov_acc.store_ a' = Some d'
    ∧ cov_data.count_ d' * target + bundle.count_ (cov_acc.current_ a')
      = cov_data.count_ d * target + pending + 1
    ∧ (pending + 1 < target →
         cov_data.count_ d' = cov_data.count_ d
         ∧ bundle.count_ (cov_acc.current_ a') = pending + 1)
    ∧ (pending + 1 = target →
         cov_data.count_ d' = cov_data.count_ d + 1
         ∧ bundle.count_ (cov_acc.current_ a') = 0).
Proof.
  intros Hd target pending Hp Ht Hc0 Hc1 Hout.
  assert (valid a = true) as Hv by (apply cov_acc_valid_store; eauto).
  destruct (shl_valid_cases a source Hv) as (sum1 & _ & [[e0 Hthrow]|Hshl]);
    [by rewrite Hthrow in Hout|].
  cbv zeta in Hshl. rewrite Hshl in Hout. clear Hshl.
  set (cur1 := {| bundle.sum_ := sum1 |}) in Hout.
  set (a1 := cov_acc.mk _ cur1 _) in Hout.
  assert (bundle.count_ cur1 = pending + 1) as Hcnt.
  { unfold cur1. simpl_fields. fold pending. unfold size_t_add, size_t_wrap.
    apply Z.mod_small. lia. }
  assert (size_t_add (cov_data.count_ d) 1 = cov_data.count_ d + 1) as Hcnt'.
  { unfold size_t_add, size_t_wrap. apply Z.mod_small. lia. }
  destruct (bundle.is_full cur1) eqn:Hfull.
  - unfold bundle.is_full in Hfull. apply bool_decide_eq_true in Hfull.
    rewrite Hcnt in Hfull. change (bundle.target_ cur1) with target in Hfull.
    destruct (add_bundle_top a1) as (up & _ & [Hok|[e He]]); [|congruence].
    rewrite Hok in Hout. injection Hout as <-.
    change (cov_acc.store_ a1) with (cov_acc.store_ a). rewrite Hd.
    eexists. split; [done|]. unfold bundle.reset. simpl_fields.
    rewrite Hcnt'. split_and!; [nia|lia|done].
  - unfold bundle.is_full in Hfull. apply bool_decide_eq_false in Hfull.
    rewrite Hcnt in Hfull. change (bundle.target_ cur1) with target in Hfull.
    injection Hout as <-. exists d.
    change (cov_acc.current_ a1) with cur1.
    change (cov_acc.store_ a1) with (cov_acc.store_ a). rewrite Hcnt.
    split_and!; [done|lia|done|lia].
Qed.

(** X7.  [operator<<] is not exception-safe with respect to the next level:
    when a sample of the right size, a scalar, a [std::vector] or an Eigen
    column vector, completes the bundle and the next level has been
    finalized, the call throws [finalized_accumulator], but the bundle mean
    has already been added to the store, whose count has grown, and the
    bundle is left complete instead of being reset. *)
Theorem shl_throws_after_update (a up : cov_acc.t) (source : computed.t) (d : cov_data.t) :
  cov_acc.store_ a = Some d → cov_acc.uplevel_ a = Some up → valid up = false →
  computed.column_like source = true →
  computed.size source = cov_acc.size a →
  let cur := cov_acc.current_ a in
  let count1 := size_t_add (bundle.count_ cur) 1 in
  bundle.target_ cur ≤ count1 →
  let mean := vdiv (vadd (bundle.sum_ cur) (computed.values source)) (of_size_t count1) in
  cov_acc.shl a source
  = Throw finalized_accumulator
      (cov_acc.mk
         (Some {| cov_data.data_ := vadd (cov_data.data_ d) mean;
                  cov_data.data2_ := madd (cov_data.data2_ d) (outer mean mean);
                  cov_data.count_ := size_t_add (cov_data.count_ d) 1 |})
         {| bundle.sum_ := mean;
            bundle.target_ := bundle.target_ cur;
            bundle.count_ := count1 |}
         (Some up)).
Proof.
  intros Hd Hup Hinv Hcol Hsz cur count1 Hfull mean.
  assert (valid a = true) as Hv by (apply cov_acc_valid_store; eauto).
  rewrite (shl_valid_eq _ _ Hv Hcol), decide_True by done. fold cur.
  unfold bundle.is_full. simpl_fields. fold count1.
  rewrite bool_decide_eq_true_2 by done.
  unfold cov_acc.add_bundle, cov_acc.add_bundle_with. simpl_fields.
  by rewrite Hup, Hd, (shl_invalid _ _ Hinv).
Qed.

(** ** [reset()], continued *)

Lemma mfill_replicate x (m : list (list real)) n :
  length m = n → Forall (λ r, length r = n) m →
  mfill x m = replicate n (replicate n x).
Proof.
  intros Hlen Hrows. unfold mfill. apply list_eq. intros i.
  rewrite list_lookup_fmap.
  destruct (m !! i) as [r|] eqn:Hr; cbn.
  - rewrite lookup_replicate_2 by (rewrite <-Hlen; by eapply lookup_lt_Some).
    by rewrite vfill_replicate, (Forall_lookup_1 _ _ _ _ Hrows Hr).
  - symmetry. apply lookup_replicate_None. apply lookup_ge_None in Hr. lia.
Qed.

(** X8.  [reset()] gives back the state of the constructor, whatever was
    accumulated and whether or not the accumulator had been finalized: a
    zero store of the size of the accumulator and an empty bundle with the
    batch size it had; the link to the next level is kept.  In particular
    [reset()] is idempotent. *)
Theorem reset_restores_constructor_state (a : cov_acc.t) :
  cov_acc_shaped a →
  let n := cov_acc.size a in
  let fresh := cov_acc.mk (Some (cov_data.new n))
                 (bundle.new n (bundle.target_ (cov_acc.current_ a)))
                 (cov_acc.uplevel_ a) in
  cov_acc.reset a = fresh
  ∧ cov_acc.reset (cov_acc.reset a) = cov_acc.reset a
  ∧ (cov_acc.uplevel_ a = None →
       cov_acc.reset a = cov_acc.new n (bundle.target_ (cov_acc.current_ a))).
Proof.
  intros Hsh n fresh.
  assert (Hbundle : bundle.reset (cov_acc.current_ a)
            = bundle.new n (bundle.target_ (cov_acc.current_ a))).
  { unfold bundle.new, bundle.reset. simpl_fields.
    by rewrite !vfill_replicate, length_replicate. }
  assert (Hreset : ∀ b, cov_acc_shaped b →
            cov_acc.reset b
            = cov_acc.mk (Some (cov_data.new (cov_acc.size b)))
                (bundle.reset (cov_acc.current_ b)) (cov_acc.uplevel_ b)).
  { intros b Hb. unfold cov_acc.reset.
    assert (cov_acc.size (cov_acc.mk (cov_acc.store_ b)
              (bundle.reset (cov_acc.current_ b)) (cov_acc.uplevel_ b))
            = cov_acc.size b) as Hsz.
    { unfold cov_acc.size, bundle.size, bundle.reset. simpl_fields.
      by rewrite length_vfill. }
    destruct (cov_acc.store_ b) as [d|] eqn:Hd.
    - replace (valid _) with true by done. simpl_fields. f_equal. f_equal.
      destruct (Hb d Hd) as ((Hlen & Hrows & _) & Hszd).
      unfold cov_data.size in Hszd. rewrite cov_data_new_zero.
      unfold cov_data.reset. f_equal.
      + by rewrite vfill_replicate, Hszd.
      + apply mfill_replicate; [by rewrite Hlen|by rewrite <-Hszd].
    - replace (valid _) with false by done. by rewrite Hsz. }
  assert (Hfresh : cov_acc.reset a = fresh).
  { rewrite Hreset by done. unfold fresh. by rewrite Hbundle. }
  split_and!; [done| |].
  - rewrite Hfresh. rewrite Hreset.
    + unfold fresh. simpl_fields. f_equal.
      * unfold cov_acc.size, bundle.size, bundle.new, bundle.reset. simpl_fields.
        by rewrite !length_vfill, length_replicate.
      * unfold bundle.new, bundle.reset. simpl_fields.
        by rewrite !vfill_replicate, !length_replicate.
    + intros d. unfold fresh. simpl_fields. intros [= <-].
      rewrite cov_data_new_zero.
      unfold cov_data.wf, cov_data.size, cov_acc.size, bundle.size, bundle.new,
        bundle.reset. simpl_fields.
      rewrite !length_vfill, !length_replicate. split_and!; try done.
      apply Forall_replicate. by rewrite length_replicate.
  - intros Hup. rewrite Hfresh. unfold fresh, cov_acc.new. by rewrite Hup.
Qed.

(** ** Streams of samples *)

Lemma shl_unit_bundle (n : nat) (d : cov_data.t) (source : computed.t) :
  computed.column_like source = true → computed.size source = n →
  let x := computed.values source in
  cov_acc.shl (cov_acc.mk (Some d) (bundle.new n 1) None) source
  = Ok (cov_acc.mk
          (Some {| cov_data.data_ := vadd (cov_data.data_ d) x;
                   cov_data.data2_ := madd (cov_data.data2_ d) (outer x x);
                   cov_data.count_ := size_t_add (cov_data.count_ d) 1 |})
          (bundle.new n 1) None) tt.
Proof.
  intros Hcol Hsz x.
  assert (Hnew : bundle.new n 1
            = {| bundle.sum_ := replicate n rzero; bundle.target_ := 1;
                 bundle.count_ := 0 |}).
  { unfold bundle.new, bundle.reset. simpl_fields.
    by rewrite vfill_replicate, length_replicate. }
  rewrite Hnew. rewrite shl_valid_eq by done. simpl_fields.
  rewrite decide_True
    by (unfold cov_acc.size, bundle.size; simpl_fields;
        by rewrite length_replicate).
  rewrite vadd_zero_l by (by rewrite length_values).
  unfold bundle.is_full. simpl_fields.
  change (size_t_add 0 1) with 1. rewrite bool_decide_eq_true_2 by done.
  unfold cov_acc.add_bundle, cov_acc.add_bundle_with. simpl_fields.
  rewrite vdiv_one. fold x. do 2 f_equal.
  unfold bundle.reset. simpl_fields. f_equal.
  rewrite vfill_replicate. f_equal. unfold x. by rewrite length_values.
Qed.

Lemma feed_unit_bundle (n : nat) (xs : list computed.t) (d : cov_data.t) :
  Forall (λ x, computed.column_like x = true ∧ computed.size x = n) xs →
  feed (cov_acc.mk (Some d) (bundle.new n 1) None) xs
  = Ok (cov_acc.mk
          (Some {| cov_data.data_ :=
                     vsum (cov_data.data_ d) (computed.values <$> xs);
                   cov_data.data2_ :=
                     msum (cov_data.data2_ d)
                       ((λ x, outer (computed.values x) (computed.values x)) <$> xs);
                   cov_data.count_ :=
                     foldl (λ c _, size_t_add c 1) (cov_data.count_ d) xs |})
          (bundle.new n 1) None) tt.
Proof.
  intros Hxs. revert d. induction Hxs as [|x xs [Hcol Hx] _ IH]; intros d.
  - by destruct d.
  - cbn [feed]. rewrite shl_unit_bundle by done. cbn [bind]. by rewrite IH.
Qed.

Lemma foldl_count_up {A} (xs : list A) (c : Z) :
  is_size_t c →
  foldl (λ c _, size_t_add c 1) c xs = size_t_wrap (c + Z.of_nat (length xs)).
Proof.
  revert c. induction xs as [|x xs IH]; intros c Hc.
  - cbn. rewrite Z.add_0_r. symmetry. by apply Z.mod_small.
  - cbn [foldl length]. rewrite IH.
    + unfold size_t_add, size_t_wrap. rewrite Zplus_mod_idemp_l. f_equal. lia.
    + unfold size_t_add, size_t_wrap, is_size_t. by apply Z.mod_pos_bound.
Qed.

(** X9.  With bundles of one sample and no next level, a stream of samples of the
    right size is accepted as a whole and leaves in the store the sum of the
    samples, the sum of their outer products and their number. *)
Theorem feed_accumulates_sums (n : nat) (xs : list computed.t) :
  Forall (λ x, computed.column_like x = true ∧ computed.size x = n) xs →
  Z.of_nat (length xs) < size_t_modulus →
  feed (cov_acc.new n 1) xs
  = Ok (cov_acc.mk
          (Some {| cov_data.data_ :=
                     vsum (replicate n rzero) (computed.values <$> xs);
                   cov_data.data2_ :=
                     msum (replicate n (replicate n rzero))
                       ((λ x, outer (computed.values x) (computed.values x)) <$> xs);
                   cov_data.count_ := Z.of_nat (length xs) |})
          (bundle.new n 1) None) tt.
Proof.
  intros Hxs Hlen. unfold cov_acc.new. rewrite feed_unit_bundle by done.
  rewrite cov_data_new_zero. simpl_fields.
  rewrite foldl_count_up by done. do 4 f_equal.
  rewrite Z.add_0_l. apply Z.mod_small. lia.
Qed.

Lemma vsum_scalars (a : Qc) (qs : list Qc) :
  vsum [Finite a] ((λ q, [Finite q]) <$> qs)
  = [Finite (a + foldr Qcplus 0%Qc qs)%Qc].
Proof.
  unfold vsum. revert a. induction qs as [|q qs IH]; intros a.
  - cbn. do 2 f_equal. by ring.
  - cbn [fmap list_fmap foldl foldr]. change (vadd [Finite a] [Finite q])
      with [Finite (a + q)%Qc]. rewrite IH. do 2 f_equal. by ring.
Qed.

Lemma msum_scalars (a : Qc) (qs : list Qc) :
  msum [[Finite a]] ((λ q, outer [Finite q] [Finite q]) <$> qs)
  = [[Finite (a + foldr Qcplus 0%Qc ((λ q, q * q)%Qc <$> qs))%Qc]].
Proof.
  unfold msum. revert a. induction qs as [|q qs IH]; intros a.
  - cbn. do 3 f_equal. by ring.
  - cbn [fmap list_fmap foldl foldr].
    change (madd [[Finite a]] (outer [Finite q] [Finite q]))
      with [[Finite (a + q * q)%Qc]]. rewrite IH. do 3 f_equal. by ring.
Qed.

(** X10.  For a stream of at least two scalar samples, [result()] after the stream
    is the sample mean [s1 / n] and the unbiased sample variance
    [(s2 - n * mean^2) / (n - 1)], where [s1] is the sum of the samples and
    [s2] the sum of their squares. *)
Theorem scalar_result_is_sample_mean_and_variance (qs : list Qc) :
  1 < Z.of_nat (length qs) < size_t_modulus →
  let n := of_size_t (Z.of_nat (length qs)) in
  let s1 := foldr Qcplus 0%Qc qs in
  let s2 := foldr Qcplus 0%Qc ((λ q, q * q)%Qc <$> qs) in
  let mean := (s1 / n)%Qc in
  ∃ a',
    (feed (cov_acc.new 1 1) ((λ q, computed.value_adapter (Finite q)) <$> qs)
       >>> λ a _, cov_acc.result a)
    = Ok a' {| cov_result.store_ := Some
                 {| cov_data.data_ := [Finite mean];
                    cov_data.data2_ :=
                      [[Finite ((s2 - n * (mean * mean)) / (n - 1))%Qc]];
                    cov_data.count_ := Z.of_nat (length qs) |} |}.
Proof.
  intros [Hlo Hhi] n s1 s2 mean.
  destruct (count_divisors (Z.of_nat (length qs))) as (Hn & Hsub & Hn1);
    [split; lia|done|]. fold n in Hn, Hsub, Hn1.
  rewrite feed_accumulates_sums; cycle 1.
  { apply Forall_fmap, Forall_true. by intros q. }
  { by rewrite length_fmap. }
  cbn [bind]. erewrite result_valid by done. eexists. do 3 f_equal.
  rewrite length_fmap, <-!list_fmap_compose.
  change (replicate 1 rzero) with [Finite 0%Qc].
  change (replicate 1 [Finite 0%Qc]) with [[Finite 0%Qc]].
  change (computed.values ∘ _) with (λ q : Qc, [Finite q]).
  rewrite vsum_scalars.
  change ((λ x, outer (computed.values x) (computed.values x)) ∘ _)
    with (λ q : Qc, outer [Finite q] [Finite q]).
  rewrite msum_scalars.
  unfold cov_data.convert_to_mean. simpl_fields. fold n. rewrite Hsub.
  rewrite !Qcplus_0_l. fold s1 s2.
  cbn [vdiv fmap list_fmap outer mscale vscale msub mdiv zip_with].
  rewrite rdiv_finite by done. fold mean.
  unfold rscale, rmul, rsub. cbn [lift2]. by rewrite rdiv_finite.
Qed.

Lemma feed_app (a : cov_acc.t) (xs ys : list computed.t) :
  feed a (xs ++ ys) = feed a xs >>> λ a1 _, feed a1 ys.
Proof.
  revert a. induction xs as [|x xs IH]; intros a; [done|].
  cbn [app feed]. destruct (cov_acc.shl a x) as [a1 []|e a1]; [|done].
  cbn [bind]. apply IH.
Qed.

Lemma length_vsum (n : nat) (init : list real) (vs : list (list real)) :
  length init = n → Forall (λ v, length v = n) vs → length (vsum init vs) = n.
Proof.
  intros Hinit Hvs. revert init Hinit. unfold vsum.
  induction Hvs as [|v vs Hv _ IH]; intros init Hinit; [done|].
  cbn [foldl]. apply IH. unfold vadd. rewrite length_zip_with. lia.
Qed.

Lemma feed_pending (n : nat) (b : Z) store up (xs : list computed.t)
    (s : list real) (c : Z) :
  is_Some store → length s = n →
  Forall (λ x, computed.column_like x = true ∧ computed.size x = n) xs →
  0 ≤ c → c + Z.of_nat (length xs) < b → b < size_t_modulus →
  feed (cov_acc.mk store {| bundle.sum_ := s; bundle.target_ := b;
                            bundle.count_ := c |} up) xs
  = Ok (cov_acc.mk store
          {| bundle.sum_ := vsum s (computed.values <$> xs);
             bundle.target_ := b;
             bundle.count_ := c + Z.of_nat (length xs) |} up) tt.
Proof.
  intros Hst Hs Hxs. revert s c Hs.
  induction Hxs as [|x xs [Hcol Hx] _ IH]; intros s c Hs Hc Hlt Hb.
  - cbn. by rewrite Z.add_0_r.
  - cbn [feed length] in *.
    rewrite shl_valid_eq by (done || by apply bool_decide_eq_true).
    simpl_fields.
    rewrite decide_True by (unfold cov_acc.size, bundle.size; simpl_fields; lia).
    assert (size_t_add c 1 = c + 1) as ->.
    { unfold size_t_add, size_t_wrap. apply Z.mod_small. lia. }
    unfold bundle.is_full. simpl_fields.
    rewrite bool_decide_eq_false_2 by lia. cbn [bind].
    rewrite IH.
    + do 3 f_equal. lia.
    + unfold vadd. rewrite length_zip_with, length_values by done. lia.
    + lia.
    + lia.
    + done.
Qed.

Lemma madd_zero_l (m : list (list real)) (n : nat) :
  length m = n → Forall (λ r, length r = n) m →
  madd (replicate n (replicate n rzero)) m = m.
Proof.
  intros Hlen Hrows. unfold madd. apply list_eq. intros i.
  rewrite lookup_zip_with.
  destruct (m !! i) as [r|] eqn:Hr.
  - rewrite lookup_replicate_2 by (rewrite <-Hlen; by eapply lookup_lt_Some).
    cbn. f_equal. apply vadd_zero_l. by eapply (Forall_lookup_1 _ _ _ _ Hrows).
  - by destruct (replicate n _ !! i).
Qed.

(** X11.  A bundle contributes its mean, once.  With batch size [b], fewer than
    [b] samples leave the store as the constructor made it and are kept in
    the bundle; the [b]-th sample completes the bundle, whose mean and the
    outer product of the mean go to the store as one sample. *)
Theorem feed_one_bundle (n : nat) (b : Z) (xs : list computed.t) :
  1 ≤ b < size_t_modulus →
  Forall (λ x, computed.column_like x = true ∧ computed.size x = n) xs →
  let total := vsum (replicate n rzero) (computed.values <$> xs) in
  (Z.of_nat (length xs) < b →
     feed (cov_acc.new n b) xs
     = Ok (cov_acc.mk (Some (cov_data.new n))
             {| bundle.sum_ := total; bundle.target_ := b;
                bundle.count_ := Z.of_nat (length xs) |} None) tt)
  ∧ (Z.of_nat (length xs) = b →
     let mean := vdiv total (of_size_t b) in
     feed (cov_acc.new n b) xs
     = Ok (cov_acc.mk
             (Some {| cov_data.data_ := mean;
                      cov_data.data2_ := outer mean mean;
                      cov_data.count_ := 1 |})
             (bundle.new n b) None) tt).
Proof.
  intros Hb Hxs total.
  assert (Hnew : bundle.new n b
            = {| bundle.sum_ := replicate n rzero; bundle.target_ := b;
                 bundle.count_ := 0 |}).
  { unfold bundle.new, bundle.reset. simpl_fields.
    by rewrite vfill_replicate, length_replicate. }
  assert (Hpart : ∀ ys, Forall (λ x, computed.column_like x = true ∧ computed.size x = n) ys →
            Z.of_nat (length ys) < b →
            feed (cov_acc.new n b) ys
            = Ok (cov_acc.mk (Some (cov_data.new n))
                    {| bundle.sum_ := vsum (replicate n rzero) (computed.values <$> ys);
                       bundle.target_ := b;
                       bundle.count_ := Z.of_nat (length ys) |} None) tt).
  { intros ys Hys Hlt. unfold cov_acc.new. rewrite Hnew.
    rewrite (feed_pending n) by (try done; try lia; by rewrite length_replicate).
    by rewrite Z.add_0_l. }
  split; [by apply Hpart|].
  intros Hlen mean.
  destruct (rev_ind (λ l, l = [] ∨ ∃ ys y, l = ys ++ [y]) (or_introl eq_refl)
              (λ y ys _, or_intror (ex_intro _ ys (ex_intro _ y eq_refl))) xs)
    as [->|(ys & y & ->)].
  { cbn in Hlen. lia. }
  apply Forall_app in Hxs as [Hys Hy].
  apply (proj1 (Forall_singleton _ _)) in Hy. destruct Hy as [Hcoly Hy].
  rewrite length_app in Hlen. cbn in Hlen.
  rewrite feed_app, Hpart by (done || lia). cbn [bind feed].
  rewrite shl_valid_eq by done. simpl_fields.
  assert (length (vsum (replicate n rzero) (computed.values <$> ys)) = n) as Hsum.
  { apply length_vsum; [apply length_replicate|].
    apply Forall_fmap. eapply Forall_impl; [exact Hys|].
    intros x [Hcolx Hx]. cbn. by rewrite length_values. }
  rewrite decide_True
    by (unfold cov_acc.size, bundle.size; simpl_fields; by rewrite Hsum, Hy).
  assert (size_t_add (Z.of_nat (length ys)) 1 = b) as ->.
  { unfold size_t_add, size_t_wrap. rewrite Z.mod_small; lia. }
  unfold bundle.is_full. simpl_fields. rewrite bool_decide_eq_true_2 by lia.
  cbn [bind]. unfold cov_acc.add_bundle, cov_acc.add_bundle_with. simpl_fields.
  assert (vadd (vsum (replicate n rzero) (computed.values <$> ys)) (computed.values y)
          = total) as ->.
  { unfold total, vsum. by rewrite fmap_app, foldl_app. }
  fold mean.
  assert (length mean = n) as Hmean.
  { unfold mean. rewrite length_vdiv. unfold total.
    apply length_vsum; [apply length_replicate|].
    apply Forall_fmap, Forall_app. split.
    - eapply Forall_impl; [exact Hys|]. intros x [Hcolx Hx]. cbn.
      by rewrite length_values.
    - apply Forall_singleton. cbn. by rewrite length_values. }
  rewrite cov_data_new_zero. simpl_fields.
  rewrite vadd_zero_l by done.
  rewrite madd_zero_l; cycle 1.
  { by rewrite length_outer. }
  { eapply Forall_impl; [apply outer_rows|]. intros r Hr. cbn. by rewrite Hr. }
  change (size_t_add 0 1) with 1. do 2 f_equal.
  rewrite Hnew. unfold bundle.reset. simpl_fields. f_equal.
  by rewrite vfill_replicate, Hmean.
Qed.

(** ** The reduction, continued *)

Lemma forallb_valid_of_data (ds : list cov_data.t) :
  forallb valid (cov_result.of_data <$> ds) = true.
Proof. induction ds as [|e l IH]; [done|]. cbn. by rewrite IH. Qed.

Lemma omap_store_of_data (ds : list cov_data.t) :
  omap cov_result.store_ (cov_result.of_data <$> ds) = ds.
Proof. induction ds as [|e l IH]; [done|]. cbn. by rewrite IH. Qed.



Lemma convert_to_sum_of_mean (d : cov_data.t) :
  cov_data.wf d → 1 < cov_data.count_ d →
  Forall (λ x, is_finite x = true) (cov_data.data_ d) →
  cov_data.convert_to_sum (cov_data.convert_to_mean d) = d.
Proof.
  intros Hwf H1 Hfin.
  destruct (count_divisors (cov_data.count_ d)) as (Hc & Hsub & Hc1);
    [apply Hwf|done|].
  destruct Hwf as (Hlen & Hrows & _). destruct d as [v m n].
  cbn [cov_data.data_ cov_data.data2_ cov_data.count_] in *.
  unfold cov_data.convert_to_sum, cov_data.convert_to_mean. simpl_fields.
  rewrite Hsub. f_equal.
  - by apply column_roundtrip.
  - apply matrix_roundtrip; [done|]. apply scaled_outer_finite.
    + unfold vdiv. apply Forall_fmap. eapply Forall_impl; [exact Hfin|].
      intros x Hx. cbn. by rewrite rdiv_is_finite.
    + by rewrite length_vdiv.
    + by rewrite length_vdiv.
Qed.

Lemma reduce_sums_at_root (root : nat) (ds : list cov_data.t) (d : cov_data.t) :
  Forall (λ e, cov_data.wf e ∧ 1 < cov_data.count_ e
               ∧ Forall (λ x, is_finite x = true) (cov_data.data_ e)) ds →
  ds !! root = Some d → (0 < cov_data.size d)%nat →
  let w := (λ e, cov_result.of_data (cov_data.convert_to_mean e)) <$> ds in
  ∃ w',
    reduction.reduce root true true w = Ok w' tt
    ∧ length w' = length ds
    ∧ w' !! root
      = Some (cov_result.of_data (cov_data.convert_to_mean (sum_stores ds)))
    ∧ (∀ i r, i ≠ root → w' !! i = Some r → cov_result.store_ r = None).
Proof.
  intros Hds Hd Hsize w.
  set (ms := cov_data.convert_to_mean <$> ds).
  assert (Hw : w = cov_result.of_data <$> ms).
  { unfold w, ms. by rewrite <-list_fmap_compose. }
  assert (HS : cov_data.convert_to_sum <$> ms = ds).
  { unfold ms. rewrite <-list_fmap_compose.
    rewrite <-(list_fmap_id ds) at 2. apply Forall_fmap_ext.
    eapply Forall_impl; [exact Hds|]. intros e (Hwf & Hc & Hfin). cbn.
    by apply convert_to_sum_of_mean. }
  pose proof (Forall_lookup_1 _ _ _ _ Hds Hd) as (Hwfd & Hcd & Hfind).
  assert (Hm : ms !! root = Some (cov_data.convert_to_mean d)).
  { unfold ms. by rewrite list_lookup_fmap, Hd. }
  exists (reduction.post_commit_phase root (reduction.pre_commit_phase root ms)).
  split_and!.
  - unfold reduction.reduce.
    by rewrite Hw, forallb_valid_of_data, omap_store_of_data.
  - unfold reduction.post_commit_phase.
    rewrite length_imap, length_pre_commit_phase. unfold ms.
    by rewrite length_fmap.
  - rewrite post_commit_phase_lookup.
    rewrite (pre_commit_phase_lookup _ _ _ _ Hm). rewrite HS.
    rewrite (convert_to_sum_of_mean d) by done.
    cbn [fmap option_fmap option_map]. rewrite bool_decide_eq_true_2 by done.
    do 3 f_equal. unfold sum_stores.
    rewrite !reduce_buffer_root.
    + assert ((λ e, [cov_data.count_ e]) <$> ds
              = (λ c, [c]) <$> (cov_data.count_ <$> ds)) as ->
        by by rewrite <-list_fmap_compose.
      destruct ds as [|d0 ds0]; [done|].
      rewrite (mpi_sum_counts _ (cov_data.count_ d0)); [done|done|].
      apply Forall_cons in Hds as [(Hwf0 & _) _]. apply Hwf0.
    + done.
    + destruct Hwfd as (Hlen & _). rewrite Hlen.
      unfold cov_data.size in Hsize. lia.
    + unfold cov_data.size in Hsize. lia.
  - intros i r Hne Hr. rewrite post_commit_phase_lookup in Hr.
    destruct (_ !! i) as [e|]; [|done]. cbn in Hr.
    rewrite bool_decide_eq_false_2 in Hr by done. by injection Hr as <-.
Qed.

(** X13.  Merging results is accumulating their sums.  Let the ranks hold the
    results of stores [ds] in sum form, each with more than one sample and
    finite sums.  After [reduce] the root holds the result of the store whose
    sums and count are the sums over all ranks; every other rank has lost its
    store. *)
Theorem reduce_pools_the_sums (root : nat) (ds : list cov_data.t) (d : cov_data.t) :
  Forall (λ e, cov_data.wf e ∧ 1 < cov_data.count_ e
               ∧ Forall (λ x, is_finite x = true) (cov_data.data_ e)) ds →
  ds !! root = Some d → (0 < cov_data.size d)%nat →
  let w := (λ e, cov_result.of_data (cov_data.convert_to_mean e)) <$> ds in
  ∃ w',
    reduction.reduce root true true w = Ok w' tt
    ∧ length w' = length ds
    ∧ w' !! root
      = Some (cov_result.of_data (cov_data.convert_to_mean (sum_stores ds)))
    ∧ (∀ i r, i ≠ root → w' !! i = Some r → cov_result.store_ r = None).
Proof. exact (reduce_sums_at_root root ds d). Qed.

(** ** Sums over several streams *)

Section fold_zip.

Context {A : Type} (op : A → A → A) `{!Assoc (=) op}.

Lemma zip_with_assoc (a b c : list A) :
  zip_with op (zip_with op a b) c = zip_with op a (zip_with op b c).
Proof.
  revert b c. induction a as [|x a IH]; intros [|y b] [|z c]; try done.
  cbn. f_equal; [by rewrite (assoc op)|apply IH].
Qed.

Lemma foldl_zip_shift (vs : list (list A)) (a b : list A) :
  foldl (zip_with op) (zip_with op a b) vs
  = zip_with op a (foldl (zip_with op) b vs).
Proof.
  revert b. induction vs as [|v vs IH]; intros b; [done|].
  cbn [foldl]. by rewrite zip_with_assoc, IH.
Qed.

Variable zs : list A.
Variable shaped : list A → Prop.
Hypothesis shaped_zs : shaped zs.
Hypothesis shaped_op : ∀ a b, shaped a → shaped b → shaped (zip_with op a b).
Hypothesis right_zero : ∀ a, shaped a → zip_with op a zs = a.

Lemma foldl_zip_shaped (vs : list (list A)) (a : list A) :
  shaped a → Forall shaped vs → shaped (foldl (zip_with op) a vs).
Proof.
  intros Ha Hvs. revert a Ha. induction Hvs as [|v vs Hv _ IH]; intros a Ha; [done|].
  cbn [foldl]. apply IH. by apply shaped_op.
Qed.

Lemma foldl_zip_app (xs ys : list (list A)) :
  Forall shaped xs →
  foldl (zip_with op) zs (xs ++ ys)
  = zip_with op (foldl (zip_with op) zs xs) (foldl (zip_with op) zs ys).
Proof.
  intros Hxs. rewrite foldl_app, <-foldl_zip_shift.
  by rewrite right_zero by (by apply foldl_zip_shaped).
Qed.

(** The sum over the ranks of the sums of their streams is the sum of the
    concatenated streams. *)
Lemma mpi_sum_of_sums (xss : list (list (list A))) :
  xss ≠ [] → Forall (Forall shaped) xss →
  mpi_reducer.mpi_sum op (foldl (zip_with op) zs <$> xss)
  = foldl (zip_with op) zs (concat xss).
Proof.
  destruct xss as [|xs xss]; [done|]. intros _ Hall.
  apply Forall_cons in Hall as [Hxs Hxss].
  cbn [fmap list_fmap mpi_reducer.mpi_sum concat].
  revert xs Hxs. induction Hxss as [|ys yss Hys _ IH]; intros xs Hxs.
  - cbn. by rewrite app_nil_r.
  - cbn [fmap list_fmap foldl concat]. rewrite <-foldl_zip_app by done.
    rewrite IH by (by apply Forall_app). by rewrite app_assoc.
Qed.

End fold_zip.

#[local] Instance radd_assoc : Assoc (=) radd.
Proof.
  intros [a|] [b|] [c|]; try done. unfold radd. cbn. f_equal. by ring.
Qed.

#[local] Instance vadd_assoc : Assoc (=) vadd.
Proof. intros a b c. symmetry. apply (zip_with_assoc radd). Qed.

Lemma vadd_zero_r (v : list real) n :
  length v = n → vadd v (replicate n rzero) = v.
Proof.
  intros <-. induction v as [|x v IH]; [done|]. cbn. f_equal; [|done].
  destruct x; [|done]. cbn. f_equal. by ring.
Qed.

Lemma madd_zero_r (m : list (list real)) (n : nat) :
  square n m → madd m (replicate n (replicate n rzero)) = m.
Proof.
  intros [Hlen Hrows]. unfold madd. apply list_eq. intros i.
  rewrite lookup_zip_with.
  destruct (m !! i) as [r|] eqn:Hr; [|done].
  rewrite lookup_replicate_2 by (rewrite <-Hlen; by eapply lookup_lt_Some).
  cbn. f_equal. apply vadd_zero_r. by eapply (Forall_lookup_1 _ _ _ _ Hrows).
Qed.

Lemma madd_square (n : nat) (a b : list (list real)) :
  square n a → square n b → square n (madd a b).
Proof.
  intros [Hla Hra] [Hlb Hrb]. split.
  - unfold madd. rewrite length_zip_with. lia.
  - by apply (zip_with_rows radd).
Qed.

Lemma outer_square (v : list real) : square (length v) (outer v v).
Proof. split; [apply length_outer|apply outer_rows]. Qed.

Lemma fmap_concat_list {A B} (f : A → B) (ls : list (list A)) :
  f <$> concat ls = concat (fmap (M:=list) f <$> ls).
Proof.
  induction ls as [|l ls IH]; [done|]. cbn. by rewrite fmap_app, IH.
Qed.

Lemma length_concat_sum {A} (ls : list (list A)) :
  Z.of_nat (length (concat ls)) = foldr Z.add 0 ((λ l, Z.of_nat (length l)) <$> ls).
Proof.
  induction ls as [|l ls IH]; [done|]. cbn. rewrite length_app. lia.
Qed.

Lemma vsum_finite (init : list real) (vs : list (list real)) :
  Forall (λ x, is_finite x = true) init →
  Forall (Forall (λ x, is_finite x = true)) vs →
  Forall (λ x, is_finite x = true) (vsum init vs).
Proof.
  intros Hinit Hvs. revert init Hinit. unfold vsum.
  induction Hvs as [|v vs Hv _ IH]; intros init Hinit; [done|].
  cbn [foldl]. apply IH. unfold vadd. apply Forall_lookup. intros i z Hz.
  apply lookup_zip_with_Some in Hz as (x & y & -> & Hx & Hy).
  pose proof (Forall_lookup_1 _ _ _ _ Hinit Hx) as Hfx.
  pose proof (Forall_lookup_1 _ _ _ _ Hv Hy) as Hfy. cbn in Hfx, Hfy.
  by destruct x, y.
Qed.

Lemma result_after_feed (n : nat) (xs : list computed.t) :
  Forall (λ x, computed.column_like x = true ∧ computed.size x = n) xs →
  Z.of_nat (length xs) < size_t_modulus →
  (feed (cov_acc.new n 1) xs >>> λ a _, cov_acc.result a)
  = Ok (cov_acc.mk (Some (stream_sums n xs)) (bundle.new n 1) None)
       (cov_result.of_data (cov_data.convert_to_mean (stream_sums n xs))).
Proof.
  intros Hxs Hlen. rewrite feed_accumulates_sums by done. cbn [bind].
  by erewrite result_valid.
Qed.

Lemma stream_sums_wf (n : nat) (xs : list computed.t) :
  Forall (λ x, computed.column_like x = true ∧ computed.size x = n) xs →
  Z.of_nat (length xs) < size_t_modulus →
  cov_data.wf (stream_sums n xs) ∧ cov_data.size (stream_sums n xs) = n.
Proof.
  intros Hxs Hlen.
  assert (length (cov_data.data_ (stream_sums n xs)) = n) as Hdata.
  { cbn. apply length_vsum; [apply length_replicate|].
    apply Forall_fmap. eapply Forall_impl; [exact Hxs|].
    intros x [Hcolx Hx]. cbn. by rewrite length_values. }
  assert (square n (cov_data.data2_ (stream_sums n xs))) as [Hl Hr].
  { cbn. unfold msum.
    apply (foldl_zip_shaped vadd (square n)).
    - intros a b. apply madd_square.
    - split; [apply length_replicate|].
      apply Forall_replicate, length_replicate.
    - apply Forall_fmap. eapply Forall_impl; [exact Hxs|].
      intros x [Hcolx Hx]. cbn. rewrite <-Hx, <-length_values by done.
      apply outer_square. }
  split; [|done]. unfold cov_data.wf. rewrite Hdata.
  split_and!; [done|done|]. cbn. unfold is_size_t. lia.
Qed.

Lemma sum_stream_sums (n : nat) (xss : list (list computed.t)) :
  xss ≠ [] →
  Forall (Forall (λ x, computed.column_like x = true ∧ computed.size x = n)) xss →
  Z.of_nat (length (concat xss)) < size_t_modulus →
  sum_stores (stream_sums n <$> xss) = stream_sums n (concat xss).
Proof.
  intros Hne Hall Hlen. unfold sum_stores, stream_sums. f_equal.
  - rewrite <-list_fmap_compose.
    change (cov_data.data_ ∘ _)
      with (vsum (replicate n rzero) ∘ fmap (M:=list) computed.values).
    rewrite (list_fmap_compose (fmap (M:=list) computed.values) (vsum (replicate n rzero))).
    unfold vsum, vadd.
    rewrite (mpi_sum_of_sums radd _ (λ v, length v = n)).
    + by rewrite fmap_concat_list.
    + apply length_replicate.
    + intros a b Ha Hb. rewrite length_zip_with. lia.
    + intros a Ha. by apply vadd_zero_r.
    + by destruct xss.
    + apply Forall_fmap. eapply Forall_impl; [exact Hall|].
      intros xs Hxs. cbn. apply Forall_fmap. eapply Forall_impl; [exact Hxs|].
      intros x [Hcolx Hx]. cbn. by rewrite length_values.
  - rewrite <-list_fmap_compose.
    change (cov_data.data2_ ∘ _)
      with (msum (replicate n (replicate n rzero))
            ∘ fmap (M:=list) (λ x, outer (computed.values x) (computed.values x))).
    rewrite (list_fmap_compose
               (fmap (M:=list) (λ x, outer (computed.values x) (computed.values x)))
               (msum (replicate n (replicate n rzero)))).
    unfold msum, madd.
    rewrite (mpi_sum_of_sums vadd _ (square n)).
    + by rewrite fmap_concat_list.
    + split; [apply length_replicate|].
      apply Forall_replicate, length_replicate.
    + intros a b. apply madd_square.
    + intros a Ha. by apply madd_zero_r.
    + by destruct xss.
    + apply Forall_fmap. eapply Forall_impl; [exact Hall|].
      intros xs Hxs. cbn. apply Forall_fmap. eapply Forall_impl; [exact Hxs|].
      intros x [Hcolx Hx]. cbn. rewrite <-Hx, <-length_values by done.
      apply outer_square.
  - rewrite <-list_fmap_compose.
    change (cov_data.count_ ∘ _) with (λ xs : list computed.t, Z.of_nat (length xs)).
    rewrite <-length_concat_sum. apply Z.mod_small. lia.
Qed.

Lemma length_le_concat {A} (ls : list (list A)) (l : list A) :
  l ∈ ls → (length l ≤ length (concat ls))%nat.
Proof.
  induction 1 as [l ls|l l' ls _ IH]; cbn; rewrite length_app; lia.
Qed.

Lemma results_of_streams (n : nat) (xss : list (list computed.t))
    (w : list cov_result.t) :
  Forall (Forall (λ x, computed.column_like x = true ∧ computed.size x = n)) xss →
  (∀ xs, xs ∈ xss → Z.of_nat (length xs) < size_t_modulus) →
  Forall2 (λ xs r, ∃ a, (feed (cov_acc.new n 1) xs >>> λ a _, cov_acc.result a) = Ok a r)
          xss w →
  w = (λ xs, cov_result.of_data (cov_data.convert_to_mean (stream_sums n xs))) <$> xss.
Proof.
  intros Hsizes Hshort Hw.
  induction Hw as [|xs r xss w [a Hr] _ IH]; [done|].
  apply Forall_cons in Hsizes as [Hxs Hxss].
  cbn [fmap list_fmap]. f_equal.
  - rewrite result_after_feed in Hr; [by injection Hr as _ <-|done|].
    apply Hshort. by left.
  - apply IH; [done|]. intros ys Hys. apply Hshort. by right.
Qed.

(** X14.  Parallel accumulation agrees with sequential accumulation.  Let every
    rank feed its own stream of at least two finite samples of size [n] to
    an accumulator with bundles of one and take its [result()].  Reducing
    those results leaves on the root the very result that one accumulator
    returns after the concatenation of all the streams. *)
Theorem parallel_streams_merge (n root : nat) (xss : list (list computed.t))
    (w : list cov_result.t) :
  (0 < n)%nat → (root < length xss)%nat →
  Forall (λ xs, (1 < length xs)%nat
                ∧ Forall (λ x, computed.column_like x = true
                               ∧ computed.size x = n
                               ∧ Forall (λ c, is_finite c = true) (computed.values x))
                         xs) xss →
  Z.of_nat (length (concat xss)) < size_t_modulus →
  Forall2 (λ xs r, ∃ a, (feed (cov_acc.new n 1) xs >>> λ a _, cov_acc.result a) = Ok a r)
          xss w →
  ∃ w' a r,
    reduction.reduce root true true w = Ok w' tt
    ∧ (feed (cov_acc.new n 1) (concat xss) >>> λ a _, cov_acc.result a) = Ok a r
    ∧ w' !! root = Some r
    ∧ cov_result.store_ r = Some (cov_data.convert_to_mean (stream_sums n (concat xss)))
    ∧ (∀ i r', i ≠ root → w' !! i = Some r' → cov_result.store_ r' = None).
Proof.
  intros Hn Hroot Hall Hlen Hw.
  assert (Hsizes : Forall (Forall (λ x, computed.column_like x = true
                                          ∧ computed.size x = n)) xss).
  { eapply Forall_impl; [exact Hall|]. intros xs [_ Hxs]. cbn.
    eapply Forall_impl; [exact Hxs|]. by intros x (? & ? & _). }
  assert (Hshort : ∀ xs, xs ∈ xss → Z.of_nat (length xs) < size_t_modulus).
  { intros xs Hin. apply length_le_concat in Hin. lia. }
  assert (Hweq : w = (λ e, cov_result.of_data (cov_data.convert_to_mean e))
                       <$> (stream_sums n <$> xss)).
  { rewrite <-list_fmap_compose. by apply results_of_streams. }
  apply lookup_lt_is_Some in Hroot as [xs0 Hxs0].
  destruct (reduce_sums_at_root root (stream_sums n <$> xss) (stream_sums n xs0))
    as (w' & Hred & _ & Hroot' & Hothers).
  - apply Forall_fmap. apply Forall_forall. intros xs Hin. cbn.
    pose proof (proj1 (Forall_forall _ _) Hall xs Hin) as [Hmany Hxs].
    pose proof (proj1 (Forall_forall _ _) Hsizes xs Hin) as Hsz.
    destruct (stream_sums_wf n xs Hsz (Hshort xs Hin)) as [Hwf _].
    split_and!; [done|cbn; lia|].
    cbn. apply vsum_finite.
    + by apply Forall_replicate.
    + apply Forall_fmap. eapply Forall_impl; [exact Hxs|].
      by intros x (_ & _ & ?).
  - by rewrite list_lookup_fmap, Hxs0.
  - apply list_elem_of_lookup_2 in Hxs0 as Hin.
    pose proof (proj1 (Forall_forall _ _) Hsizes xs0 Hin) as Hsz.
    destruct (stream_sums_wf n xs0 Hsz (Hshort xs0 Hin)) as [_ ->]. done.
  - rewrite sum_stream_sums in Hroot'; [|by destruct xss|done|done].
    eexists w', _, _. split_and!.
    + by rewrite Hweq.
    + apply result_after_feed; [|done].
      clear -Hsizes. induction Hsizes as [|xs xss Hxs _ IH]; [done|].
      cbn. by apply Forall_app.
    + done.
    + done.
    + done.
Qed.

(** * Further properties of the helpers *)

(** ** Strings *)

Lemma npos_value : hdf5.npos = 18446744073709551615.
Proof. reflexivity. Qed.

Lemma size_t_add_small a b :
  0 ≤ a + b < size_t_modulus → size_t_add a b = a + b.
Proof. intros H. unfold size_t_add, size_t_wrap. by rewrite Z.mod_small. Qed.

Lemma list_find_eq_cons (c x : ascii) (l : list ascii) :
  list_find (λ y, y = c) (x :: l)
  = if decide (x = c) then Some (0%nat, x)
    else prod_map S id <$> list_find (λ y, y = c) l.
Proof. reflexivity. Qed.

Lemma list_find_eq_absent (c : ascii) (l : list ascii) :
  c ∉ l → list_find (λ y, y = c) l = None.
Proof.
  intros H. apply list_find_None, Forall_forall. intros x Hx ->. done.
Qed.

Lemma find_first_of_at (r a b : list ascii) (c : ascii) (pos : Z) :
  r = a ++ b → pos = Z.of_nat (length a) →
  hdf5.find_first_of r c pos
  = match list_find (λ y, y = c) b with
    | Some (i, _) => pos + Z.of_nat i
    | None => hdf5.npos
    end.
Proof.
  intros -> ->. unfold hdf5.find_first_of.
  by rewrite Nat2Z.id, drop_app_length.
Qed.

Lemma find_first_of_here (r a b : list ascii) (c : ascii) (pos : Z) :
  r = a ++ c :: b → pos = Z.of_nat (length a) →
  hdf5.find_first_of r c pos = pos.
Proof.
  intros Hr Hp. rewrite (find_first_of_at _ _ _ _ _ Hr Hp), list_find_eq_cons.
  rewrite decide_True by done. lia.
Qed.

Lemma find_first_of_skip (a mid b : list ascii) (c : ascii) :
  c ∉ mid →
  hdf5.find_first_of (a ++ mid ++ b) c (Z.of_nat (length a))
  = hdf5.find_first_of ((a ++ mid) ++ b) c (Z.of_nat (length (a ++ mid))).
Proof.
  intros Hmid.
  rewrite (find_first_of_at _ a (mid ++ b) c _ eq_refl eq_refl).
  rewrite (find_first_of_at _ (a ++ mid) b c _ eq_refl eq_refl).
  rewrite list_find_app_r by by apply list_find_eq_absent.
  destruct (list_find _ b) as [[i x]|]; cbn; [|done].
  rewrite length_app. lia.
Qed.

Lemma find_first_of_absent (r : list ascii) (c : ascii) :
  c ∉ r → hdf5.find_first_of r c 0 = hdf5.npos.
Proof.
  intros H. rewrite (find_first_of_at r [] r c 0 eq_refl eq_refl).
  by rewrite list_find_eq_absent.
Qed.

Lemma substr_at (r a b : list ascii) (pos n : Z) :
  r = a ++ b → pos = Z.of_nat (length a) → 0 ≤ n →
  hdf5.substr r pos n = Some (take (Z.to_nat n) b).
Proof.
  intros -> -> Hn. unfold hdf5.substr.
  rewrite decide_False by (rewrite length_app; lia).
  rewrite Nat2Z.id, drop_app_length. f_equal.
  rewrite length_app.
  destruct (decide (n ≤ Z.of_nat (length b))).
  - f_equal. lia.
  - rewrite !take_ge by lia. done.
Qed.

Lemma substr_prefix (r a b : list ascii) (pos : Z) :
  r = a ++ b → pos = Z.of_nat (length a) → hdf5.substr r 0 pos = Some a.
Proof.
  intros -> ->. rewrite (substr_at (a ++ b) [] (a ++ b) 0 _ eq_refl eq_refl) by lia.
  by rewrite Nat2Z.id, take_app_length.
Qed.

Lemma substr_suffix (r a b : list ascii) (pos : Z) :
  r = a ++ b → pos = Z.of_nat (length a) →
  Z.of_nat (length b) < hdf5.npos →
  hdf5.substr r pos hdf5.npos = Some b.
Proof.
  intros Hr Hp Hb. rewrite (substr_at _ _ _ _ _ Hr Hp) by done.
  by rewrite take_ge by lia.
Qed.

Lemma substr_past_end (r : list ascii) (pos n : Z) :
  Z.of_nat (length r) < pos → hdf5.substr r pos n = None.
Proof. intros H. unfold hdf5.substr. by rewrite decide_True. Qed.

(** ** [encode_segment] *)

Lemma encode_loop_end str fuel c r pos :
  ¬ pos < hdf5.npos → hdf5.encode_loop str fuel c r pos = hdf5.Done r.
Proof. intros H. destruct fuel; cbn; by rewrite decide_False. Qed.

Lemma encode_loop_step str fuel c r pos :
  pos < hdf5.npos →
  hdf5.encode_loop str (S fuel) c r pos
  = match hdf5.encode_step str c r pos with
    | None => hdf5.Raise hdf5.std_out_of_range
    | Some r1 =>
        hdf5.encode_loop str fuel c r1 (hdf5.find_first_of r1 c (size_t_add pos 1))
    end.
Proof. intros H. cbn [hdf5.encode_loop]. by rewrite decide_True. Qed.

Lemma length_replace_chars c rep (l : list ascii) :
  rep ≠ [] →
  (length l ≤ length (concat (hdf5.replace_char c rep <$> l)))%nat.
Proof.
  intros Hrep. induction l as [|x l IH]; [done|].
  cbn [fmap list_fmap concat]. rewrite length_app. unfold hdf5.replace_char at 1.
  destruct (decide (x = c)); cbn [length]; [|lia].
  destruct rep; [done|]. cbn [length]. lia.
Qed.

Lemma encode_loop_replaces str c rest : ∀ pre fuel,
  c ∉ "#"%char :: str (hdf5.int_of_char c) ++ [";"%char] →
  (length rest < fuel)%nat →
  Z.of_nat (length pre)
    + Z.of_nat (length (concat (hdf5.replace_char c (hdf5.escape str c) <$> rest)))
    < hdf5.npos →
  hdf5.encode_loop str fuel c (pre ++ rest)
    (hdf5.find_first_of (pre ++ rest) c (Z.of_nat (length pre)))
  = hdf5.Done (pre ++ concat (hdf5.replace_char c (hdf5.escape str c) <$> rest)).
Proof.
  induction rest as [|x rest IH]; intros pre fuel Hc Hfuel Hlen.
  - rewrite (find_first_of_at _ pre [] c _ eq_refl eq_refl). cbn [list_find].
    rewrite encode_loop_end by lia. done.
  - assert (hdf5.escape str c ≠ []) as Hne by done.
    pose proof (length_replace_chars c _ rest Hne) as Hle.
    cbn [fmap list_fmap concat] in Hlen |- *. rewrite length_app in Hlen.
    unfold hdf5.replace_char at 1 in Hlen. unfold hdf5.replace_char at 1.
    destruct (decide (x = c)) as [->|Hx].
    + rewrite (find_first_of_here _ pre rest c _ eq_refl eq_refl).
      destruct fuel as [|fuel]; [cbn in Hfuel; lia|].
      assert (0 < Z.of_nat (length (hdf5.escape str c))).
      { unfold hdf5.escape. cbn [app length]. lia. }
      rewrite encode_loop_step by lia.
      unfold hdf5.encode_step.
      rewrite (substr_prefix _ pre (c :: rest) _ eq_refl eq_refl). cbn [mbind option_bind].
      rewrite size_t_add_small by (rewrite npos_value in *; unfold size_t_modulus; lia).
      rewrite (substr_suffix _ (pre ++ [c]) rest);
        [|by rewrite <-app_assoc|rewrite length_app; cbn; lia|lia].
      cbn [mbind option_bind].
      replace (pre ++ ["&"%char; "#"%char] ++ str (hdf5.int_of_char c) ++ [";"%char] ++ rest)
        with ((pre ++ ["&"%char]) ++ ("#"%char :: str (hdf5.int_of_char c) ++ [";"%char]) ++ rest)
        by (rewrite <-!app_assoc; cbn; by rewrite <-!app_assoc).
      replace (Z.of_nat (length pre) + 1) with (Z.of_nat (length (pre ++ ["&"%char])))
        by (rewrite length_app; cbn; lia).
      rewrite find_first_of_skip by done.
      replace ((pre ++ ["&"%char]) ++ "#"%char :: str (hdf5.int_of_char c) ++ [";"%char])
        with (pre ++ hdf5.escape str c)
        by (unfold hdf5.escape; rewrite <-!app_assoc; done).
      replace ((pre ++ ["&"%char]) ++ ("#"%char :: str (hdf5.int_of_char c) ++ [";"%char]) ++ rest)
        with ((pre ++ hdf5.escape str c) ++ rest)
        by (unfold hdf5.escape; rewrite <-!app_assoc; cbn; by rewrite <-!app_assoc).
      rewrite IH; [by rewrite <-app_assoc|done|cbn in Hfuel; lia|].
      rewrite length_app. lia.
    + assert (hdf5.find_first_of (pre ++ x :: rest) c (Z.of_nat (length pre))
              = hdf5.find_first_of ((pre ++ [x]) ++ rest) c (Z.of_nat (length (pre ++ [x]))))
        as -> by (apply (find_first_of_skip pre [x] rest); rewrite list_elem_of_singleton; congruence).
      replace (pre ++ x :: rest) with ((pre ++ [x]) ++ rest) by by rewrite <-app_assoc.
      rewrite IH; [by rewrite <-app_assoc|done|cbn in Hfuel; lia|].
      rewrite length_app. cbn [length] in *. lia.
Qed.

Lemma replace_twice_is_encode_char (s : list ascii) :
  concat (hdf5.replace_char "/" hdf5.slash_escape
            <$> concat (hdf5.replace_char "&" hdf5.amp_escape <$> s))
  = concat (hdf5.encode_char <$> s).
Proof.
  induction s as [|x s IH]; [done|].
  cbn [fmap list_fmap concat]. rewrite fmap_app, concat_app.
  change (list_fmap ascii (list ascii)) with (@fmap list _ ascii (list ascii)).
  rewrite IH. f_equal.
  unfold hdf5.replace_char at 2, hdf5.encode_char.
  destruct (decide (x = "&"%char)) as [->|Hamp]; [done|].
  cbn [fmap list_fmap concat]. unfold hdf5.replace_char.
  destruct (decide (x = "/"%char)); by rewrite app_nil_r.
Qed.

Lemma length_encode_chars (s : list ascii) :
  (length (concat (hdf5.encode_char <$> s)) ≤ 5 * length s)%nat.
Proof.
  induction s as [|x s IH]; [done|].
  cbn [fmap list_fmap concat]. rewrite length_app. unfold hdf5.encode_char at 1.
  destruct (decide (x = "&"%char));
    [change (length hdf5.amp_escape) with 5%nat; cbn [length]; lia|].
  destruct (decide (x = "/"%char));
    [change (length hdf5.slash_escape) with 5%nat|]; cbn [length]; lia.
Qed.

Lemma length_replace_amp (s : list ascii) :
  (length (concat (hdf5.replace_char "&" hdf5.amp_escape <$> s)) ≤ 5 * length s)%nat.
Proof.
  induction s as [|x s IH]; [done|].
  cbn [fmap list_fmap concat]. rewrite length_app. unfold hdf5.replace_char at 1.
  destruct (decide (x = "&"%char));
    [change (length hdf5.amp_escape) with 5%nat|]; cbn [length]; lia.
Qed.

Lemma encode_chars_no_slash (s : list ascii) :
  "/"%char ∉ concat (hdf5.encode_char <$> s).
Proof.
  induction s as [|x s IH]; cbn [fmap list_fmap concat]; [by apply not_elem_of_nil|].
  rewrite elem_of_app. intros [H|H]; [|done].
  unfold hdf5.encode_char in H.
  destruct (decide (x = "&"%char)).
  { by repeat (apply elem_of_cons in H as [H|H]; [discriminate H|]); apply elem_of_nil in H. }
  destruct (decide (x = "/"%char)).
  { by repeat (apply elem_of_cons in H as [H|H]; [discriminate H|]); apply elem_of_nil in H. }
  apply list_elem_of_singleton in H. congruence.
Qed.

Lemma encode_loop_from_start str c (s : list ascii) fuel :
  c ∉ "#"%char :: str (hdf5.int_of_char c) ++ [";"%char] →
  (length s < fuel)%nat →
  Z.of_nat (length (concat (hdf5.replace_char c (hdf5.escape str c) <$> s)))
    < hdf5.npos →
  hdf5.encode_loop str fuel c s (hdf5.find_first_of s c 0)
  = hdf5.Done (concat (hdf5.replace_char c (hdf5.escape str c) <$> s)).
Proof.
  intros Hc Hfuel Hlen.
  by apply (encode_loop_replaces str c s [] fuel).
Qed.

Lemma encode_segment_is_encode_chars str fuel (s : list ascii) :
  str 38 = ["3"; "8"]%char → str 47 = ["4"; "7"]%char →
  (5 * length s < fuel)%nat →
  5 * Z.of_nat (length s) < hdf5.npos →
  hdf5.encode_segment str fuel s = hdf5.Done (concat (hdf5.encode_char <$> s)).
Proof.
  intros H38 H47 Hfuel Hlen.
  assert (hdf5.escape str "&" = hdf5.amp_escape) as Hamp.
  { unfold hdf5.escape. change (hdf5.int_of_char "&") with 38. by rewrite H38. }
  assert (hdf5.escape str "/" = hdf5.slash_escape) as Hslash.
  { unfold hdf5.escape. change (hdf5.int_of_char "/") with 47. by rewrite H47. }
  pose proof (length_replace_amp s) as L1.
  pose proof (length_encode_chars s) as L2.
  unfold hdf5.encode_segment. cbn [hdf5.encode_chars].
  rewrite encode_loop_from_start; cycle 1.
  { change (hdf5.int_of_char "&") with 38. rewrite H38.
    intros H. by repeat (apply elem_of_cons in H as [H|H]; [discriminate H|]); apply elem_of_nil in H. }
  { lia. }
  { rewrite Hamp. lia. }
  rewrite Hamp.
  rewrite encode_loop_from_start; cycle 1.
  { change (hdf5.int_of_char "/") with 47. rewrite H47.
    intros H. by repeat (apply elem_of_cons in H as [H|H]; [discriminate H|]); apply elem_of_nil in H. }
  { lia. }
  { rewrite Hslash, replace_twice_is_encode_char. lia. }
  by rewrite Hslash, replace_twice_is_encode_char.
Qed.

(** X16.  [encode_segment] writes every [&] of the segment as [&#38;], every
    [/] as [&#47;] and every other character as it is, whenever the lexical
    cast prints 38 and 47 in decimal; the encoded segment holds no [/]. *)
Theorem encode_segment_escapes str fuel (s : list ascii) :
  str 38 = ["3"; "8"]%char → str 47 = ["4"; "7"]%char →
  (5 * length s < fuel)%nat →
  5 * Z.of_nat (length s) < hdf5.npos →
  hdf5.encode_segment str fuel s = hdf5.Done (concat (hdf5.encode_char <$> s))
  ∧ "/"%char ∉ concat (hdf5.encode_char <$> s).
Proof.
  intros H38 H47 Hfuel Hlen. split.
  - by apply encode_segment_is_encode_chars.
  - apply encode_chars_no_slash.
Qed.

(** ** [decode_segment] *)

Lemma decode_loop_end int fuel r pos :
  ¬ pos < hdf5.npos → hdf5.decode_loop int fuel r pos = hdf5.Done r.
Proof. intros H. destruct fuel; cbn; by rewrite decide_False. Qed.

Lemma decode_loop_step int fuel r pos :
  pos < hdf5.npos →
  hdf5.decode_loop int (S fuel) r pos
  = match hdf5.decode_step int r pos with
    | inl e => hdf5.Raise e
    | inr r1 =>
        hdf5.decode_loop int fuel r1 (hdf5.find_first_of r1 "&" (size_t_add pos 1))
    end.
Proof. intros H. cbn [hdf5.decode_loop]. by rewrite decide_True. Qed.

Lemma decode_step_escape int (pre t : list ascii) (a b : ascii) (code : Z) :
  int [a; b] = Some code → a ≠ ";"%char → b ≠ ";"%char →
  Z.of_nat (length pre) + 5 + Z.of_nat (length t) < hdf5.npos →
  hdf5.decode_step int (pre ++ "&"%char :: "#"%char :: a :: b :: ";"%char :: t)
    (Z.of_nat (length pre))
  = inr (pre ++ [hdf5.char_of_int code] ++ t).
Proof.
  intros Hint Ha Hb Hlen. rewrite npos_value in Hlen. unfold hdf5.decode_step.
  rewrite (find_first_of_at _ pre _ ";" _ eq_refl eq_refl).
  rewrite !list_find_eq_cons.
  rewrite (decide_False (P := "&"%char = ";"%char)) by done.
  rewrite (decide_False (P := "#"%char = ";"%char)) by done.
  rewrite (decide_False (P := a = ";"%char)) by done.
  rewrite (decide_False (P := b = ";"%char)) by done.
  rewrite decide_True by done. cbn [fmap option_fmap option_map prod_map fst snd id].
  rewrite (substr_prefix _ pre _ _ eq_refl eq_refl).
  rewrite size_t_add_small by (unfold size_t_modulus; lia).
  replace (size_t_sub (size_t_sub (Z.of_nat (length pre) + Z.of_nat 4) (Z.of_nat (length pre))) 2)
    with 2.
  2:{ unfold size_t_sub, size_t_wrap.
      replace (Z.of_nat (length pre) + Z.of_nat 4 - Z.of_nat (length pre)) with 4 by lia.
      reflexivity. }
  rewrite (substr_at _ (pre ++ ["&"; "#"]%char) (a :: b :: ";"%char :: t));
    [|by rewrite <-app_assoc|rewrite length_app; cbn; lia|lia].
  change (take (Z.to_nat 2) (a :: b :: ";"%char :: t)) with [a; b]. rewrite Hint.
  rewrite size_t_add_small by (unfold size_t_modulus; lia).
  rewrite (substr_suffix _ (pre ++ ["&"; "#"; a; b; ";"]%char) t);
    [done|by rewrite <-app_assoc|rewrite length_app; cbn; lia|rewrite npos_value; lia].
Qed.

Lemma decode_loop_inverts int (rest : list ascii) : ∀ pre fuel,
  int ["3"; "8"]%char = Some 38 → int ["4"; "7"]%char = Some 47 →
  (length rest < fuel)%nat →
  Z.of_nat (length pre) + Z.of_nat (length (concat (hdf5.encode_char <$> rest)))
    < hdf5.npos →
  hdf5.decode_loop int fuel (pre ++ concat (hdf5.encode_char <$> rest))
    (hdf5.find_first_of (pre ++ concat (hdf5.encode_char <$> rest)) "&"
       (Z.of_nat (length pre)))
  = hdf5.Done (pre ++ rest).
Proof.
  induction rest as [|x rest IH]; intros pre fuel H38 H47 Hfuel Hlen.
  - cbn [fmap list_fmap concat].
    rewrite (find_first_of_at _ pre [] "&" _ eq_refl eq_refl). cbn [list_find].
    rewrite decode_loop_end by lia. done.
  - cbn [fmap list_fmap concat] in Hlen |- *. rewrite length_app in Hlen.
    change (list_fmap ascii (list ascii)) with (@fmap list _ ascii (list ascii)) in *.
    set (t := concat (hdf5.encode_char <$> rest)) in *.
    assert (∀ a b code, x = hdf5.char_of_int code → int [a; b] = Some code →
              a ≠ ";"%char → b ≠ ";"%char →
              hdf5.encode_char x = ["&"; "#"; a; b; ";"]%char →
              hdf5.decode_loop int fuel (pre ++ hdf5.encode_char x ++ t)
                (hdf5.find_first_of (pre ++ hdf5.encode_char x ++ t) "&"
                   (Z.of_nat (length pre)))
              = hdf5.Done (pre ++ x :: rest)) as Hescape.
    { intros a b code Hx Hint Ha Hb Henc. rewrite Henc in Hlen |- *.
      cbn [app length] in Hlen |- *.
      rewrite (find_first_of_here _ pre _ "&" _ eq_refl eq_refl).
      destruct fuel as [|fuel]; [cbn in Hfuel; lia|].
      rewrite decode_loop_step by lia.
      rewrite (decode_step_escape int pre t a b code) by (done || lia).
      rewrite <-Hx.
      rewrite size_t_add_small by (rewrite npos_value in *; unfold size_t_modulus; lia).
      replace (Z.of_nat (length pre) + 1) with (Z.of_nat (length (pre ++ [x])))
        by (rewrite length_app; cbn; lia).
      replace (pre ++ [x] ++ t) with ((pre ++ [x]) ++ t) by by rewrite <-app_assoc.
      unfold t. rewrite IH; [by rewrite <-app_assoc|done|done|cbn in Hfuel; lia|].
      rewrite length_app. fold t. cbn [length]. lia. }
    destruct (decide (x = "&"%char)) as [->|Hamp].
    { by apply (Hescape "3" "8" 38)%char. }
    destruct (decide (x = "/"%char)) as [->|Hslash].
    { by apply (Hescape "4" "7" 47)%char. }
    assert (hdf5.encode_char x = [x]) as Henc.
    { unfold hdf5.encode_char. by rewrite !decide_False by done. }
    rewrite Henc in Hlen |- *.
    assert (hdf5.find_first_of (pre ++ [x] ++ t) "&" (Z.of_nat (length pre))
            = hdf5.find_first_of ((pre ++ [x]) ++ t) "&" (Z.of_nat (length (pre ++ [x]))))
      as -> by (apply (find_first_of_skip pre [x] t); rewrite list_elem_of_singleton; congruence).
    replace (pre ++ [x] ++ t) with ((pre ++ [x]) ++ t) by by rewrite <-app_assoc.
    unfold t. rewrite IH; [by rewrite <-app_assoc|done|done|cbn in Hfuel; lia|].
    rewrite length_app. fold t. cbn [length] in *. lia.
Qed.

Lemma decode_of_encoded int fuel (s : list ascii) :
  int ["3"; "8"]%char = Some 38 → int ["4"; "7"]%char = Some 47 →
  (length s < fuel)%nat →
  Z.of_nat (length (concat (hdf5.encode_char <$> s))) < hdf5.npos →
  hdf5.decode_segment int fuel (concat (hdf5.encode_char <$> s)) = hdf5.Done s.
Proof.
  intros H38 H47 Hfuel Hlen. unfold hdf5.decode_segment.
  by apply (decode_loop_inverts int s [] fuel).
Qed.

(** X17.  [decode_segment] inverts [encode_segment]: with lexical casts that
    print 38 and 47 in decimal and read them back, every segment is encoded
    to a text that decodes to the segment. *)
Theorem decode_segment_inverts_encode_segment str int fuel (s : list ascii) :
  str 38 = ["3"; "8"]%char → str 47 = ["4"; "7"]%char →
  int ["3"; "8"]%char = Some 38 → int ["4"; "7"]%char = Some 47 →
  (5 * length s < fuel)%nat →
  5 * Z.of_nat (length s) < hdf5.npos →
  ∃ e, hdf5.encode_segment str fuel s = hdf5.Done e
     ∧ hdf5.decode_segment int fuel e = hdf5.Done s.
Proof.
  intros Hs38 Hs47 Hi38 Hi47 Hfuel Hlen.
  exists (concat (hdf5.encode_char <$> s)). split.
  - by apply encode_segment_is_encode_chars.
  - pose proof (length_encode_chars s).
    apply decode_of_encoded; [done|done|lia|lia].
Qed.

(** X18.  A segment without [&] is decoded to itself, whatever the lexical
    cast.  A segment whose only [&] is its last character is not: the digits
    are taken from two places after the [&], past the end of the text, and
    [std::out_of_range] is thrown. *)
Theorem decode_segment_edges int fuel (s : list ascii) :
  "&"%char ∉ s →
  hdf5.decode_segment int fuel s = hdf5.Done s
  ∧ (Z.of_nat (length s) + 1 < hdf5.npos →
     hdf5.decode_segment int (S fuel) (s ++ ["&"%char])
     = hdf5.Raise hdf5.std_out_of_range).
Proof.
  intros Hs. split.
  - unfold hdf5.decode_segment. rewrite find_first_of_absent by done.
    by apply decode_loop_end.
  - intros Hlen. unfold hdf5.decode_segment.
    rewrite (find_first_of_at (s ++ ["&"%char]) [] (s ++ ["&"%char]) "&" 0 eq_refl eq_refl).
    rewrite list_find_app_r by by apply list_find_eq_absent.
    rewrite list_find_eq_cons, decide_True by done.
    cbn [fmap option_fmap option_map prod_map fst snd id].
    match goal with
    | |- context [hdf5.decode_loop _ _ _ ?p] =>
        replace p with (Z.of_nat (length s)) by lia
    end.
    rewrite decode_loop_step by lia.
    unfold hdf5.decode_step.
    rewrite (substr_prefix _ s ["&"%char] _ eq_refl eq_refl).
    rewrite size_t_add_small by (rewrite npos_value in Hlen; unfold size_t_modulus; lia).
    rewrite substr_past_end; [done|].
    rewrite length_app. cbn [length]. lia.
Qed.

(** ** [complete_path] *)

Lemma find_last_of_at (a name : list ascii) (c : ascii) :
  c ∉ name → hdf5.find_last_of (a ++ c :: name) c = Z.of_nat (length a).
Proof.
  intros Hc. unfold hdf5.find_last_of.
  rewrite reverse_app, reverse_cons, <-app_assoc.
  rewrite list_find_app_r
    by (apply list_find_eq_absent; by rewrite elem_of_reverse).
  cbn [app]. rewrite list_find_eq_cons, decide_True by done.
  cbn [fmap option_fmap option_map prod_map fst snd id].
  rewrite length_reverse, length_app. cbn [length]. lia.
Qed.

Lemma path_of_snoc (segments : list (list ascii)) (name : list ascii) :
  hdf5.path_of (segments ++ [name]) = hdf5.path_of segments ++ "/"%char :: name.
Proof.
  unfold hdf5.path_of. rewrite fmap_app, concat_app. cbn. by rewrite app_nil_r.
Qed.

Lemma length_up (k : nat) : length (hdf5.up k) = (3 * k)%nat.
Proof. induction k as [|k IH]; [done|]. cbn. change (concat _) with (hdf5.up k). lia. Qed.

Lemma up_add (j k : nat) : hdf5.up (j + k) = hdf5.up j ++ hdf5.up k.
Proof. unfold hdf5.up. by rewrite replicate_add, concat_app. Qed.

Lemma substr_up_dotdot (k j : nat) (q : list ascii) :
  (j < k)%nat →
  hdf5.substr (hdf5.up k ++ q) (3 * Z.of_nat j) 2 = Some hdf5.dotdot.
Proof.
  intros Hj. replace k with (j + S (k - j - 1))%nat by lia.
  rewrite up_add, <-app_assoc.
  rewrite (substr_at _ (hdf5.up j) _ _ _ eq_refl) by (rewrite ?length_up; lia).
  done.
Qed.

Lemma substr_up_rest (k : nat) (q : list ascii) (n : Z) :
  0 ≤ n →
  hdf5.substr (hdf5.up k ++ q) (3 * Z.of_nat k) n = Some (take (Z.to_nat n) q).
Proof.
  intros Hn. by rewrite (substr_at _ (hdf5.up k) q _ _ eq_refl) by (rewrite ?length_up; lia).
Qed.

Lemma complete_path_loop_up (p : list ascii) (k : nat) :
  ∀ (tops base : list (list ascii)) (j0 fuel : nat),
  length tops = k →
  Forall (λ name, "/"%char ∉ name) tops →
  (∀ j, (j < k)%nat → hdf5.substr p (3 * Z.of_nat (j0 + j)) 2 = Some hdf5.dotdot) →
  3 * Z.of_nat (j0 + k) < size_t_modulus →
  hdf5.complete_path_loop (k + fuel) p (hdf5.path_of (base ++ tops)) (3 * Z.of_nat j0)
  = hdf5.complete_path_loop fuel p (hdf5.path_of base) (3 * Z.of_nat (j0 + k)).
Proof.
  induction k as [|k IH]; intros tops base j0 fuel Hk Hnames Hp Hi.
  - destruct tops; [|done]. rewrite app_nil_r. do 3 f_equal. lia.
  - destruct (decide (tops = [])) as [->|Hne]; [done|].
    destruct (exists_last Hne) as (tops' & name & ->).
    rewrite length_app in Hk. cbn in Hk.
    apply Forall_app in Hnames as [Hnames Hname].
    apply (proj1 (Forall_singleton _ _)) in Hname.
    rewrite app_assoc, path_of_snoc.
    cbn [Nat.add hdf5.complete_path_loop].
    rewrite bool_decide_eq_false_2 by (rewrite length_app; cbn; lia).
    pose proof (Hp 0%nat ltac:(lia)) as H0. rewrite Nat.add_0_r in H0. rewrite H0.
    rewrite bool_decide_eq_true_2 by done.
    rewrite find_last_of_at by done.
    rewrite (substr_prefix _ (hdf5.path_of (base ++ tops')) _ _ eq_refl eq_refl).
    rewrite size_t_add_small by lia.
    replace (3 * Z.of_nat j0 + 3) with (3 * Z.of_nat (S j0)) by lia.
    rewrite IH; [do 2 f_equal; lia|lia|done| |lia].
    intros j Hj. replace (S j0 + j)%nat with (j0 + S j)%nat by lia. apply Hp. lia.
Qed.

Lemma complete_path_loop_stops fuel (p s : list ascii) (i : Z) (two : list ascii) :
  (s = [] ∨ (hdf5.substr p i 2 = Some two ∧ two ≠ hdf5.dotdot)) →
  hdf5.complete_path_loop fuel p s i = hdf5.Done (s, i).
Proof.
  intros H. destruct fuel; cbn [hdf5.complete_path_loop];
    (destruct (decide (s = [])) as [->|Hs]; [done|]);
    (rewrite bool_decide_eq_false_2 by by destruct s);
    (destruct H as [?|[-> H]]; [done|]);
    by rewrite bool_decide_eq_false_2.
Qed.

Lemma complete_path_relative fuel (context q : list ascii) :
  head q ≠ Some "/"%char → take 2 q ≠ hdf5.dotdot →
  hdf5.complete_path fuel context q
  = hdf5.Done (context ++ hdf5.separator context q ++ q).
Proof.
  intros Hhead Hq. unfold hdf5.complete_path.
  rewrite bool_decide_eq_false_2 by done.
  rewrite (substr_at q [] q 0 2 eq_refl eq_refl) by lia.
  change (take (Z.to_nat 2) q) with (take 2 q).
  rewrite (bool_decide_eq_false_2 (Some (take 2 q) = Some hdf5.dotdot)) by congruence.
  by rewrite orb_true_r.
Qed.

Lemma complete_path_enters_loop fuel (context p : list ascii) :
  hdf5.substr p 0 2 = Some hdf5.dotdot →
  hdf5.complete_path fuel context p
  = match hdf5.complete_path_loop fuel p context 0 with
    | hdf5.Done (s, i) =>
        match hdf5.substr p i hdf5.npos with
        | None => hdf5.Raise hdf5.std_out_of_range
        | Some rest => hdf5.Done (s ++ hdf5.separator s rest ++ rest)
        end
    | hdf5.Raise e => hdf5.Raise e
    | hdf5.OutOfFuel => hdf5.OutOfFuel
    end.
Proof.
  intros Hp. unfold hdf5.complete_path. rewrite Hp.
  rewrite (substr_at p [] p 0 2 eq_refl eq_refl) in Hp by lia.
  destruct p as [|a [|b p]]; try done.
  injection Hp as -> ->.
  by rewrite bool_decide_eq_false_2 by done.
Qed.

(** X19.  In a context made of components without [/], a path that starts
    with [k] times [../], [k] at most the number of components, and goes on
    with a relative path that does not start with [..], is completed as that
    relative path is in the context without its last [k] components: both
    give that shorter context, the separator and the relative path. *)
Theorem complete_path_goes_up fuel (segments : list (list ascii)) (k : nat) (q : list ascii) :
  Forall (λ name, "/"%char ∉ name) segments →
  (k ≤ length segments)%nat → (k ≤ fuel)%nat →
  3 * Z.of_nat k + Z.of_nat (length q) < hdf5.npos →
  head q ≠ Some "/"%char → take 2 q ≠ hdf5.dotdot →
  let parent := hdf5.path_of (take (length segments - k) segments) in
  hdf5.complete_path fuel (hdf5.path_of segments) (hdf5.up k ++ q)
  = hdf5.Done (parent ++ hdf5.separator parent q ++ q)
  ∧ hdf5.complete_path fuel parent q
    = hdf5.Done (parent ++ hdf5.separator parent q ++ q).
Proof.
  intros Hnames Hk Hfuel Hlen Hhead Hq parent.
  split; [|by apply complete_path_relative].
  destruct k as [|k].
  { unfold parent. cbn [hdf5.up replicate concat app].
    rewrite Nat.sub_0_r, firstn_all. by apply complete_path_relative. }
  rewrite complete_path_enters_loop by apply (substr_up_dotdot (S k) 0 q ltac:(lia)).
  set (base := take (length segments - S k) segments) in *.
  set (tops := drop (length segments - S k) segments).
  assert (segments = base ++ tops) as Hsplit by (symmetry; apply take_drop).
  rewrite Hsplit.
  replace fuel with (S k + (fuel - S k))%nat by lia.
  rewrite npos_value in Hlen.
  rewrite (complete_path_loop_up _ (S k) tops base 0);
    [|unfold tops; rewrite length_drop; lia
     |unfold tops; by apply Forall_drop
     |intros j Hj; by apply substr_up_dotdot
     |unfold size_t_modulus; lia].
  rewrite (complete_path_loop_stops _ _ _ _ (take 2 q)).
  2:{ right. split; [|done]. by rewrite substr_up_rest by lia. }
  rewrite substr_up_rest by (by rewrite npos_value).
  by rewrite take_ge by (rewrite npos_value; lia).
Qed.

(** X20.  A path of [k] times [../] followed by [..] with no [/] after it,
    in a context of more than [k] components, is not completed: the loop or
    the return statement takes the text from place [3k+3] of a path of
    [3k+2] characters, and [std::out_of_range] is thrown. *)
Theorem complete_path_dotdot_throws fuel (segments : list (list ascii)) (k : nat) :
  Forall (λ name, "/"%char ∉ name) segments →
  (k < length segments)%nat → (k < fuel)%nat →
  3 * Z.of_nat k + 3 < size_t_modulus →
  hdf5.complete_path fuel (hdf5.path_of segments) (hdf5.up k ++ hdf5.dotdot)
  = hdf5.Raise hdf5.std_out_of_range.
Proof.
  intros Hnames Hk Hfuel Hlen.
  assert (∀ j, (j < S k)%nat →
            hdf5.substr (hdf5.up k ++ hdf5.dotdot) (3 * Z.of_nat j) 2 = Some hdf5.dotdot)
    as Hdots.
  { intros j Hj. destruct (decide (j = k)) as [->|Hne].
    - by rewrite substr_up_rest by lia.
    - apply substr_up_dotdot. lia. }
  rewrite complete_path_enters_loop by apply (Hdots 0%nat ltac:(lia)).
  set (base := take (length segments - S k) segments).
  set (tops := drop (length segments - S k) segments).
  assert (segments = base ++ tops) as Hsplit by (symmetry; apply take_drop).
  rewrite Hsplit.
  replace fuel with (S k + (fuel - S k))%nat by lia.
  rewrite (complete_path_loop_up _ (S k) tops base 0);
    [|unfold tops; rewrite length_drop; lia
     |unfold tops; by apply Forall_drop
     |intros j Hj; by apply Hdots
     |lia].
  assert (∀ n, hdf5.substr (hdf5.up k ++ hdf5.dotdot) (3 * Z.of_nat (0 + S k)) n = None)
    as Hpast.
  { intros n. apply substr_past_end. rewrite length_app, length_up. change (length hdf5.dotdot) with 2%nat. lia. }
  destruct (fuel - S k)%nat; cbn [hdf5.complete_path_loop];
    (destruct (bool_decide (length (hdf5.path_of base) = 0%nat));
      [by rewrite Hpast|by rewrite Hpast]).
Qed.

(** X21.  Going up by more levels than the context has components is no
    error: the loop ends when the context is used up, and what is left of
    the path, [../] included, is returned after a single [/]. *)
Theorem complete_path_above_root fuel (segments : list (list ascii)) (k : nat) (q : list ascii) :
  Forall (λ name, "/"%char ∉ name) segments →
  (length segments < k)%nat → (length segments ≤ fuel)%nat →
  3 * Z.of_nat k + Z.of_nat (length q) < hdf5.npos →
  hdf5.complete_path fuel (hdf5.path_of segments) (hdf5.up k ++ q)
  = hdf5.Done ("/"%char :: hdf5.up (k - length segments) ++ q).
Proof.
  intros Hnames Hk Hfuel Hlen. rewrite npos_value in Hlen.
  rewrite complete_path_enters_loop by apply (substr_up_dotdot k 0 q ltac:(lia)).
  set (n := length segments) in *.
  replace fuel with (n + (fuel - n))%nat by lia.
  rewrite (complete_path_loop_up _ n segments [] 0);
    [|done|done|intros j Hj; apply substr_up_dotdot; lia|unfold size_t_modulus; lia].
  rewrite (complete_path_loop_stops _ _ _ _ []) by by left.
  replace k with (n + (k - n))%nat at 1 by lia.
  rewrite up_add, <-app_assoc.
  rewrite (substr_suffix _ (hdf5.up n) (hdf5.up (k - n) ++ q));
    [|done|rewrite length_up; lia|rewrite length_app, length_up, npos_value; lia].
  unfold hdf5.separator. cbn [hdf5.path_of fmap list_fmap concat length app].
  rewrite (bool_decide_eq_false_2 (0%nat = 1%nat)) by done.
  rewrite bool_decide_eq_false_2; [done|].
  rewrite length_app, length_up. lia.
Qed.

(** ** The loop of [serialize] over the elements of an array *)

Lemma product_pos (l : list Z) : Forall (λ d, 1 ≤ d) l → 1 ≤ hdf5.product l.
Proof.
  induction 1 as [|d l Hd _ IH]; cbn; [lia|]. fold (hdf5.product l). nia.
Qed.

Lemma product_cons (d : Z) (l : list Z) : hdf5.product (d :: l) = d * hdf5.product l.
Proof. reflexivity. Qed.

Lemma product_app (l1 l2 : list Z) : hdf5.product (l1 ++ l2) = hdf5.product l1 * hdf5.product l2.
Proof.
  induction l1 as [|d l1 IH].
  - change (hdf5.product []) with 1. cbn [app]. lia.
  - cbn [app]. rewrite !product_cons, IH. ring.
Qed.

Lemma accumulate_int_from (l : list Z) : ∀ acc,
  Forall (λ d, 1 ≤ d) l → 1 ≤ acc → acc * hdf5.product l < 2 ^ 31 →
  foldl (λ acc x, hdf5.int_wrap (size_t_wrap (size_t_wrap acc * x))) acc l
  = acc * hdf5.product l.
Proof.
  induction l as [|x l IH]; intros acc Hl Hacc Hlt.
  - cbn. lia.
  - apply Forall_cons in Hl as [Hx Hl]. pose proof (product_pos l Hl) as Hp.
    rewrite product_cons in Hlt |- *. cbn [foldl].
    assert (1 ≤ acc * x) by nia.
    assert (acc * x < 2 ^ 31) by nia.
    assert (hdf5.int_wrap (size_t_wrap (size_t_wrap acc * x)) = acc * x) as ->.
    { unfold hdf5.int_wrap, size_t_wrap, size_t_modulus.
      rewrite (Z.mod_small acc) by lia.
      rewrite (Z.mod_small (acc * x)) by lia.
      rewrite Z.mod_small by lia. lia. }
    rewrite IH; [ring|done|done|]. by rewrite <-Z.mul_assoc.
Qed.

Lemma accumulate_int_product (l : list Z) :
  Forall (λ d, 1 ≤ d) l → hdf5.product l < 2 ^ 31 → hdf5.accumulate_int l = hdf5.product l.
Proof.
  intros Hl Hlt. unfold hdf5.accumulate_int.
  rewrite accumulate_int_from by (done || lia). lia.
Qed.

Lemma in_extents_length (size start : list Z) :
  hdf5.in_extents size start → length start = length size.
Proof. intros H. symmetry. by eapply Forall2_length. Qed.

Lemma in_extents_pos (size start : list Z) :
  hdf5.in_extents size start → Forall (λ d, 1 ≤ d) size.
Proof.
  induction 1 as [|d s size start Hs _ IH]; constructor; [lia|done].
Qed.

Lemma row_major_bounds (size start : list Z) :
  hdf5.in_extents size start → 0 ≤ hdf5.row_major size start < hdf5.product size.
Proof.
  induction 1 as [|d s size start Hs Hrest IH]; [cbn; lia|].
  cbn [hdf5.row_major]. rewrite product_cons.
  pose proof (product_pos size (in_extents_pos _ _ Hrest)). nia.
Qed.

Lemma row_major_app (dpre ds pre ss : list Z) :
  length dpre = length pre →
  hdf5.row_major (dpre ++ ds) (pre ++ ss)
  = hdf5.row_major dpre pre * hdf5.product ds + hdf5.row_major ds ss.
Proof.
  revert pre. induction dpre as [|d dpre IH]; intros [|s pre] Hlen; try done.
  cbn [app hdf5.row_major]. rewrite IH by (cbn in Hlen; lia).
  rewrite product_app. ring.
Qed.

Lemma row_major_max (ds : list Z) :
  hdf5.row_major ds (Z.pred <$> ds) = hdf5.product ds - 1.
Proof.
  induction ds as [|d ds IH]; [done|].
  cbn [fmap list_fmap hdf5.row_major]. rewrite product_cons.
  change (list_fmap Z Z Z.pred ds) with (Z.pred <$> ds). rewrite IH. lia.
Qed.

Lemma row_major_zeros (ds : list Z) :
  hdf5.row_major ds (replicate (length ds) 0) = 0.
Proof. induction ds as [|d ds IH]; [done|]. cbn. rewrite IH. lia. Qed.

Lemma position_from_row_major (start : list Z) : ∀ dpre ds pos,
  hdf5.in_extents ds start → hdf5.product ds < 2 ^ 31 →
  0 ≤ pos → pos + hdf5.product ds < 2 ^ 63 →
  hdf5.position_from (dpre ++ ds) (length dpre) start pos = pos + hdf5.row_major ds start.
Proof.
  induction start as [|s start IH]; intros dpre ds pos Hin Hlt Hpos Hsum.
  - destruct ds; [cbn; lia|]. by apply Forall2_nil_inv_r in Hin.
  - destruct ds as [|d ds]; [by apply Forall2_nil_inv_l in Hin|].
    apply Forall2_cons in Hin as [Hs Hin].
    pose proof (product_pos ds (in_extents_pos _ _ Hin)) as Hp.
    pose proof (row_major_bounds _ _ Hin) as Hrm.
    rewrite product_cons in Hlt, Hsum.
    cbn [hdf5.position_from hdf5.row_major].
    assert (drop (S (length dpre)) (dpre ++ d :: ds) = ds) as ->.
    { rewrite drop_app_ge by lia.
      by replace (S (length dpre) - length dpre)%nat with 1%nat by lia. }
    assert (s * hdf5.product ds < d * hdf5.product ds) by (apply Z.mul_lt_mono_pos_r; lia).
    assert (0 ≤ s * hdf5.product ds) by (apply Z.mul_nonneg_nonneg; lia).
    assert (s * hdf5.product ds + hdf5.product ds ≤ d * hdf5.product ds) by nia.
    rewrite accumulate_int_product by (by eapply in_extents_pos || lia).
    assert (size_t_add pos (size_t_wrap (s * size_t_wrap (hdf5.product ds)))
            = pos + s * hdf5.product ds) as ->.
    { unfold size_t_add, size_t_wrap, size_t_modulus.
      rewrite (Z.mod_small (hdf5.product ds)) by lia.
      rewrite (Z.mod_small (s * hdf5.product ds)) by lia.
      rewrite Z.mod_small by lia. done. }
    replace (dpre ++ d :: ds) with ((dpre ++ [d]) ++ ds) by by rewrite <-app_assoc.
    replace (S (length dpre)) with (length (dpre ++ [d]))
      by (rewrite length_app; cbn; lia).
    rewrite IH; [lia|done|lia|lia|lia].
Qed.

Lemma position_row_major (size start : list Z) :
  hdf5.in_extents size start → hdf5.product size < 2 ^ 31 →
  hdf5.position size start = hdf5.row_major size start.
Proof.
  intros Hin Hlt. unfold hdf5.position.
  pose proof (position_from_row_major start [] size 0 Hin Hlt) as H.
  cbn [app length] in H. rewrite H; lia.
Qed.

Ltac list_assoc :=
  rewrite <-?app_assoc; cbn [app]; rewrite <-?app_assoc; reflexivity.

Lemma carry_unfold (size start : list Z) (pos : nat) :
  hdf5.carry size start pos
  = let start1 := <[pos := size_t_add (start !!! pos) 1]> start in
    if bool_decide (start1 !!! pos = size !!! pos) && bool_decide (pos ≠ 0%nat) then
      match pos with
      | S pos' => hdf5.carry size start1 pos'
      | O => (start1, pos)
      end
    else (start1, pos).
Proof. by destruct pos. Qed.

Lemma lookup_total_at (l1 l2 : list Z) (x : Z) (n : nat) :
  n = length l1 → (l1 ++ x :: l2) !!! n = x.
Proof. intros ->. by apply list_lookup_total_middle. Qed.

Lemma insert_at (l1 l2 : list Z) (x y : Z) (n : nat) :
  n = length l1 → <[n := y]> (l1 ++ x :: l2) = l1 ++ y :: l2.
Proof.
  intros ->. rewrite insert_app_r_alt by lia.
  by replace (length l1 - length l1)%nat with 0%nat by lia.
Qed.

Lemma carry_run (dpre pre : list Z) (d x : Z) (A : list Z) : ∀ B B',
  length dpre = length pre →
  (pre = [] ∨ x + 1 ≠ d) →
  0 ≤ x → x + 1 < size_t_modulus →
  Forall (λ a, 1 ≤ a < size_t_modulus) A →
  hdf5.carry (dpre ++ d :: A ++ B) (pre ++ x :: (Z.pred <$> A) ++ B')
    (length pre + length A)
  = (pre ++ (x + 1) :: A ++ B', length pre).
Proof.
  induction A as [|a A IH] using rev_ind; intros B B' Hlen Hstop Hx Hx1 HA.
  - cbn [fmap list_fmap app length]. rewrite Nat.add_0_r, carry_unfold.
    cbn zeta. rewrite !lookup_total_at, !insert_at by done.
    rewrite lookup_total_at by done.
    rewrite size_t_add_small by lia.
    destruct Hstop as [->|Hne].
    + cbn [length]. by rewrite andb_false_r.
    + by rewrite bool_decide_eq_false_2.
  - apply Forall_app in HA as [HA Ha].
    apply (proj1 (Forall_singleton _ _)) in Ha. cbn beta in Ha.
    rewrite fmap_app. cbn [fmap list_fmap].
    rewrite length_app. cbn [length].
    replace (length pre + (length A + 1))%nat with (S (length pre + length A)) by lia.
    rewrite carry_unfold. cbn zeta.
    replace (pre ++ x :: ((Z.pred <$> A) ++ [Z.pred a]) ++ B')
      with ((pre ++ x :: (Z.pred <$> A)) ++ Z.pred a :: B')
      by list_assoc.
    replace (dpre ++ d :: (A ++ [a]) ++ B)
      with ((dpre ++ d :: A) ++ a :: B)
      by list_assoc.
    assert (S (length pre + length A) = length (pre ++ x :: (Z.pred <$> A))) as Hpos
      by (rewrite length_app; cbn [length]; rewrite length_fmap; lia).
    assert (S (length pre + length A) = length (dpre ++ d :: A)) as Hpos'
      by (rewrite length_app; cbn [length]; lia).
    rewrite !(lookup_total_at (pre ++ x :: (Z.pred <$> A))), !insert_at by done.
    rewrite (lookup_total_at (pre ++ x :: (Z.pred <$> A))) by done.
    rewrite (lookup_total_at (dpre ++ d :: A)) by done.
    rewrite size_t_add_small by lia.
    replace (Z.pred a + 1) with a by lia.
    rewrite bool_decide_eq_true_2 by done.
    rewrite bool_decide_eq_true_2 by done. cbn [andb].
    replace ((pre ++ x :: (Z.pred <$> A)) ++ a :: B')
      with (pre ++ x :: (Z.pred <$> A) ++ a :: B') by list_assoc.
    replace ((dpre ++ d :: A) ++ a :: B)
      with (dpre ++ d :: A ++ a :: B) by list_assoc.
    rewrite IH by done. list_assoc.
Qed.

Lemma clear_run (b : list Z) : ∀ a,
  foldl (λ st j, <[j := 0]> st) (a ++ b) (seq (length a) (length b))
  = a ++ replicate (length b) 0.
Proof.
  induction b as [|y b IH]; intros a; [done|].
  cbn [length seq foldl replicate]. rewrite insert_at by done.
  replace (a ++ 0 :: b) with ((a ++ [0]) ++ b) by list_assoc.
  replace (S (length a)) with (length (a ++ [0])) by (rewrite length_app; cbn; lia).
  rewrite IH. list_assoc.
Qed.

Lemma advance_spec (dpre pre dsuf : list Z) (d x : Z) :
  length dpre = length pre →
  (pre = [] ∨ x + 1 < d) →
  0 ≤ x < d → d < size_t_modulus →
  Forall (λ a, 1 ≤ a < size_t_modulus) dsuf →
  hdf5.advance (dpre ++ d :: dsuf) (pre ++ x :: (Z.pred <$> dsuf))
  = pre ++ (x + 1) :: replicate (length dsuf) 0.
Proof.
  intros Hlen Hstop Hx Hd Hsuf. unfold hdf5.advance.
  rewrite length_app. cbn [length]. rewrite length_fmap.
  replace (length pre + S (length dsuf) - 1)%nat with (length pre + length dsuf)%nat
    by lia.
  destruct dsuf as [|a dsuf _] using rev_ind.
  - cbn [fmap list_fmap length replicate]. rewrite Nat.add_0_r.
    rewrite lookup_total_at, insert_at by done.
    rewrite lookup_total_at by done.
    rewrite size_t_add_small by lia.
    destruct Hstop as [->|Hlt].
    + cbn [length]. by rewrite andb_false_r.
    + by rewrite bool_decide_eq_false_2 by lia.
  - pose proof Hsuf as Hsuf'. apply Forall_app in Hsuf' as [_ Ha].
    apply (proj1 (Forall_singleton _ _)) in Ha. cbn beta in Ha.
    assert ((pre ++ x :: (Z.pred <$> dsuf ++ [a])) !!! (length pre + length (dsuf ++ [a]))%nat
            = Z.pred a) as ->.
    { rewrite fmap_app. cbn [fmap list_fmap].
      replace (pre ++ x :: (Z.pred <$> dsuf) ++ [Z.pred a])
        with ((pre ++ x :: (Z.pred <$> dsuf)) ++ Z.pred a :: [])
        by list_assoc.
      apply lookup_total_at.
      rewrite !length_app. cbn [length]. rewrite length_fmap. lia. }
    assert ((dpre ++ d :: dsuf ++ [a]) !!! (length pre + length (dsuf ++ [a]))%nat = a)
      as ->.
    { replace (dpre ++ d :: dsuf ++ [a]) with ((dpre ++ d :: dsuf) ++ a :: [])
        by list_assoc.
      apply lookup_total_at. rewrite !length_app. cbn [length]. lia. }
    rewrite size_t_add_small by lia.
    rewrite bool_decide_eq_true_2 by lia.
    rewrite bool_decide_eq_true_2 by (rewrite length_app; cbn; lia). cbn [andb].
    pose proof (carry_run dpre pre d x (dsuf ++ [a]) [] [] Hlen) as Hcarry.
    rewrite !app_nil_r in Hcarry.
    rewrite Hcarry; [|destruct Hstop; [by left|right; lia]|lia|lia|done].
    unfold hdf5.clear_from.
    replace (S (length pre + length (dsuf ++ [a])) - S (length pre))%nat
      with (length (dsuf ++ [a])) by lia.
    replace (pre ++ (x + 1) :: dsuf ++ [a]) with ((pre ++ [x + 1]) ++ (dsuf ++ [a]))
      by list_assoc.
    replace (S (length pre)) with (length (pre ++ [x + 1]))
      by (rewrite length_app; cbn; lia).
    rewrite clear_run. list_assoc.
Qed.

Lemma in_extents_zeros (size : list Z) :
  Forall (λ d, 1 ≤ d) size → hdf5.in_extents size (replicate (length size) 0).
Proof.
  induction 1 as [|d size Hd _ IH]; [constructor|].
  cbn [length replicate]. constructor; [lia|done].
Qed.

Lemma extent_le_product (size : list Z) :
  Forall (λ d, 1 ≤ d) size → Forall (λ d, d ≤ hdf5.product size) size.
Proof.
  induction 1 as [|d size Hd Hsize IH]; [constructor|].
  pose proof (product_pos size Hsize). rewrite product_cons. constructor; [nia|].
  eapply Forall_impl; [exact IH|]. cbn beta. intros y Hy. nia.
Qed.

Lemma last_run (size start : list Z) :
  hdf5.in_extents size start → size ≠ [] →
  ∃ dpre d dsuf pre x,
    size = dpre ++ d :: dsuf
    ∧ start = pre ++ x :: (Z.pred <$> dsuf)
    ∧ hdf5.in_extents dpre pre
    ∧ 0 ≤ x < d
    ∧ Forall (λ a, 1 ≤ a) dsuf
    ∧ (pre = [] ∨ x + 1 < d).
Proof.
  induction 1 as [|d s size start Hs Hrest IH]; intros Hne; [done|].
  destruct (decide (size = [])) as [->|Hsize].
  { apply Forall2_nil_inv_l in Hrest as ->.
    exists [], d, [], [], s. split_and!; try done; try lia; try (by left); constructor. }
  destruct (IH Hsize) as (dpre & d' & dsuf & pre & x & -> & -> & Hpre & Hx & Hsuf & Hstop).
  destruct (decide (pre = [] ∧ x + 1 = d')) as [[-> Hmax]|Hnot].
  - apply Forall2_nil_inv_r in Hpre as ->.
    exists [], d, (d' :: dsuf), [], s. split_and!; try done; try lia.
    + cbn [app fmap list_fmap]. do 2 f_equal. lia.
    + constructor.
    + constructor; [lia|done].
    + by left.
  - exists (d :: dpre), d', dsuf, (s :: pre), x. split_and!; try done; try lia.
    + by constructor.
    + right. destruct Hstop as [->|?]; [|done].
      destruct (decide (x + 1 = d')); [|lia]. by destruct Hnot.
Qed.

Lemma advance_next (size start : list Z) :
  hdf5.in_extents size start → size ≠ [] →
  Forall (λ d, d < size_t_modulus) size →
  (hdf5.in_extents size (hdf5.advance size start)
   ∧ hdf5.row_major size (hdf5.advance size start) = hdf5.row_major size start + 1)
  ∨ (hdf5.row_major size start = hdf5.product size - 1
     ∧ hdf5.advance size start !!! 0%nat = size !!! 0%nat).
Proof.
  intros Hin Hne Hbound.
  destruct (last_run size start Hin Hne)
    as (dpre & d & dsuf & pre & x & -> & -> & Hpre & Hx & Hsuf & Hstop).
  apply Forall_app in Hbound as [_ Hbound].
  apply Forall_cons in Hbound as [Hd Hbound]. cbn beta in Hd.
  assert (length dpre = length pre) as Hlen by by eapply Forall2_length.
  assert (Forall (λ a, 1 ≤ a < size_t_modulus) dsuf) as Hsuf'.
  { apply Forall_and. by split. }
  rewrite advance_spec; [|try done; try lia..].
  rewrite !row_major_app by done. cbn [hdf5.row_major].
  rewrite row_major_max, row_major_zeros.
  destruct (decide (x + 1 < d)) as [Hlt|Hmax].
  - left. split; [|lia].
    apply Forall2_app; [done|]. constructor; [lia|]. by apply in_extents_zeros.
  - right. destruct Hstop as [->|?]; [|lia].
    apply Forall2_nil_inv_r in Hpre as ->.
    cbn [app hdf5.row_major]. rewrite product_cons.
    assert (d = x + 1) as -> by lia. split; [ring|done].
Qed.

Lemma serialize_loop_counts (size : list Z) : ∀ fuel start,
  hdf5.in_extents size start → size ≠ [] → hdf5.product size < 2 ^ 31 →
  (Z.to_nat (hdf5.product size - hdf5.row_major size start) ≤ fuel)%nat →
  ∃ trace,
    hdf5.serialize_loop fuel size start = Some trace
    ∧ snd <$> trace = seqZ (hdf5.row_major size start) (hdf5.product size - hdf5.row_major size start)
    ∧ Forall (λ e, hdf5.in_extents size e.1 ∧ hdf5.row_major size e.1 = e.2) trace.
Proof.
  induction fuel as [|fuel IH]; intros start Hin Hne Hlt Hfuel;
    pose proof (row_major_bounds _ _ Hin) as Hrm; [lia|].
  assert (Forall (λ d, d < size_t_modulus) size) as Hbound.
  { eapply Forall_impl; [apply extent_le_product; by eapply in_extents_pos|].
    cbn beta. intros d Hd. unfold size_t_modulus. lia. }
  cbn [hdf5.serialize_loop]. rewrite position_row_major by done.
  destruct (advance_next size start Hin Hne Hbound) as [[Hin' Hnext]|[Hmax Hend]].
  - pose proof (row_major_bounds _ _ Hin') as Hrm'.
    destruct size as [|d size]; [done|].
    destruct (hdf5.advance (d :: size) start) as [|s' start'] eqn:Hadv;
      [by apply Forall2_nil_inv_r in Hin'|].
    pose proof Hin' as Hhead. apply Forall2_cons in Hhead as [Hhead _].
    rewrite bool_decide_eq_true_2 by (cbn; lia).
    destruct (IH (s' :: start') Hin' Hne Hlt ltac:(lia)) as (trace & -> & Hpos & Hall).
    eexists. split; [reflexivity|]. split.
    + cbn [fmap list_fmap snd]. rewrite seqZ_cons by lia. f_equal.
      change (list_fmap _ _ snd trace) with (snd <$> trace).
      rewrite Hpos, Hnext. f_equal; lia.
    + constructor; [done|exact Hall].
  - rewrite bool_decide_eq_false_2 by lia.
    eexists. split; [reflexivity|]. split.
    + cbn [fmap list_fmap snd]. rewrite Hmax.
      replace (hdf5.product size - (hdf5.product size - 1)) with 1 by lia.
      by rewrite seqZ_cons, seqZ_nil by lia.
    + by repeat constructor.
Qed.

(** X22.  The loop of [serialize] for an array given by a pointer and its
    extents hands every element to [call_serialize] exactly once, in the
    order of the array: for extents that are all at least one and whose
    product fits an [int], the positions it computes are [0], [1], ... up to
    the product of the extents, and the indices it writes into the path of
    an element lie within the extents and are the indices of that position
    in row-major order. *)
Theorem serialize_elements_in_order (fuel : nat) (size : list Z) :
  size ≠ [] → Forall (λ d, 1 ≤ d) size → hdf5.product size < 2 ^ 31 →
  (Z.to_nat (hdf5.product size) ≤ fuel)%nat →
  ∃ trace,
    hdf5.serialize_elements fuel size = Some trace
    ∧ snd <$> trace = seqZ 0 (hdf5.product size)
    ∧ Forall (λ e, hdf5.in_extents size e.1 ∧ hdf5.row_major size e.1 = e.2) trace.
Proof.
  intros Hne Hpos Hlt Hfuel. unfold hdf5.serialize_elements.
  pose proof (in_extents_zeros size Hpos) as Hin.
  destruct (serialize_loop_counts size fuel _ Hin Hne Hlt) as (trace & Hrun & Hseq & Hall).
  { rewrite row_major_zeros. lia. }
  exists trace. split_and!; [done| |done].
  rewrite Hseq, row_major_zeros. f_equal. lia.
Qed.

Lemma row_major_injective (size : list Z) : ∀ a b,
  hdf5.in_extents size a → hdf5.in_extents size b →
  hdf5.row_major size a = hdf5.row_major size b → a = b.
Proof.
  induction size as [|d size IH]; intros a b Ha Hb Heq.
  - apply Forall2_nil_inv_l in Ha as ->. by apply Forall2_nil_inv_l in Hb as ->.
  - destruct a as [|x a]; [by apply Forall2_nil_inv_r in Ha|].
    destruct b as [|y b]; [by apply Forall2_nil_inv_r in Hb|].
    apply Forall2_cons in Ha as [Hx Ha]. apply Forall2_cons in Hb as [Hy Hb].
    pose proof (row_major_bounds _ _ Ha) as Hra.
    pose proof (row_major_bounds _ _ Hb) as Hrb.
    cbn [hdf5.row_major] in Heq.
    assert (x = y) as -> by nia.
    f_equal. apply IH; [done|done|lia].
Qed.

(** X23.  The position computed from the indices of an element addresses
    the array and nothing else, and no two elements share it: for extents
    whose product fits an [int], indices within the extents give a position
    below the product of the extents, and different indices give different
    positions. *)
Theorem position_addresses_one_element (size a b : list Z) :
  hdf5.in_extents size a → hdf5.in_extents size b →
  hdf5.product size < 2 ^ 31 →
  0 ≤ hdf5.position size a < hdf5.product size
  ∧ (hdf5.position size a = hdf5.position size b → a = b).
Proof.
  intros Ha Hb Hlt. rewrite !position_row_major by done. split.
  - by apply row_major_bounds.
  - by apply row_major_injective.
Qed.

(** ** The further statements at sample states *)

Ltac solve_decidable := apply (bool_decide_unpack _); vm_compute; exact I.

Lemma convert_to_mean_to_sum_roundtrip_witness :
  cov_data.wf examples.local_a ∧ 1 < cov_data.count_ examples.local_a
  ∧ Forall (λ x, is_finite x = true) (cov_data.data_ examples.local_a)
  ∧ cov_data.convert_to_mean (cov_data.convert_to_sum examples.local_a)
    = examples.local_a.
Proof.
  assert (cov_data.wf examples.local_a) as Hwf by solve_wf.
  assert (1 < cov_data.count_ examples.local_a) as Hc by reflexivity.
  assert (Forall (λ x, is_finite x = true) (cov_data.data_ examples.local_a)) as Hf
    by (repeat constructor).
  split_and!; [exact Hwf|exact Hc|exact Hf|].
  exact (convert_to_mean_to_sum_roundtrip examples.local_a Hwf Hc Hf).
Defined.

Lemma conversions_keep_shape_witness :
  cov_data.wf examples.sums
  ∧ cov_data.wf (cov_data.convert_to_mean examples.sums)
  ∧ cov_data.count_ (cov_data.convert_to_mean examples.sums) = 2.
Proof.
  assert (cov_data.wf examples.sums) as Hwf by solve_wf.
  split; [exact Hwf|].
  destruct (conversions_keep_shape examples.sums Hwf)
    as (Hmean & _ & _ & _ & _ & _ & Hcount & _).
  split; [exact Hmean|exact Hcount].
Defined.

Lemma add_to_adds_coefficients_witness :
  computed.add_to (computed.eigen_row_adapter [examples.q 5; examples.q 7])
    [examples.q 1; examples.q 2]
  = Throw size_mismatch [examples.q 1; examples.q 2].
Proof.
  apply (proj1 (proj2 (add_to_adds_coefficients
                         (computed.eigen_row_adapter [examples.q 5; examples.q 7])
                         [examples.q 1; examples.q 2]))
           1%nat eq_refl).
  vm_compute. lia.
Defined.

Lemma shl_keeps_size_and_shape_witness :
  cov_acc.shl examples.acc_one (computed.value_adapter (examples.q 7))
  = Ok examples.acc_two tt
  ∧ cov_acc.size examples.acc_two = cov_acc.size examples.acc_one
  ∧ valid examples.acc_two = valid examples.acc_one.
Proof.
  assert (cov_acc.shl examples.acc_one (computed.value_adapter (examples.q 7))
          = Ok examples.acc_two tt) as Hshl by reflexivity.
  split; [exact Hshl|].
  destruct (shl_keeps_size_and_shape examples.acc_one examples.acc_two _
              (or_introl Hshl)) as (Hsize & Hvalid & _).
  split; [exact Hsize|exact Hvalid].
Defined.

Lemma shl_leaves_bundle_open_witness :
  1 ≤ bundle.target_ (cov_acc.current_ examples.acc_one)
  ∧ cov_acc.shl examples.acc_one (computed.value_adapter (examples.q 7))
    = Ok examples.acc_two tt
  ∧ bundle.is_full (cov_acc.current_ examples.acc_two) = false.
Proof.
  assert (1 ≤ bundle.target_ (cov_acc.current_ examples.acc_one)) as Ht
    by (vm_compute; discriminate).
  assert (cov_acc.shl examples.acc_one (computed.value_adapter (examples.q 7))
          = Ok examples.acc_two tt) as Hshl by reflexivity.
  split_and!; [exact Ht|exact Hshl|].
  exact (proj1 (shl_leaves_bundle_open examples.acc_one examples.acc_two _ Ht Hshl)).
Defined.

Lemma shl_counts_one_sample_witness :
  ∃ d d',
    cov_acc.store_ examples.acc_one = Some d
    ∧ cov_acc.store_ examples.acc_two = Some d'
    ∧ cov_data.count_ d = 1
    ∧ cov_data.count_ d' = 2.
Proof.
  assert (∃ d, cov_acc.store_ examples.acc_one = Some d ∧ cov_data.count_ d = 1)
    as (d & Hd & Hc) by (eexists; split; reflexivity).
  assert (cov_acc.shl examples.acc_one (computed.value_adapter (examples.q 7))
          = Ok examples.acc_two tt) as Hshl by reflexivity.
  destruct (shl_counts_one_sample examples.acc_one examples.acc_two
              (computed.value_adapter (examples.q 7)) d Hd)
    as (d' & Hd' & _ & _ & Hfull);
    [vm_compute; split; [discriminate|reflexivity]|reflexivity
    |rewrite Hc; lia|rewrite Hc; reflexivity|exact Hshl|].
  exists d, d'. split_and!; [exact Hd|exact Hd'|exact Hc|].
  rewrite (proj1 (Hfull eq_refl)), Hc. reflexivity.
Defined.

Lemma shl_throws_after_update_witness :
  ∃ s, cov_acc.shl further_examples.acc_blocked (computed.value_adapter (examples.q 5))
       = Throw finalized_accumulator s
     ∧ cov_acc.count s = Some 1
     ∧ cov_acc.count further_examples.acc_blocked = Some 0.
Proof.
  eexists. split.
  - apply (shl_throws_after_update further_examples.acc_blocked examples.acc_finalized
             (computed.value_adapter (examples.q 5)) (cov_data.new 1));
      [reflexivity|reflexivity|reflexivity|reflexivity|reflexivity
      |vm_compute; discriminate].
  - split; reflexivity.
Defined.

Lemma reset_restores_constructor_state_witness :
  cov_acc_shaped examples.acc_two
  ∧ cov_acc.reset examples.acc_two = cov_acc.new 1 1.
Proof.
  assert (cov_acc_shaped examples.acc_two) as Hshaped.
  { intros d Hd. vm_compute in Hd. injection Hd as <-. split; [solve_wf|reflexivity]. }
  split; [exact Hshaped|].
  exact (proj2 (proj2 (reset_restores_constructor_state examples.acc_two Hshaped))
           eq_refl).
Defined.

Lemma feed_accumulates_sums_witness :
  Forall (λ x, computed.column_like x = true ∧ computed.size x = 1%nat) further_examples.samples
  ∧ ∃ a, feed (cov_acc.new 1 1) further_examples.samples = Ok a tt
       ∧ cov_acc.count a = Some 2.
Proof.
  assert (Forall (λ x, computed.column_like x = true ∧ computed.size x = 1%nat) further_examples.samples) as Hsz
    by (repeat constructor).
  split; [exact Hsz|].
  eexists. split.
  - apply (feed_accumulates_sums 1 further_examples.samples Hsz). reflexivity.
  - reflexivity.
Defined.

Lemma scalar_result_is_sample_mean_and_variance_witness :
  ∃ a r,
    (feed (cov_acc.new 1 1)
       ((λ q, computed.value_adapter (Finite q)) <$> [Qc_of_Z 5; Qc_of_Z 7])
     >>> λ a _, cov_acc.result a) = Ok a r
    ∧ cov_data.count_ <$> cov_result.store_ r = Some 2.
Proof.
  destruct (scalar_result_is_sample_mean_and_variance [Qc_of_Z 5; Qc_of_Z 7])
    as (a & Ha); [split; reflexivity|].
  eexists a, _. split; [exact Ha|reflexivity].
Defined.

Lemma feed_one_bundle_witness :
  ∃ a, feed (cov_acc.new 1 2) further_examples.samples = Ok a tt
     ∧ cov_acc.count a = Some 1.
Proof.
  eexists. split.
  - apply (proj2 (feed_one_bundle 1 2 further_examples.samples
                    ltac:(split; [discriminate|reflexivity])
                    ltac:(repeat constructor))).
    reflexivity.
  - reflexivity.
Defined.


Lemma reduce_pools_the_sums_witness :
  let ds := [examples.sums; examples.sums] in
  ∃ w',
    reduction.reduce 0 true true
      ((λ e, cov_result.of_data (cov_data.convert_to_mean e)) <$> ds) = Ok w' tt
    ∧ w' !! 0%nat
      = Some (cov_result.of_data (cov_data.convert_to_mean (sum_stores ds))).
Proof.
  intros ds.
  assert (cov_data.wf examples.sums ∧ 1 < cov_data.count_ examples.sums
          ∧ Forall (λ x, is_finite x = true) (cov_data.data_ examples.sums)) as H1
    by (split_and!; [solve_wf|reflexivity|repeat constructor]).
  destruct (reduce_pools_the_sums 0 ds examples.sums) as (w' & Hred & _ & Hroot & _);
    [constructor; [exact H1|constructor; [exact H1|constructor]]
    |reflexivity|cbn; lia|].
  exists w'. split; [exact Hred|exact Hroot].
Defined.

Lemma parallel_streams_merge_witness :
  let xss := [further_examples.samples; further_examples.samples] in
  let w := [further_examples.stream_result; further_examples.stream_result] in
  ∃ w' a r,
    reduction.reduce 0 true true w = Ok w' tt
    ∧ (feed (cov_acc.new 1 1) (concat xss) >>> λ a _, cov_acc.result a) = Ok a r
    ∧ w' !! 0%nat = Some r.
Proof.
  intros xss w.
  assert (∃ a, (feed (cov_acc.new 1 1) further_examples.samples
                  >>> λ a _, cov_acc.result a)
               = Ok a further_examples.stream_result) as Hone
    by (eexists; reflexivity).
  assert ((1 < length further_examples.samples)%nat
          ∧ Forall (λ x, computed.column_like x = true
                         ∧ computed.size x = 1%nat
                         ∧ Forall (λ c, is_finite c = true) (computed.values x))
                   further_examples.samples) as Hstream
    by (split; [cbn; lia|repeat constructor]).
  destruct (parallel_streams_merge 1 0 xss w)
    as (w' & a & r & Hred & Hseq & Hroot & _);
    [lia|cbn; lia
    |constructor; [exact Hstream|constructor; [exact Hstream|constructor]]
    |reflexivity
    |constructor; [exact Hone|constructor; [exact Hone|constructor]]|].
  exists w', a, r. split_and!; [exact Hred|exact Hseq|exact Hroot].
Defined.

Lemma encode_segment_escapes_witness :
  hdf5.encode_segment further_examples.decimal_string 26 further_examples.segment
  = hdf5.Done (concat (hdf5.encode_char <$> further_examples.segment))
  ∧ "/"%char ∉ concat (hdf5.encode_char <$> further_examples.segment).
Proof.
  apply (encode_segment_escapes further_examples.decimal_string 26
           further_examples.segment);
    [reflexivity|reflexivity|cbn; lia|reflexivity].
Defined.

Lemma decode_segment_inverts_encode_segment_witness :
  ∃ e,
    hdf5.encode_segment further_examples.decimal_string 26 further_examples.segment
    = hdf5.Done e
    ∧ hdf5.decode_segment further_examples.decimal_int 26 e
      = hdf5.Done further_examples.segment.
Proof.
  apply (decode_segment_inverts_encode_segment further_examples.decimal_string
           further_examples.decimal_int 26 further_examples.segment);
    [reflexivity|reflexivity|reflexivity|reflexivity|cbn; lia|reflexivity].
Defined.

Lemma decode_segment_edges_witness :
  ("&"%char ∉ further_examples.plain)
  ∧ hdf5.decode_segment further_examples.decimal_int 0 further_examples.plain
    = hdf5.Done further_examples.plain
  ∧ hdf5.decode_segment further_examples.decimal_int 1
      (further_examples.plain ++ ["&"%char])
    = hdf5.Raise hdf5.std_out_of_range.
Proof.
  assert ("&"%char ∉ further_examples.plain) as Hplain by solve_decidable.
  split; [exact Hplain|].
  destruct (decode_segment_edges further_examples.decimal_int 0
              further_examples.plain Hplain) as (Hsame & Hthrow).
  split; [exact Hsame|]. apply Hthrow. reflexivity.
Defined.

Lemma complete_path_goes_up_witness :
  Forall (λ name, "/"%char ∉ name) further_examples.components
  ∧ hdf5.complete_path 2 (hdf5.path_of further_examples.components)
      (hdf5.up 1 ++ further_examples.mean)
    = hdf5.complete_path 2
        (hdf5.path_of (take 1 further_examples.components)) further_examples.mean.
Proof.
  assert (Forall (λ name, "/"%char ∉ name) further_examples.components) as Hnames
    by solve_decidable.
  split; [exact Hnames|].
  destruct (complete_path_goes_up 2 further_examples.components 1
              further_examples.mean Hnames) as [Hup Hrel];
    [cbn; lia|lia|reflexivity|discriminate|discriminate|].
  exact (eq_trans Hup (eq_sym Hrel)).
Defined.

Lemma complete_path_dotdot_throws_witness :
  Forall (λ name, "/"%char ∉ name) further_examples.components
  ∧ hdf5.complete_path 1 (hdf5.path_of further_examples.components) hdf5.dotdot
    = hdf5.Raise hdf5.std_out_of_range.
Proof.
  assert (Forall (λ name, "/"%char ∉ name) further_examples.components) as Hnames
    by solve_decidable.
  split; [exact Hnames|].
  apply (complete_path_dotdot_throws 1 further_examples.components 0 Hnames);
    [cbn; lia|lia|reflexivity].
Defined.

Lemma complete_path_above_root_witness :
  Forall (λ name, "/"%char ∉ name) further_examples.components
  ∧ hdf5.complete_path 2 (hdf5.path_of further_examples.components)
      (hdf5.up 3 ++ further_examples.mean)
    = hdf5.Done ("/"%char :: hdf5.up 1 ++ further_examples.mean).
Proof.
  assert (Forall (λ name, "/"%char ∉ name) further_examples.components) as Hnames
    by solve_decidable.
  split; [exact Hnames|].
  apply (complete_path_above_root 2 further_examples.components 3
           further_examples.mean Hnames); [cbn; lia|cbn; lia|reflexivity].
Defined.

Lemma serialize_elements_in_order_witness :
  ∃ trace,
    hdf5.serialize_elements 6 [2; 3] = Some trace
    ∧ snd <$> trace = seqZ 0 6.
Proof.
  destruct (serialize_elements_in_order 6 [2; 3]) as (trace & Hrun & Hpos & _);
    [discriminate|repeat constructor; lia|reflexivity|vm_compute; lia|].
  exists trace. split; [exact Hrun|exact Hpos].
Defined.

Lemma position_addresses_one_element_witness :
  hdf5.in_extents [2; 3] [1; 2] ∧ hdf5.in_extents [2; 3] [0; 1]
  ∧ 0 ≤ hdf5.position [2; 3] [1; 2] < 6.
Proof.
  assert (hdf5.in_extents [2; 3] [1; 2]) as Ha by (repeat constructor; lia).
  assert (hdf5.in_extents [2; 3] [0; 1]) as Hb by (repeat constructor; lia).
  split_and!; [exact Ha|exact Hb|..];
    apply (position_addresses_one_element [2; 3] [1; 2] [0; 1] Ha Hb); reflexivity.
Defined.
